(** * A shallow embedding of the provably fair dice game

    The repository holds two variants of one program:
    - the commit-reveal game (classes [Dice], [DiceParser],
      [ProbabilityCalculator], [SecureRandom], [FairRandomGenerator],
      [CoinFlip], [Game] and the function [secureRandomIndex]);
    - [dice.js], the same game without the commitment protocol
      (module [DiceJs] below).

    Every Number of the program is a double.  Counters, indices, sizes
    and the numbers of the protocol are integers and are embedded as [Z];
    within 2^53 in size, where no sum of two of them is rounded, the
    embedding is exact, and the program is written on it.  A face is an
    integer-valued double and is embedded as the integer it stands for.
    The one division of the program, in [winProbability], is embedded as
    the exact quotient in [Q], of which the code returns the nearest
    double.  Module [Binary64] writes the rounding out for [computeResult],
    [secureRandomIndex] and [winProbability], the functions whose contract
    is stated for numbers of any size; [computeResult_exact],
    [secureRandomIndex_exact] and [Binary64_winProbability_unfold] give the
    bounds within which the two forms agree. *)

From Stdlib Require Import String Ascii.
From Stdlib.Strings Require Import Byte.
From Stdlib Require Import ZArith QArith Qround Qabs Qpower Lia Lqa Bool Arith List.
From Stdlib Require Import DecimalString DecimalPos Permutation.
Import ListNotations.

Local Open Scope Z_scope.

(* ================================================================== *)
(** * Part I: definitions *)
(* ================================================================== *)

(** ** JavaScript values that reach a comparison or an array index *)

Inductive jsval : Type :=
| Undefined
| Null
| Num (z : Z).

(** [ToNumber] as far as relational operators need it: [undefined] is
    NaN (no number), [null] is +0. *)
Definition toNumber (v : jsval) : option Z :=
  match v with
  | Undefined => None
  | Null => Some 0
  | Num z => Some z
  end.

(** [x > y]: false as soon as one side is NaN. *)
Definition js_gt (x y : jsval) : bool :=
  match toNumber x, toNumber y with
  | Some a, Some b => b <? a
  | _, _ => false
  end.

(** [x === y] on the values above. *)
Definition js_eq (x y : jsval) : bool :=
  match x, y with
  | Undefined, Undefined => true
  | Null, Null => true
  | Num a, Num b => a =? b
  | _, _ => false
  end.

(** [arr[i]] for a number [i]: [undefined] outside the array. *)
Definition js_index {A : Type} (arr : list A) (i : Z) : option A :=
  if i <? 0 then None else nth_error arr (Z.to_nat i).

(** [for (let i = 0; i < n; i++) body] threading the loop's state. *)
Definition for_range {S : Type} (n : Z) (body : Z -> S -> S) (s : S) : S :=
  fold_left (fun acc i => body (Z.of_nat i) acc) (seq 0 (Z.to_nat n)) s.

(** ** JavaScript strings and numbers

    A string is a sequence of code units below 256 ([string] of the
    Standard Library). *)

Definition code (c : ascii) : Z := Z.of_N (N_of_ascii c).

(** White space and line terminators among the code units below 256: TAB,
    LF, VT, FF, CR, SP and NBSP. *)
Definition isWhiteSpace (c : ascii) : bool :=
  let n := code c in
  ((9 <=? n) && (n <=? 13)) || (n =? 32) || (n =? 160).

Fixpoint trimStart (s : string) : string :=
  match s with
  | String c r => if isWhiteSpace c then trimStart r else s
  | EmptyString => EmptyString
  end.

Fixpoint trimEnd (s : string) : string :=
  match s with
  | String c r =>
      match trimEnd r with
      | EmptyString => if isWhiteSpace c then EmptyString else String c EmptyString
      | r' => String c r'
      end
  | EmptyString => EmptyString
  end.

(** [s.trim()] *)
Definition trim (s : string) : string := trimEnd (trimStart s).

(** [s.toUpperCase()] on the letters a-z; the other code units that the
    program can still tell apart afterwards (digits, signs, [?], [X]) are
    fixed by it. *)
Definition toUpperChar (c : ascii) : ascii :=
  let n := code c in
  if (97 <=? n) && (n <=? 122) then ascii_of_N (Z.to_N (n - 32)) else c.

Fixpoint toUpperCase (s : string) : string :=
  match s with
  | String c r => String (toUpperChar c) (toUpperCase r)
  | EmptyString => EmptyString
  end.

(** [s.split(sep)] for a one-character separator: never empty. *)
Fixpoint split (sep : ascii) (s : string) : list string :=
  match s with
  | EmptyString => [EmptyString]
  | String c r =>
      if Ascii.eqb c sep then EmptyString :: split sep r
      else match split sep r with
           | p :: ps => String c p :: ps
           | [] => [String c EmptyString]
           end
  end.

(** [arr.join(sep)] *)
Fixpoint join (sep : string) (l : list string) : string :=
  match l with
  | [] => EmptyString
  | [x] => x
  | x :: r => (x ++ sep ++ join sep r)%string
  end.

(** [n.toString()] for an integer-valued number below 10^21 in size (from
    there on JavaScript writes an exponent). *)
Definition toString (n : Z) : string := NilZero.string_of_int (Z.to_int n).

(** A number value: NaN, an infinity, or the finite double
    [mant * 2^expo]. *)
Inductive jsnumber : Type :=
| NaN
| Infinite (negative : bool)
| Finite (mant expo : Z).

(** Round the positive rational [p / q] to the nearest double, ties to the
    even significand (53 bits, least exponent -1074); [None] when the
    result exceeds the largest double. *)
Definition roundDouble (p q : Z) : option (Z * Z) :=
  let d := Z.log2 p - Z.log2 q in
  let ge := if 0 <=? d then q * 2 ^ d <=? p else q <=? p * 2 ^ (- d) in
  let E := if ge then d else d - 1 in
  let ex := Z.max (E - 52) (-1074) in
  let N := if 0 <=? ex then p else p * 2 ^ (- ex) in
  let D := if 0 <=? ex then q * 2 ^ ex else q in
  let m0 := N / D in
  let r := N mod D in
  let m := if 2 * r <? D then m0
           else if D <? 2 * r then m0 + 1
           else if Z.even m0 then m0 else m0 + 1 in
  if 1024 <=? Z.log2 m + ex then None else Some (m, ex).

(** The number denoted by [sign * m * 10^e]. *)
Definition decimalToNumber (negative : bool) (m e : Z) : jsnumber :=
  if m =? 0 then Finite 0 0
  else
    let r := if 0 <=? e then roundDouble (m * 10 ^ e) 1
             else roundDouble m (10 ^ (- e)) in
    match r with
    | None => Infinite negative
    | Some (mt, ex) => Finite (if negative then - mt else mt) ex
    end.

Definition digitValue (base : Z) (c : ascii) : option Z :=
  let n := code c in
  let v := if (48 <=? n) && (n <=? 57) then n - 48
           else if (97 <=? n) && (n <=? 102) then n - 87
           else if (65 <=? n) && (n <=? 70) then n - 55
           else base in
  if v <? base then Some v else None.

(** Read the longest run of digits at the head of [s], continuing the value
    [acc]: the value, the number of digits read, and what follows. *)
Fixpoint readDigits (base : Z) (s : string) (acc count : Z) : Z * Z * string :=
  match s with
  | String c r =>
      match digitValue base c with
      | Some v => readDigits base r (acc * base + v) (count + 1)
      | None => (acc, count, s)
      end
  | EmptyString => (acc, count, s)
  end.

Definition readSign (s : string) : bool * string :=
  match s with
  | String "-" r => (true, r)
  | String "+" r => (false, r)
  | _ => (false, s)
  end.

(** [0x], [0o] and [0b] literals: digits of the base up to the end. *)
Definition nonDecimalLiteral (s : string) : option jsnumber :=
  match s with
  | String "0" (String p r) =>
      let base := if (Ascii.eqb p "x" || Ascii.eqb p "X")%bool then Some 16
                  else if (Ascii.eqb p "o" || Ascii.eqb p "O")%bool then Some 8
                  else if (Ascii.eqb p "b" || Ascii.eqb p "B")%bool then Some 2
                  else None in
      match base with
      | Some b =>
          match readDigits b r 0 0 with
          | (v, n, EmptyString) =>
              if 0 <? n then Some (decimalToNumber false v 0) else Some NaN
          | _ => Some NaN
          end
      | None => None
      end
  | _ => None
  end.

(** The exponent part, if any, of a decimal literal: [None] when what
    follows the mantissa is not an exponent running to the end. *)
Definition exponentPart (s : string) : option Z :=
  match s with
  | EmptyString => Some 0
  | String c r =>
      if (Ascii.eqb c "e" || Ascii.eqb c "E")%bool then
        let (neg, r1) := readSign r in
        match readDigits 10 r1 0 0 with
        | (v, n, EmptyString) =>
            if 0 <? n then Some (if neg then - v else v) else None
        | _ => None
        end
      else None
  end.

Definition decimalLiteral (s : string) : jsnumber :=
  let (neg, r) := readSign s in
  if String.eqb r "Infinity" then Infinite neg
  else
    let '(v1, n1, r1) := readDigits 10 r 0 0 in
    let '(v2, n2, r2) :=
      match r1 with
      | String "." r1' => readDigits 10 r1' v1 0
      | _ => (v1, 0, r1)
      end in
    if 0 <? n1 + n2 then
      match exponentPart r2 with
      | Some e => decimalToNumber neg v2 (e - n2)
      | None => NaN
      end
    else NaN.

(** [Number(s)] for a string [s]. *)
Definition Number_ (s : string) : jsnumber :=
  let t := trim s in
  match t with
  | EmptyString => Finite 0 0
  | _ => match nonDecimalLiteral t with
         | Some n => n
         | None => decimalLiteral t
         end
  end.

(** [Number.isInteger(n)] *)
Definition Number_isInteger (n : jsnumber) : bool :=
  match n with
  | Finite m e => (0 <=? e) || (m mod 2 ^ (- e) =? 0)
  | _ => false
  end.

(** The integer an integral number stands for. *)
Definition integerValue (n : jsnumber) : Z :=
  match n with
  | Finite m e => if 0 <=? e then m * 2 ^ e else m / 2 ^ (- e)
  | _ => 0
  end.


(** ** class Dice *)

Record Dice : Type := mkDice { faces : list Z; numFaces : Z }.

(** [constructor(faces)] *)
Definition new_Dice (fs : list Z) : Dice :=
  {| faces := fs; numFaces := Z.of_nat (length fs) |}.

(** [getFace(index)]: [this.faces[index % this.numFaces]].  The remainder
    by zero is NaN, and indexing by NaN gives [undefined]. *)
Definition getFace (d : Dice) (index : Z) : jsval :=
  if numFaces d =? 0 then Undefined
  else match js_index (faces d) (Z.rem index (numFaces d)) with
       | Some f => Num f
       | None => Undefined
       end.

(** ** Results of code that may throw *)

Inductive result (A : Type) : Type :=
| Ok (a : A)
| Throw (message : string).
Arguments Ok {A} a.
Arguments Throw {A} message.

(** ** class DiceParser *)

(** The callback of [parts.map]: the first token that is not an integer
    throws, and the tokens after it are not looked at. *)
Fixpoint mapFaces (parts : list string) : result (list Z) :=
  match parts with
  | [] => Ok []
  | numStr :: rest =>
      let num := Number_ numStr in
      if negb (Number_isInteger num) then Throw ("Not a number: " ++ numStr)%string
      else match mapFaces rest with
           | Ok fs => Ok (integerValue num :: fs)
           | Throw m => Throw m
           end
  end.

(** The body of [for (const arg of args)], pushing onto [dice]. *)
Fixpoint parseArgs (args : list string) (dice : list Dice) : result (list Dice) :=
  match args with
  | [] => Ok dice
  | arg :: rest =>
      let parts := split "," arg in
      if (length parts =? 0)%nat then Throw "Each die needs at least one face!"
      else match mapFaces parts with
           | Ok fs => parseArgs rest (dice ++ [new_Dice fs])
           | Throw m => Throw m
           end
  end.

Definition usageError : string :=
  "You need at least 3 dice. Example: node dice_game.js 2,2,4,4,9,9 6,8,1,1,8,6 7,5,3,7,5,3".

(** [DiceParser.parseDice(args)] *)
Definition parseDice (args : list string) : result (list Dice) :=
  if (length args <? 3)%nat then Throw usageError
  else parseArgs args [].

(** What the parser makes of one specification whose tokens all pass. *)
Definition dieOfSpec (arg : string) : Dice :=
  new_Dice (map (fun numStr => integerValue (Number_ numStr)) (split "," arg)).

(** The parser's own test of a face token. *)
Definition passesIntegerTest (numStr : string) : bool :=
  Number_isInteger (Number_ numStr).

(** An integer as the specification's examples write one: an optional
    minus sign and one decimal digit or more. *)
Definition allDigits (s : string) : bool :=
  match readDigits 10 s 0 0 with
  | (_, n, EmptyString) => 0 <? n
  | _ => false
  end.

Definition isIntegerLiteral (s : string) : bool :=
  match s with
  | String "-" r => allDigits r
  | _ => allDigits s
  end.

(** ** class ProbabilityCalculator *)

(** The two nested loops of [winProbability], returning [wins]. *)
Definition countWins (die1 die2 : Dice) : Z :=
  for_range (numFaces die1) (fun i wins =>
    for_range (numFaces die2) (fun j wins =>
      if js_gt (getFace die1 i) (getFace die2 j) then wins + 1 else wins)
      wins) 0.

(** [winProbability(die1, die2)] as the exact quotient, of which the code
    returns the nearest double, [Binary64.winProbability]. *)
Definition winProbability (die1 die2 : Dice) : Q :=
  let total := numFaces die1 * numFaces die2 in
  let wins := countWins die1 die2 in
  if 0 <? total then (inject_Z wins / inject_Z total)%Q else 0%Q.

(** The index pairs [(i, j)] with [0 <= i < numFaces a] and
    [0 <= j < numFaces b], and how many of them satisfy a test. *)
Definition indices (n : Z) : list Z := map Z.of_nat (seq 0 (Z.to_nat n)).

Definition facePairs (a b : Dice) : list (Z * Z) :=
  list_prod (indices (numFaces a)) (indices (numFaces b)).

Definition countPairs (test : jsval -> jsval -> bool) (a b : Dice) : Z :=
  Z.of_nat (length (filter (fun ij => test (getFace a (fst ij)) (getFace b (snd ij)))
                           (facePairs a b))).

(** The tie fraction the specification sets beside [winProbability]; the
    program has no function for it. *)
Definition tieFraction (a b : Dice) : Q :=
  (inject_Z (countPairs js_eq a b) / inject_Z (numFaces a * numFaces b))%Q.

(** Pairs of elements of two lists that satisfy a test. *)
Definition count2 {A B : Type} (p : A -> B -> bool) (la : list A) (lb : list B) : nat :=
  length (filter (fun ab => p (fst ab) (snd ab)) (list_prod la lb)).

(** ** class FairRandomGenerator: the object and its accessors *)

Record FairRandomGenerator : Type := mkGenerator {
  max : Z;
  key : list byte;
  computerNumber : Z;
  hmac : string
}.

(** [computeResult(userNumber)]; [%] is the remainder that takes the sign
    of the dividend.  The two sums are exact while they stay within 2^53;
    [Binary64.computeResult] rounds them. *)
Definition computeResult (g : FairRandomGenerator) (userNumber : Z) : Z :=
  Z.rem (computerNumber g + userNumber) (max g + 1).

Definition getHMAC (g : FairRandomGenerator) : string := hmac g.

Definition getComputerNumber (g : FairRandomGenerator) : Z := computerNumber g.

(** ** The [crypto] module: hashes, HMAC and hexadecimal text

    [crypto.createHmac] is the host's HMAC (RFC 2104) over SHA-256
    (FIPS 180-4) or SHA3-256 (FIPS 202).  Words are [Z] reduced modulo
    2^32 or 2^64; byte strings inside the hashes are lists of [Z] below
    256. *)

Definition byteToZ (b : byte) : Z := Z.of_N (Byte.to_N b).

Definition byteOfZ (z : Z) : byte :=
  match Byte.of_N (Z.to_N (z mod 256)) with
  | Some b => b
  | None => x00
  end.

(** Cut a list into pieces of [n] elements, the last one maybe shorter. *)
Fixpoint chunksFuel {A : Type} (fuel n : nat) (l : list A) : list (list A) :=
  match fuel, l with
  | S fuel', _ :: _ => firstn n l :: chunksFuel fuel' n (skipn n l)
  | _, _ => []
  end.

Definition chunks {A : Type} (n : nat) (l : list A) : list (list A) :=
  chunksFuel (length l) n l.

(** Big-endian and little-endian readings of a byte list. *)
Definition fromBigEndian (bs : list Z) : Z :=
  fold_left (fun acc b => acc * 256 + b) bs 0.

Definition fromLittleEndian (bs : list Z) : Z :=
  fold_right (fun b acc => b + 256 * acc) 0 bs.

Fixpoint toLittleEndian (n : nat) (x : Z) : list Z :=
  match n with
  | O => []
  | S n' => x mod 256 :: toLittleEndian n' (x / 256)
  end.

Definition toBigEndian (n : nat) (x : Z) : list Z := rev (toLittleEndian n x).

Module SHA256.

Definition w32 (x : Z) : Z := x mod 2 ^ 32.
Definition add32 (x y : Z) : Z := w32 (x + y).
Definition rotr (n x : Z) : Z :=
  Z.lor (Z.shiftr x n) (w32 (Z.shiftl x (32 - n))).
Definition not32 (x : Z) : Z := Z.lxor x 0xffffffff.

Definition Ch (x y z : Z) : Z := Z.lxor (Z.land x y) (Z.land (not32 x) z).
Definition Maj (x y z : Z) : Z :=
  Z.lxor (Z.lxor (Z.land x y) (Z.land x z)) (Z.land y z).
Definition Sigma0 (x : Z) : Z := Z.lxor (Z.lxor (rotr 2 x) (rotr 13 x)) (rotr 22 x).
Definition Sigma1 (x : Z) : Z := Z.lxor (Z.lxor (rotr 6 x) (rotr 11 x)) (rotr 25 x).
Definition sigma0 (x : Z) : Z := Z.lxor (Z.lxor (rotr 7 x) (rotr 18 x)) (Z.shiftr x 3).
Definition sigma1 (x : Z) : Z := Z.lxor (Z.lxor (rotr 17 x) (rotr 19 x)) (Z.shiftr x 10).

(** The constants as FIPS 180-4 defines them: the first 32 bits of the
    fractional parts of the cube roots of the first 64 primes, and of the
    square roots of the first 8. *)
Definition isPrime (n : Z) : bool :=
  forallb (fun d => negb (n mod Z.of_nat d =? 0))
          (seq 2 (Z.to_nat (Z.sqrt n) - 1)).

Definition firstPrimes (n : nat) : list Z :=
  firstn n (filter isPrime (map Z.of_nat (seq 2 400))).

Definition cubeRoot (n : Z) : Z :=
  fold_left (fun x i => let y := x + 2 ^ Z.of_nat i in
                        if y * y * y <=? n then y else x)
            (rev (seq 0 48)) 0.

Definition K : list Z :=
  Eval vm_compute in map (fun p => w32 (cubeRoot (p * 2 ^ 96))) (firstPrimes 64).

Definition H0 : list Z :=
  Eval vm_compute in map (fun p => w32 (Z.sqrt (p * 2 ^ 64))) (firstPrimes 8).

(** The message with the bit 1, zeros and the 64-bit length appended. *)
Definition pad (msg : list Z) : list Z :=
  let len := Z.of_nat (length msg) in
  msg ++ [0x80] ++ repeat 0 (Z.to_nat ((55 - len) mod 64))
      ++ toBigEndian 8 (8 * len).

(** The message schedule, newest word first. *)
Fixpoint extend (n : nat) (rw : list Z) : list Z :=
  match n with
  | O => rw
  | S n' =>
      let w := add32 (add32 (sigma1 (nth 1 rw 0)) (nth 6 rw 0))
                     (add32 (sigma0 (nth 14 rw 0)) (nth 15 rw 0)) in
      extend n' (w :: rw)
  end.

Definition schedule (block : list Z) : list Z :=
  rev (extend 48 (rev (map fromBigEndian (chunks 4 block)))).

Definition round (s : list Z) (kw : Z * Z) : list Z :=
  match s with
  | [a; b; c; d; e; f; g; h] =>
      let t1 := add32 (add32 (add32 h (Sigma1 e)) (add32 (Ch e f g) (fst kw))) (snd kw) in
      let t2 := add32 (Sigma0 a) (Maj a b c) in
      [add32 t1 t2; a; b; c; add32 d t1; e; f; g]
  | _ => s
  end.

Definition compress (h : list Z) (block : list Z) : list Z :=
  map (fun p => add32 (fst p) (snd p))
      (combine h (fold_left round (combine K (schedule block)) h)).

Definition hash (msg : list Z) : list Z :=
  flat_map (toBigEndian 4) (fold_left compress (chunks 64 (pad msg)) H0).

Definition blockSize : nat := 64.

End SHA256.

Module SHA3_256.

Definition w64 (x : Z) : Z := x mod 2 ^ 64.
Definition rotl (n x : Z) : Z :=
  Z.lor (w64 (Z.shiftl x n)) (Z.shiftr x (64 - n)).
Definition not64 (x : Z) : Z := Z.lxor x 0xffffffffffffffff.

(** The round constants and the rotation offsets, the latter at index
    [x + 5 * y]. *)
Definition RC : list Z :=
  [0x0000000000000001; 0x0000000000008082; 0x800000000000808a;
   0x8000000080008000; 0x000000000000808b; 0x0000000080000001;
   0x8000000080008081; 0x8000000000008009; 0x000000000000008a;
   0x0000000000000088; 0x0000000080008009; 0x000000008000000a;
   0x000000008000808b; 0x800000000000008b; 0x8000000000008089;
   0x8000000000008003; 0x8000000000008002; 0x8000000000000080;
   0x000000000000800a; 0x800000008000000a; 0x8000000080008081;
   0x8000000000008080; 0x0000000080000001; 0x8000000080008008].

Definition rho : list Z :=
  [0; 1; 62; 28; 27; 36; 44; 6; 55; 20; 3; 10; 43; 25; 39; 41; 45; 15; 21; 8;
   18; 2; 61; 56; 14].

Definition lane (A : list Z) (x y : nat) : Z := nth (x mod 5 + 5 * (y mod 5)) A 0.

Definition build (f : nat -> nat -> Z) : list Z :=
  map (fun i => f (i mod 5)%nat (i / 5)%nat) (seq 0 25).

Definition theta (A : list Z) : list Z :=
  let C x := fold_left Z.lxor (map (lane A x) (seq 0 5)) 0 in
  let D x := Z.lxor (C (x + 4)%nat) (rotl 1 (C (x + 1)%nat)) in
  build (fun x y => Z.lxor (lane A x y) (D x)).

(** rho and pi together: the lane at [(x, y)] is rotated and moved to
    [(y, 2x + 3y)]; read backwards, [(x, y)] receives the lane of
    [(x + 3y, x)]. *)
Definition rhoPi (A : list Z) : list Z :=
  build (fun x y =>
    let x' := ((x + 3 * y) mod 5)%nat in
    let y' := x in
    rotl (nth (x' + 5 * y') rho 0) (lane A x' y')).

Definition chi (A : list Z) : list Z :=
  build (fun x y =>
    Z.lxor (lane A x y)
           (Z.land (not64 (lane A (x + 1) y)) (lane A (x + 2) y))).

Definition iota (rc : Z) (A : list Z) : list Z :=
  match A with
  | a :: r => Z.lxor a rc :: r
  | [] => []
  end.

Definition keccakF (A : list Z) : list Z :=
  fold_left (fun s rc => iota rc (chi (rhoPi (theta s)))) RC A.

Definition rate : nat := 136.

(** The message with the suffix 01, the bit 1, zeros and a last bit 1. *)
Definition pad (msg : list Z) : list Z :=
  let len := Z.of_nat (length msg) in
  let k := Z.to_nat ((135 - len) mod 136) in
  match k with
  | O => msg ++ [0x86]
  | S k' => msg ++ [0x06] ++ repeat 0 k' ++ [0x80]
  end.

Definition absorb (s : list Z) (block : list Z) : list Z :=
  let lanes := map fromLittleEndian (chunks 8 block) ++ repeat 0 8 in
  keccakF (map (fun p => Z.lxor (fst p) (snd p)) (combine s lanes)).

Definition hash (msg : list Z) : list Z :=
  firstn 32 (flat_map (toLittleEndian 8)
                      (fold_left absorb (chunks rate (pad msg)) (repeat 0 25))).

Definition blockSize : nat := rate.

End SHA3_256.

(** The two algorithms [computeHMAC] chooses between. *)
Inductive algorithm : Type := sha3_256 | sha256.

Definition algorithmName (a : algorithm) : string :=
  match a with
  | sha3_256 => "sha3-256"
  | sha256 => "sha256"
  end.

Definition hashOf (a : algorithm) : list Z -> list Z :=
  match a with
  | sha3_256 => SHA3_256.hash
  | sha256 => SHA256.hash
  end.

Definition blockSizeOf (a : algorithm) : nat :=
  match a with
  | sha3_256 => SHA3_256.blockSize
  | sha256 => SHA256.blockSize
  end.

(** HMAC: the key, hashed if longer than a block and filled with zeros to
    a block, is combined with the inner and the outer pad. *)
Definition hmacBytes (a : algorithm) (key msg : list Z) : list Z :=
  let B := blockSizeOf a in
  let k0 := if (B <? length key)%nat then hashOf a key else key in
  let k := k0 ++ repeat 0 (B - length k0) in
  let ipad := map (fun b => Z.lxor b 0x36) k in
  let opad := map (fun b => Z.lxor b 0x5c) k in
  hashOf a (opad ++ hashOf a (ipad ++ msg)).

(** The bytes of a string of code units below 256. *)
Definition bytesOfString (s : string) : list byte := list_byte_of_string s.

(** Lower-case hexadecimal text of a buffer: [buf.toString('hex')]. *)
Definition hexDigit (n : Z) : ascii :=
  ascii_of_N (Z.to_N (if n <? 10 then 48 + n else 87 + n)).

Fixpoint hexEncode (bs : list byte) : string :=
  match bs with
  | [] => EmptyString
  | b :: r => String (hexDigit (byteToZ b / 16))
                     (String (hexDigit (byteToZ b mod 16)) (hexEncode r))
  end.

(** [crypto.createHmac(algo, key).update(text).digest('hex')] *)
Definition createHmac_digest_hex (a : algorithm) (key : list byte) (text : string) : string :=
  hexEncode (map byteOfZ (hmacBytes a (map byteToZ key) (map byteToZ (bytesOfString text)))).

(** Upper-case hexadecimal text back to bytes: [Buffer.from(text, 'hex')],
    which an auditor applies to a revealed key.  Decoding stops at the
    first pair that is not hexadecimal. *)
Fixpoint hexDecode (s : string) : list byte :=
  match s with
  | String hi (String lo r) =>
      match digitValue 16 hi, digitValue 16 lo with
      | Some h, Some l => byteOfZ (16 * h + l) :: hexDecode r
      | _, _ => []
      end
  | _ => []
  end.

(** ** The world the program runs in

    [hashes] is what [crypto.getHashes()] returns in this run; [entropy]
    holds the bytes the secure random source will deliver, in order, and
    the source fails when asked for more than remain; [stdin] holds the
    lines the human will type; [stdout] what has been printed. *)

Inductive verdict : Type :=
| YouWin (user computer : jsval)
| ComputerWins (computer user : jsval)
| Tie (user computer : jsval).

Inductive cell : Type :=
| Label (text : string)
| Dash
| Percent (p : Q).

Inductive message : Type :=
| Text (line : string)
| Question (query : string)
| Cancelled
| Help (line : string)
| OutOfRange (max : Z)
| CoinCommitment (hmac : string)
| RollCommitment (intro hmac : string) (numFaces : Z)
| Reveal (computerNumber : Z) (keyHex : string)
| Computed (modulus computerNumber userNumber result : Z)
| PicksFirst (computerFirst : bool)
| ComputerPicks (faces : list Z)
| YouPicked (faces : list Z)
| YourRoll (face : jsval)
| ComputerRoll (face : jsval)
| Verdict (v : verdict)
| TableCaption
| Table (heading : list string) (rows : list (list cell))
| ErrorLine (text : string).

Record World : Type := mkWorld {
  hashes : list string;
  entropy : list byte;
  stdin : list string;
  stdout : list message
}.

Definition setEntropy (w : World) (e : list byte) : World :=
  {| hashes := hashes w; entropy := e; stdin := stdin w; stdout := stdout w |}.

Definition setStdin (w : World) (i : list string) : World :=
  {| hashes := hashes w; entropy := entropy w; stdin := i; stdout := stdout w |}.

Definition setStdout (w : World) (o : list message) : World :=
  {| hashes := hashes w; entropy := entropy w; stdin := stdin w; stdout := o |}.

(** How a computation ends: with a value, with an exception, or waiting
    for a line that never comes (its promise is never resolved). *)
Inductive outcome (A : Type) : Type :=
| Ret (a : A) (w : World)
| Threw (error : string) (w : World)
| Waiting (w : World).
Arguments Ret {A} a w.
Arguments Threw {A} error w.
Arguments Waiting {A} w.

Definition M (A : Type) : Type := World -> outcome A.

Definition ret {A : Type} (a : A) : M A := fun w => Ret a w.

Definition bind {A B : Type} (m : M A) (k : A -> M B) : M B :=
  fun w => match m w with
           | Ret a w' => k a w'
           | Threw e w' => Threw e w'
           | Waiting w' => Waiting w'
           end.

Definition throw {A : Type} (error : string) : M A := fun w => Threw error w.

Notation "x <- m ;; k" := (bind m (fun x => k))
  (at level 61, m at next level, right associativity).
Notation "m ;;; k" := (bind m (fun _ => k))
  (at level 61, right associativity).

(** [console.log] *)
Definition log (m : message) : M unit :=
  fun w => Ret tt (setStdout w (stdout w ++ [m])).

Fixpoint logAll (ms : list message) : M unit :=
  match ms with
  | [] => ret tt
  | m :: r => log m ;;; logAll r
  end.

(** What the world of the final state of an outcome is. *)
Definition worldOf {A : Type} (o : outcome A) : World :=
  match o with
  | Ret _ w => w
  | Threw _ w => w
  | Waiting w => w
  end.

(** ** class SecureRandom *)

Definition entropyError : string := "the secure random source failed".

(** [crypto.randomBytes(n)] *)
Definition randomBytes (n : Z) : M (list byte) :=
  fun w =>
    if (length (entropy w) <? Z.to_nat n)%nat then Threw entropyError w
    else Ret (firstn (Z.to_nat n) (entropy w))
             (setEntropy w (skipn (Z.to_nat n) (entropy w))).

(** [SecureRandom.generateKey()] *)
Definition generateKey : M (list byte) := randomBytes 32.

(** [SecureRandom.computeHMAC(key, number)], given what
    [crypto.getHashes()] returns. *)
Definition chooseAlgorithm (getHashes : list string) : algorithm :=
  if existsb (String.eqb "sha3-256") getHashes then sha3_256 else sha256.

Definition computeHMAC (getHashes : list string) (key : list byte) (number : Z) : string :=
  let algo := chooseAlgorithm getHashes in
  toUpperCase (createHmac_digest_hex algo key (toString number)).

(** ** function secureRandomIndex *)

(** [n.toString(2)] for a BigInt. *)
Fixpoint binaryDigits (p : positive) : string :=
  match p with
  | xH => "1"
  | xO q => binaryDigits q ++ "0"
  | xI q => binaryDigits q ++ "1"
  end.

Definition toStringRadix2 (n : Z) : string :=
  match n with
  | Z0 => "0"
  | Zpos p => binaryDigits p
  | Zneg p => "-" ++ binaryDigits p
  end.

(** The inner [for] loop: the buffer read as a big-endian integer. *)
Definition readBuffer (bytes : Z) (buf : list byte) : Z :=
  for_range bytes
    (fun i value => Z.shiftl value 8 + byteToZ (nth (Z.to_nat i) buf x00)) 0.

(** The [while (true)] loop.  Every turn takes [bytes] bytes off the
    entropy, so [fuel] above the length of the entropy is never used up
    when [bytes] is positive. *)
Fixpoint rejectionLoop (fuel : nat) (range bytes mask : Z) (w : World) : outcome Z :=
  match fuel with
  | O => Threw entropyError w
  | S fuel' =>
      match randomBytes bytes w with
      | Ret buf w1 =>
          let value := readBuffer bytes buf in
          let value := Z.land value mask in
          if value <? range then Ret value w1
          else rejectionLoop fuel' range bytes mask w1
      | Threw e w1 => Threw e w1
      | Waiting w1 => Waiting w1
      end
  end.

(** [secureRandomIndex(max)] for [max] below 2^53, where [max + 1] and
    [Number(value)] are exact; [Binary64.secureRandomIndex] rounds them. *)
Definition secureRandomIndex (max : Z) : M Z :=
  fun w =>
    if max <? 0 then Threw "max must be non-negative" w
    else if max =? 0 then Ret 0 w
    else
      let range := max + 1 in
      let bits := Z.of_nat (String.length (toStringRadix2 range)) in
      let bytes := Qceiling (inject_Z bits / 8) in
      let mask := Z.shiftl 1 bits - 1 in
      rejectionLoop (S (length (entropy w))) range bytes mask w.

(** The sampler in the specification's words: the least width [b] with
    [range < 2^b], [ceil(b / 8)] bytes per draw read as a big-endian
    integer and reduced to its [b] low bits, the first draw below [range]
    being the result. *)
Definition specWidth (range : Z) : Z := Z.log2 range + 1.

Definition specBytes (b : Z) : Z := (b + 7) / 8.

Definition specDraw (b : Z) (buf : list byte) : Z :=
  fromBigEndian (map byteToZ buf) mod 2 ^ b.

(** [Sampled range b tape v rest]: reading [tape] by draws of
    [specBytes b] bytes, every draw before the last is rejected (at or
    above [range]) and the last one is [v], below [range]; [rest] is what
    remains of the tape. *)
Inductive Sampled (range b : Z) : list byte -> Z -> list byte -> Prop :=
| Sampled_accept (buf rest : list byte) :
    Z.of_nat (length buf) = specBytes b ->
    specDraw b buf < range ->
    Sampled range b (buf ++ rest) (specDraw b buf) rest
| Sampled_reject (buf tape : list byte) (v : Z) (rest : list byte) :
    Z.of_nat (length buf) = specBytes b ->
    range <= specDraw b buf ->
    Sampled range b tape v rest ->
    Sampled range b (buf ++ tape) v rest.

(** ** class FairRandomGenerator: the constructor and [getKey] *)

Definition new_FairRandomGenerator (max : Z) : M FairRandomGenerator :=
  key <- generateKey ;;
  computerNumber <- secureRandomIndex max ;;
  fun w => Ret {| max := max; key := key; computerNumber := computerNumber;
                  hmac := computeHMAC (hashes w) key computerNumber |} w.

Definition getKey (g : FairRandomGenerator) : string :=
  toUpperCase (hexEncode (key g)).

Local Open Scope string_scope.

(** ** The console and the line reader *)

Definition showVal (v : jsval) : string :=
  match v with
  | Undefined => "undefined"
  | Null => "null"
  | Num z => toString z
  end.

Definition showFaces (fs : list Z) : string :=
  "[" ++ join "," (map toString fs) ++ "]".

(** [x.toFixed(2)] for a non-negative [x], on the exact value. *)
Definition toFixed2 (x : Q) : string :=
  let n := Qfloor (x * 100 + (1 # 2))%Q in
  let frac := (n mod 100)%Z in
  toString (n / 100)%Z ++ "." ++ (if (frac <? 10)%Z then "0" else EmptyString) ++ toString frac.

Definition newline : string := String (ascii_of_nat 10) EmptyString.

Definition showVerdict (v : verdict) : string :=
  match v with
  | YouWin u c => "You win! (" ++ showVal u ++ " > " ++ showVal c ++ ")"
  | ComputerWins c u => "Computer wins! (" ++ showVal c ++ " > " ++ showVal u ++ ")"
  | Tie u c => "It's a tie! (" ++ showVal u ++ " = " ++ showVal c ++ ")"
  end.

Definition showCell (c : cell) : string :=
  match c with
  | Label t => t
  | Dash => "-"
  | Percent p => toFixed2 p ++ "%"
  end.

(** The text of each message; the table is given by its title, heading and
    rows, as they are handed to the [ascii-table] package. *)
Definition render (m : message) : string :=
  match m with
  | Text line => line
  | Question query => query
  | Cancelled => "Game cancelled."
  | Help line => line
  | OutOfRange max =>
      "Pick a number between 0 and " ++ toString max ++ ", X to exit, or ? for help."
  | CoinCommitment h => "Computer has chosen (hidden). HMAC: " ++ h
  | RollCommitment intro h n =>
      intro ++ " HMAC: " ++ h ++ " (mod " ++ toString n ++ ")"
  | Reveal n k =>
      "Reveal: Computer number = " ++ toString n ++ " (Key: " ++ k ++ ")"
  | Computed m n u r =>
      "Computed result = (computer + user) % " ++ toString m ++ " = ("
        ++ toString n ++ " + " ++ toString u ++ ") % " ++ toString m
        ++ " = " ++ toString r
  | PicksFirst computerFirst =>
      if computerFirst then "Computer picks first!" else "You pick first!"
  | ComputerPicks fs => "Computer picks die: " ++ showFaces fs
  | YouPicked fs => "You picked: " ++ showFaces fs
  | YourRoll v => "Your roll: " ++ showVal v
  | ComputerRoll v => "Computer roll: " ++ showVal v
  | Verdict v => showVerdict v
  | TableCaption => newline ++ "Pairwise win probability table:"
  | Table heading rows =>
      "Win Chances" ++ newline ++ join "|" heading ++ newline
        ++ join newline (map (fun row => join "|" (map showCell row)) rows)
  | ErrorLine t => "Error: " ++ t
  end.

(** The callback of [rl.question], called again on every line that is
    neither the exit token nor a number in range. *)
Fixpoint questionLoop (help : message) (max : Z) (lines : list string)
         (out : list message) : option (option Z) * list string * list message :=
  let out := (out ++ [Question "Your choice: "])%list in
  match lines with
  | [] => (None, [], out)
  | inputRaw :: rest =>
      let input := toUpperCase (trim inputRaw) in
      if String.eqb input "X" then (Some None, rest, (out ++ [Cancelled])%list)
      else if String.eqb input "?" then questionLoop help max rest (out ++ [help])%list
      else
        let num := Number_ input in
        if negb (Number_isInteger num) || (integerValue num <? 0)%Z
           || (max <? integerValue num)%Z
        then questionLoop help max rest (out ++ [OutOfRange max])%list
        else (Some (Some (integerValue num)), rest, out)
  end.

(** [Game.getUserInputStatic(max)]: the number chosen, or [None] for the
    [null] that stands for cancellation. *)
Definition getUserInputWith (help : message) (max : Z) : M (option Z) :=
  fun w =>
    match questionLoop help max (stdin w) (stdout w) with
    | (Some r, rest, out) => Ret r (setStdout (setStdin w rest) out)
    | (None, rest, out) => Waiting (setStdout (setStdin w rest) out)
    end.

Definition exitAndHelp : list message := [Text "X - exit"; Text "? - help"].

(** [showOptions(max)] *)
Definition showOptions (max : Z) : M unit :=
  logAll (map (fun i => Text (toString i ++ " - " ++ toString i)) (indices (max + 1)))
  ;;; logAll exitAndHelp.

(** ** The probability table *)

Definition dieLabel (i : Z) : string := "Die " ++ toString i.

Definition generateProbabilityTable (dice : list Dice) : message :=
  let n := Z.of_nat (length dice) in
  Table (EmptyString :: map dieLabel (indices n))
        (map (fun i =>
                Label (dieLabel i)
                :: map (fun j =>
                          if (i =? j)%Z then Dash
                          else match js_index dice i, js_index dice j with
                               | Some di, Some dj => Percent (winProbability di dj * 100)%Q
                               | _, _ => Dash
                               end)
                       (indices n))
             (indices n)).

(** ** class Game: the state of a match *)

Record Game : Type := mkGame {
  dice : list Dice;
  computerDie : option Dice;
  userDie : option Dice
}.

Definition new_Game (dice : list Dice) : Game :=
  {| dice := dice; computerDie := None; userDie := None |}.

Definition typeError : string :=
  "Cannot read properties of undefined (reading 'faces')".

Definition judge (userRollFace computerRollFace : jsval) : verdict :=
  if js_gt userRollFace computerRollFace then YouWin userRollFace computerRollFace
  else if js_gt computerRollFace userRollFace then ComputerWins computerRollFace userRollFace
  else Tie userRollFace computerRollFace.

(** The end of [run], from ['Your roll: '] on. *)
Definition announce (g : Game) (userRollFace computerRollFace : jsval) : M unit :=
  log (YourRoll userRollFace) ;;;
  log (ComputerRoll computerRollFace) ;;;
  log (Verdict (judge userRollFace computerRollFace)) ;;;
  log TableCaption ;;;
  log (generateProbabilityTable (dice g)).

(** [selectUserDie()], with the line reader of the variant at hand. *)
Definition selectUserDieWith (getUserInput : Z -> M (option Z)) (g : Game) : M Game :=
  log (Text "Pick your die:") ;;;
  logAll (map (fun id => Text (toString (fst id) ++ " - " ++ showFaces (faces (snd id))))
              (combine (indices (Z.of_nat (length (dice g)))) (dice g))) ;;;
  logAll exitAndHelp ;;;
  choice <- getUserInput (Z.of_nat (length (dice g)) - 1) ;;
  match choice with
  | Some c =>
      match js_index (dice g) c with
      | Some d =>
          log (YouPicked (faces d)) ;;;
          ret {| dice := dice g; computerDie := computerDie g; userDie := Some d |}
      | None => throw typeError
      end
  | None => ret g
  end.

(** The assignment to [this.computerDie] and the line that follows it. *)
Definition setComputerDie (g : Game) (index : Z) : M Game :=
  match js_index (dice g) index with
  | Some d =>
      log (ComputerPicks (faces d)) ;;;
      ret {| dice := dice g; computerDie := Some d; userDie := userDie g |}
  | None => throw typeError
  end.

(** ** The commit-reveal game *)

Definition help01 : message := Help "Type 0 or 1 to choose, X to exit.".

(** [Game.getUserInputStatic(max)] and [getUserInput(max)] *)
Definition getUserInputStatic (max : Z) : M (option Z) := getUserInputWith help01 max.

Definition getUserInput (max : Z) : M (option Z) := getUserInputStatic max.

(** [CoinFlip.decideFirstPlayer()] *)
Definition decideFirstPlayer : M (option bool) :=
  log (Text "Let's decide who picks first with a provably fair coin flip.") ;;;
  generator <- new_FairRandomGenerator 1 ;;
  log (CoinCommitment (getHMAC generator)) ;;;
  log (Text "You pick 0 or 1:") ;;;
  logAll [Text "0 - 0"; Text "1 - 1"] ;;;
  logAll exitAndHelp ;;;
  userChoice <- getUserInputStatic 1 ;;
  match userChoice with
  | None => ret None
  | Some u =>
      let result := Z.rem (getComputerNumber generator + u) 2 in
      let computerFirst := (result =? 0)%Z in
      log (Reveal (getComputerNumber generator) (getKey generator)) ;;;
      log (Computed 2 (getComputerNumber generator) u result) ;;;
      log (PicksFirst computerFirst) ;;;
      ret (Some computerFirst)
  end.

Definition selectUserDie (g : Game) : M Game := selectUserDieWith getUserInput g.

Definition pickComputerDie (g : Game) : M Game :=
  index <- secureRandomIndex (Z.of_nat (length (dice g)) - 1) ;;
  setComputerDie g index.

(** The body shared by [computerRoll()] and [userRoll()]: they differ in
    the die rolled and in two lines of text.  The result is [Null] on
    cancellation and the face otherwise. *)
Definition roll (title intro : string) (die : option Dice) : M jsval :=
  match die with
  | None => throw "Cannot read properties of null (reading 'numFaces')"
  | Some d =>
      log (Text (newline ++ title)) ;;;
      generator <- new_FairRandomGenerator (numFaces d - 1) ;;
      log (RollCommitment intro (getHMAC generator) (numFaces d)) ;;;
      log (Text ("Add your number (mod " ++ toString (numFaces d) ++ "):")) ;;;
      showOptions (numFaces d - 1) ;;;
      userNumber <- getUserInput (numFaces d - 1) ;;
      match userNumber with
      | None => ret Null
      | Some u =>
          let result := computeResult generator u in
          log (Reveal (getComputerNumber generator) (getKey generator)) ;;;
          log (Computed (numFaces d) (getComputerNumber generator) u result) ;;;
          ret (getFace d result)
      end
  end.

Definition computerRoll (g : Game) : M jsval :=
  roll "Computer rolling:" "Computer has hidden number." (computerDie g).

Definition userRoll (g : Game) : M jsval :=
  roll "Your rolling:" "Computer (hidden) number for your roll." (userDie g).

(** [run()]; the result is the final state of [this]. *)
Definition run (g : Game) : M Game :=
  computerFirst <- decideFirstPlayer ;;
  match computerFirst with
  | None => ret g
  | Some first =>
      g <- (if first : bool
            then g1 <- pickComputerDie g ;; selectUserDie g1
            else g1 <- selectUserDie g ;; pickComputerDie g1) ;;
      match userDie g, computerDie g with
      | Some _, Some _ =>
          computerRollFace <- computerRoll g ;;
          if js_eq computerRollFace Null then ret g
          else
            userRollFace <- userRoll g ;;
            if js_eq userRollFace Null then ret g
            else announce g userRollFace computerRollFace ;;; ret g
      | _, _ => ret g
      end
  end.

(** [main()] with [process.argv.slice(2)] as [args]. *)
Definition main (args : list string) : M unit :=
  match parseDice args with
  | Throw e => log (ErrorLine e)
  | Ok dice =>
      fun w => match run (new_Game dice) w with
               | Ret _ w' => Ret tt w'
               | Threw e w' => log (ErrorLine e) w'
               | Waiting w' => Waiting w'
               end
  end.

(** ** The variant of [dice.js]

    The classes [Dice] and [ProbabilityCalculator], [showOptions],
    [selectUserDie] and the end of [run] read the same in both files; their
    embeddings above serve both. *)

Module DiceJs.

(** [DiceParser.parseDice(args)], without the test of [parts.length]. *)
Fixpoint parseArgs (args : list string) (dice : list Dice) : result (list Dice) :=
  match args with
  | [] => Ok dice
  | arg :: rest =>
      match mapFaces (split "," arg) with
      | Ok fs => parseArgs rest (dice ++ [new_Dice fs])%list
      | Throw m => Throw m
      end
  end.

Definition parseDice (args : list string) : result (list Dice) :=
  if (length args <? 3)%nat then Throw usageError
  else parseArgs args [].

(** [crypto.randomInt(min, max)] as the host implements it: 48-bit draws,
    those at or above the largest multiple of the range rejected.  The
    host also refuses a range above [RAND_MAX], which the length of no
    array reaches. *)
Definition RAND_MAX : Z := 0xffffffffffff.

(** The message of the host's [ERR_OUT_OF_RANGE] for [max <= min]; its
    text is the host's, not the repository's. *)
Definition quoted (s : string) : string :=
  String (ascii_of_nat 34) (s ++ String (ascii_of_nat 34) EmptyString).

Definition outOfRange (min max : Z) : string :=
  "The value of " ++ quoted "max"
  ++ " is out of range. It must be greater than the value of " ++ quoted "min"
  ++ " (" ++ toString min ++ "). Received " ++ toString max.

Fixpoint randomIntLoop (fuel : nat) (min range randLimit : Z) (w : World) : outcome Z :=
  match fuel with
  | O => Threw entropyError w
  | S fuel' =>
      match randomBytes 6 w with
      | Ret buf w1 =>
          let x := fromBigEndian (map byteToZ buf) in
          if (x <? randLimit)%Z then Ret (x mod range + min) w1
          else randomIntLoop fuel' min range randLimit w1
      | Threw e w1 => Threw e w1
      | Waiting w1 => Waiting w1
      end
  end.

Definition randomInt (min max : Z) : M Z :=
  fun w =>
    if (max <=? min)%Z then Threw (outOfRange min max) w
    else
      let range := max - min in
      let randLimit := RAND_MAX - RAND_MAX mod range in
      randomIntLoop (S (length (entropy w))) min range randLimit w.

Definition helpRange (max : Z) : message :=
  Help ("Type a number from 0 to " ++ toString max ++ ", or X to exit.").

Definition getUserInputStatic (max : Z) : M (option Z) :=
  getUserInputWith (helpRange max) max.

Definition getUserInput (max : Z) : M (option Z) := getUserInputStatic max.

Definition selectUserDie (g : Game) : M Game := selectUserDieWith getUserInput g.

(** [pickRandomDie()] with the assignment that uses it. *)
Definition pickRandomDie (g : Game) : M Game :=
  index <- randomInt 0 (Z.of_nat (length (dice g))) ;;
  setComputerDie g index.

Definition computerRoll (g : Game) : M jsval :=
  match computerDie g with
  | None => throw "Cannot read properties of null (reading 'numFaces')"
  | Some d =>
      rollIndex <- randomInt 0 (numFaces d) ;;
      ret (getFace d rollIndex)
  end.

Definition userRoll (g : Game) : M jsval :=
  match userDie g with
  | None => throw "Cannot read properties of null (reading 'numFaces')"
  | Some d =>
      log (Text (newline ++ "Your rolling:")) ;;;
      showOptions (numFaces d - 1) ;;;
      userIndex <- getUserInput (numFaces d - 1) ;;
      match userIndex with
      | None => ret Null
      | Some u => ret (getFace d u)
      end
  end.

Definition run (g : Game) : M Game :=
  coin <- randomInt 0 2 ;;
  let computerFirst := (coin =? 0)%Z in
  log (PicksFirst computerFirst) ;;;
  g <- (if computerFirst
        then g1 <- pickRandomDie g ;; selectUserDie g1
        else g1 <- selectUserDie g ;; pickRandomDie g1) ;;
  match userDie g, computerDie g with
  | Some _, Some _ =>
      computerRollFace <- computerRoll g ;;
      userRollFace <- userRoll g ;;
      announce g userRollFace computerRollFace ;;; ret g
  | _, _ => ret g
  end.

Definition main (args : list string) : M unit :=
  match parseDice args with
  | Throw e => log (ErrorLine e)
  | Ok dice =>
      fun w => match run (new_Game dice) w with
               | Ret _ w' => Ret tt w'
               | Threw e w' => log (ErrorLine e) w'
               | Waiting w' => Waiting w'
               end
  end.

End DiceJs.

Local Close Scope string_scope.


(** ** Reasoning about runs *)

(** Messages by what they mean for a match. *)
Definition isChatter (m : message) : bool :=
  match m with
  | Text _ | Question _ | Help _ | OutOfRange _ => true
  | _ => false
  end.

Definition isCancelled (m : message) : bool :=
  match m with
  | Cancelled => true
  | _ => false
  end.

(** The lines of the resolution: the two roll values, the verdict and the
    probability report. *)
Definition isAnnouncement (m : message) : bool :=
  match m with
  | YourRoll _ | ComputerRoll _ | Verdict _ | TableCaption | Table _ _ => true
  | _ => false
  end.

(** Neither a cancellation nor a line of the resolution. *)
Definition isQuiet (m : message) : bool :=
  negb (isCancelled m) && negb (isAnnouncement m).

(** [m] run from [w] ends in a state that satisfies [Q] when it returns and
    [X] when it throws or waits. *)
Definition wp {A : Type} (m : M A) (Q : A -> World -> Prop) (X : World -> Prop)
           (w : World) : Prop :=
  match m w with
  | Ret a w' => Q a w'
  | Threw _ w' => X w'
  | Waiting w' => X w'
  end.

(** From [w] to [w'] the hashes of the host are the same and [delta] has
    been printed. *)
Definition grows (w w' : World) (delta : list message) : Prop :=
  hashes w' = hashes w /\ stdout w' = (stdout w ++ delta)%list.



Definition noAnnouncement (l : list message) : bool :=
  forallb (fun m => negb (isAnnouncement m)) l.

Definition noCancellation (l : list message) : bool :=
  forallb (fun m => negb (isCancelled m)) l.

(** From [w] to [w'] only quiet lines were printed. *)
Definition quietly (w w' : World) : Prop :=
  exists delta, grows w w' delta /\ forallb isQuiet delta = true.

(** From [w] to [w'] quiet lines were printed, then the cancellation. *)
Definition cancelling (w w' : World) : Prop :=
  exists delta, grows w w' (delta ++ [Cancelled]) /\ forallb isQuiet delta = true.

(** States of the log of a match: nothing cancelled and nothing announced
    yet; nothing announced; nothing cancelled. *)
Definition Clean (w : World) : Prop := forallb isQuiet (stdout w) = true.

Definition Aborted (w : World) : Prop := noAnnouncement (stdout w) = true.

Definition NotCancelled (w : World) : Prop := noCancellation (stdout w) = true.

(** Whether every token of a specification passes the parser's test. *)
Definition specPasses (arg : string) : bool :=
  forallb passesIntegerTest (split "," arg).


(** The classic set of three dice, and sample worlds. *)
Definition classicDice : list Dice :=
  [new_Dice [2; 2; 4; 4; 9; 9]; new_Dice [1; 1; 6; 6; 8; 8]; new_Dice [3; 3; 5; 5; 7; 7]].

Definition sampleEntropy : list byte :=
  map (fun i => byteOfZ (Z.of_nat (i * 37 + 11))) (seq 0 120).

Definition sampleWorld (lines : list string) : World :=
  {| hashes := ["sha256"; "sha3-256"]%string; entropy := sampleEntropy;
     stdin := lines; stdout := [] |}.






(** The value of an integer literal. *)
Definition digitsValue (s : string) : Z := fst (fst (readDigits 10 s 0 0)).

Definition literalValue (s : string) : Z :=
  match s with
  | String "-" r => - digitsValue r
  | _ => digitsValue s
  end.

Fixpoint allDecimal (s : string) : bool :=
  match s with
  | EmptyString => true
  | String c r => match digitValue 10 c with
                  | Some _ => allDecimal r
                  | None => false
                  end
  end.

(** ** The arithmetic of doubles

    The definitions above take the sums [computerNumber + userNumber] and
    [max + 1], the conversion [Number(value)] and the quotient
    [wins / total] as exact.  Here they are what JavaScript computes: the
    nearest double, a tie going to the even significand. *)

Module Binary64.

(** The double nearest to the rational [n / d], [d] positive. *)
Definition ofRational (n d : Z) : jsnumber :=
  if n =? 0 then Finite 0 0
  else match roundDouble (Z.abs n) d with
       | Some (m, e) => Finite (Z.sgn n * m) e
       | None => Infinite (n <? 0)
       end.

(** The rational that a finite number stands for. *)
Definition valueOf (x : jsnumber) : Q :=
  match x with
  | Finite m e => (inject_Z m * 2 ^ e)%Q
  | _ => 0%Q
  end.

(** [Number.EPSILON], the distance from 1 to the next double. *)
Definition EPSILON : Q := (2 ^ (-52))%Q.

(** The integer that the double nearest to the integer [z] stands for,
    [z] being below 2^1024 in size. *)
Definition nearest (z : Z) : Z := integerValue (ofRational z 1).

(** [a + b] and [a * b] for integer-valued doubles. *)
Definition plus (a b : Z) : Z := nearest (a + b).

Definition times (a b : Z) : Z := nearest (a * b).

(** [x + y] for numbers, a zero being taken without its sign. *)
Definition add (x y : jsnumber) : jsnumber :=
  match x, y with
  | Finite m1 e1, Finite m2 e2 =>
      let e := Z.min e1 e2 in
      let s := m1 * 2 ^ (e1 - e) + m2 * 2 ^ (e2 - e) in
      if 0 <=? e then ofRational (s * 2 ^ e) 1 else ofRational s (2 ^ (- e))
  | NaN, _ | _, NaN => NaN
  | Infinite a, Infinite b => if Bool.eqb a b then Infinite a else NaN
  | Infinite a, _ | _, Infinite a => Infinite a
  end.

(** [computeResult(userNumber)]: both sums are sums of doubles, the
    remainder of two doubles is exact. *)
Definition computeResult (g : FairRandomGenerator) (userNumber : Z) : Z :=
  Z.rem (plus (computerNumber g) userNumber) (plus (max g) 1).

(** [secureRandomIndex(max)]: [max + 1] is a sum of doubles, of which
    [BigInt] takes the integer value, and [Number(value)] rounds. *)
Definition secureRandomIndex (max : Z) : M Z :=
  fun w =>
    if max <? 0 then Threw "max must be non-negative" w
    else if max =? 0 then Ret 0 w
    else
      let range := plus max 1 in
      let bits := Z.of_nat (String.length (toStringRadix2 range)) in
      let bytes := Qceiling (inject_Z bits / 8) in
      let mask := Z.shiftl 1 bits - 1 in
      match rejectionLoop (S (length (entropy w))) range bytes mask w with
      | Ret value w' => Ret (nearest value) w'
      | o => o
      end.

(** [winProbability(die1, die2)]: [total] is a product of doubles, [wins]
    a counter that [++] no longer moves at 2^53, the result the double
    nearest to their quotient. *)
Definition winProbability (die1 die2 : Dice) : jsnumber :=
  let total := times (numFaces die1) (numFaces die2) in
  let wins := Z.min (countWins die1 die2) (2 ^ 53) in
  if 0 <? total then ofRational wins total else Finite 0 0.

(** The tie fraction of the specification in the same arithmetic, for
    dice with one face at least. *)
Definition tieFraction (a b : Dice) : jsnumber :=
  ofRational (countPairs js_eq a b) (times (numFaces a) (numFaces b)).

End Binary64.

(** ** Notions used to state further properties *)

(** The first element of a list that fails a test. *)
Definition firstFailing {A : Type} (test : A -> bool) (l : list A) : option A :=
  find (fun x => negb (test x)) l.

(** The face tokens of all the specifications, in reading order. *)
Definition allTokens (args : list string) : list string :=
  flat_map (split ",") args.

(** A well-formed die: [numFaces] is the number of faces, and there is one
    face at least. *)
Definition wellFormed (d : Dice) : Prop :=
  numFaces d = Z.of_nat (length (faces d)) /\ 1 <= numFaces d.

(** The characters of upper-case hexadecimal text. *)
Definition isUpperHex (c : ascii) : bool :=
  let n := code c in
  ((48 <=? n) && (n <=? 57)) || ((65 <=? n) && (n <=? 70)).

Fixpoint allChars (p : ascii -> bool) (s : string) : bool :=
  match s with
  | EmptyString => true
  | String c r => p c && allChars p r
  end.

(** The buffer of [n] bytes that reads as the big-endian integer [x]. *)
Definition bufferOf (n : nat) (x : Z) : list byte := map byteOfZ (toBigEndian n x).

(** What a call of [getUserInputStatic(max)] that starts in [w] and ends as
    [o] has done: it has read some lines and printed prompts, help and
    range messages only, with ['Game cancelled.'] at the end when it
    returns [null]; a number it returns lies in [[0, max]]; it never
    throws, and waits only when the input is exhausted. *)
Definition answered (max : Z) (w : World) (o : outcome (option Z)) : Prop :=
  exists (chat : list message) (consumed : list string),
    forallb isChatter chat = true
    /\ stdin w = (consumed ++ stdin (worldOf o))%list
    /\ entropy (worldOf o) = entropy w
    /\ hashes (worldOf o) = hashes w
    /\ match o with
       | Ret (Some v) w' =>
           0 <= v <= max /\ stdout w' = (stdout w ++ chat)%list /\ consumed <> []
       | Ret None w' =>
           stdout w' = (stdout w ++ chat ++ [Cancelled])%list /\ consumed <> []
       | Threw _ _ => False
       | Waiting w' => stdout w' = (stdout w ++ chat)%list /\ stdin w' = []
       end.

(** A world with its input and its output replaced. *)
Definition setStdio (w : World) (i : list string) (o : list message) : World :=
  {| hashes := hashes w; entropy := entropy w; stdin := i; stdout := o |}.

Definition onStdio {A : Type} (i : list string) (o : list message) (r : outcome A)
  : outcome A :=
  match r with
  | Ret a w => Ret a (setStdio w i o)
  | Threw e w => Threw e (setStdio w i o)
  | Waiting w => Waiting (setStdio w i o)
  end.

(** [m] run from [w] returns a result that satisfies [Q], or is left
    waiting for input, or fails because the random source has run dry: it
    raises no other exception. *)
Definition sound {A : Type} (m : M A) (Q : A -> World -> Prop) (w : World) : Prop :=
  match m w with
  | Ret a w' => Q a w'
  | Threw e _ => e = entropyError
  | Waiting _ => True
  end.

(** What a call of [selectUserDie()] on the game [g] that starts in [w] and
    ends as [o] has done. *)
Definition selected (g : Game) (w : World) (o : outcome Game) : Prop :=
  entropy (worldOf o) = entropy w
  /\ match o with
     | Ret g' w' =>
         dice g' = dice g /\ computerDie g' = computerDie g
         /\ exists chat, forallb isChatter chat = true
            /\ ((g' = g /\ stdout w' = (stdout w ++ chat ++ [Cancelled])%list)
                \/ exists i d, nth_error (dice g) i = Some d /\ userDie g' = Some d
                               /\ stdout w' = (stdout w ++ chat ++ [YouPicked (faces d)])%list)
     | Threw _ _ => False
     | Waiting w' => stdin w' = []
     end.

(** What the computer's choice of a die has done, [draw] being the call
    that gives the index and [refusal] what is known of the message with
    which that call refuses an empty range. *)
Definition picked (draw : M Z) (refusal : string -> Prop) (g : Game) (w : World)
           (o : outcome Game) : Prop :=
  match o with
  | Ret g' w' =>
      exists i d,
        nth_error (dice g) i = Some d
        /\ g' = {| dice := dice g; computerDie := Some d; userDie := userDie g |}
        /\ draw w = Ret (Z.of_nat i) (setStdout w' (stdout w))
        /\ stdout w' = (stdout w ++ [ComputerPicks (faces d)])%list
  | Threw e w' =>
      stdout w' = stdout w
      /\ ((dice g <> [] /\ e = entropyError) \/ (dice g = [] /\ refusal e /\ w' = w))
  | Waiting _ => False
  end.

(** What [main()] has done when it ends as [o], [parse] and [play] being
    the parser and the match of the file at hand: either the match has
    ended by itself, or one line ['Error: ...'] was added to what was
    printed when the exception was raised, by the parser before anything
    was printed, or by the match, and then because the random source
    failed.  [main] itself raises nothing. *)
Definition reported (parse : list string -> result (list Dice)) (play : Game -> M Game)
           (args : list string) (w : World) (o : outcome unit) : Prop :=
  match o with
  | Ret _ w' =>
      (exists ds g, parse args = Ok ds /\ play (new_Game ds) w = Ret g w')
      \/ exists e w1,
           w' = setStdout w1 (stdout w1 ++ [ErrorLine e])
           /\ ((parse args = Throw e /\ w1 = w)
               \/ exists ds, parse args = Ok ds /\ play (new_Game ds) w = Threw e w1
                             /\ e = entropyError)
  | Threw _ _ => False
  | Waiting w' => exists ds, parse args = Ok ds /\ play (new_Game ds) w = Waiting w'
  end.

(** The lines of the resolution of a match, in the order [run] prints
    them: the two rolls, the verdict on them, and the report on all the
    dice. *)
Definition resolution (ds : list Dice) (u c : jsval) : list message :=
  [YourRoll u; ComputerRoll c; Verdict (judge u c); TableCaption;
   generateProbabilityTable ds].

(** From [w] to [w'] no line of a resolution was printed. *)
Definition unresolved (w w' : World) : Prop :=
  exists delta, grows w w' delta /\ noAnnouncement delta = true.


(** The resolution as [dice.js] comes to it: after quiet lines on a roll
    of the human that is not [null], or right after ['Game cancelled.'] on
    the roll [null]. *)
Definition resolvedAnyway (ds : list Dice) (w w' : World) : Prop :=
  exists q u c,
    grows w w' (q ++ resolution ds u c)
    /\ c <> Null
    /\ ((u <> Null /\ forallb isQuiet q = true)
        \/ (u = Null /\ exists q', q = (q' ++ [Cancelled])%list
                                   /\ forallb isQuiet q' = true)).

(** A key and the worlds of a sample coin flip: the random source holds
    the key and one byte more, whose two low bits are 0. *)
Definition sampleKey : list byte := map (fun i => byteOfZ (Z.of_nat i)) (seq 0 32).

Definition coinFlipWorld : World :=
  {| hashes := []; entropy := (sampleKey ++ [x04])%list; stdin := []; stdout := [] |}.

Definition coinFlipShown : list message :=
  [Text "Let's decide who picks first with a provably fair coin flip.";
   CoinCommitment (computeHMAC [] sampleKey 0); Text "You pick 0 or 1:"; Text "0 - 0";
   Text "1 - 1"; Text "X - exit"; Text "? - help"; Question "Your choice: "].

Definition coinFlipEnd : World :=
  {| hashes := []; entropy := []; stdin := ["x"]%string;
     stdout := (coinFlipShown
                  ++ [Reveal 0 (toUpperCase (hexEncode sampleKey)); Computed 2 0 0 0;
                      PicksFirst true])%list |}.

(* ================================================================== *)
(** * Part II: theorems *)
(* ================================================================== *)

(** ** Loops and index lists *)

Lemma for_range_indices {S : Type} (n : Z) (body : Z -> S -> S) (s : S) :
  for_range n body s = fold_left (fun acc i => body i acc) (indices n) s.
Proof.
  unfold for_range, indices.
  generalize (seq 0 (Z.to_nat n)) s.
  induction l as [|k l IH]; intros s0; simpl; [reflexivity | apply IH].
Qed.

Lemma indices_spec (n i : Z) : In i (indices n) <-> 0 <= i < n.
Proof.
  unfold indices. rewrite in_map_iff. split.
  - intros [k [<- Hk]]. apply in_seq in Hk. lia.
  - intros Hi. exists (Z.to_nat i). split; [lia | apply in_seq; lia].
Qed.

Lemma indices_length (n : Z) : Z.of_nat (length (indices n)) = Z.max 0 n.
Proof. unfold indices. rewrite length_map, length_seq. lia. Qed.

(** Counting with a conditional increment is the length of a filter. *)
Lemma fold_count {A : Type} (p : A -> bool) (l : list A) (w : Z) :
  fold_left (fun acc x => if p x then acc + 1 else acc) l w
  = w + Z.of_nat (length (filter p l)).
Proof.
  revert w. induction l as [|x l IH]; intros w; simpl; [lia|].
  rewrite IH. destruct (p x); simpl; lia.
Qed.

Lemma filter_pair_row {A B : Type} (p : A -> B -> bool) (a : A) (lb : list B) :
  length (filter (fun ab => p (fst ab) (snd ab)) (map (fun y => (a, y)) lb))
  = length (filter (p a) lb).
Proof.
  induction lb as [|b lb IHb]; simpl; [reflexivity|].
  destruct (p a b); simpl; rewrite IHb; reflexivity.
Qed.

Lemma filter_list_prod_length {A B : Type} (p : A -> B -> bool)
      (la : list A) (lb : list B) (k : nat) :
  fold_left (fun acc a => (acc + length (filter (p a) lb))%nat) la k
  = (k + length (filter (fun ab => p (fst ab) (snd ab)) (list_prod la lb)))%nat.
Proof.
  revert k. induction la as [|a la IH]; intros k; simpl; [lia|].
  rewrite IH, filter_app, length_app, filter_pair_row. lia.
Qed.

(** The loops of [winProbability] count the index pairs whose faces
    compare with [>]. *)
Lemma countWins_countPairs (a b : Dice) :
  countWins a b = countPairs js_gt a b.
Proof.
  unfold countWins, countPairs, facePairs.
  rewrite for_range_indices.
  pose proof (filter_list_prod_length
                (fun i j => js_gt (getFace a i) (getFace b j))
                (indices (numFaces a)) (indices (numFaces b)) 0) as E.
  simpl in E. rewrite <- E. clear E.
  change 0 with (Z.of_nat 0) at 1.
  generalize (indices (numFaces a)) as la, 0%nat as k.
  induction la as [|i la IH]; intros k; simpl; [reflexivity|].
  rewrite for_range_indices, fold_count, <- Nat2Z.inj_add. apply IH.
Qed.

Lemma countPairs_bounds (test : jsval -> jsval -> bool) (a b : Dice) :
  0 <= countPairs test a b <= Z.max 0 (numFaces a) * Z.max 0 (numFaces b).
Proof.
  unfold countPairs, facePairs. split; [lia|].
  rewrite <- !indices_length, <- Nat2Z.inj_mul, <- length_prod.
  apply Nat2Z.inj_le, filter_length_le.
Qed.

Lemma inject_Z_pos_nonzero (t : Z) : 0 < t -> ~ (inject_Z t == 0)%Q.
Proof. intros Ht E. unfold Qeq in E. simpl in E. lia. Qed.

Lemma winProbability_unfold (a b : Dice) :
  0 < numFaces a * numFaces b ->
  winProbability a b
  = (inject_Z (countPairs js_gt a b) / inject_Z (numFaces a * numFaces b))%Q.
Proof.
  intros Ht. unfold winProbability.
  apply Z.ltb_lt in Ht. rewrite Ht, countWins_countPairs. reflexivity.
Qed.



(** C10: when one of the dice has no face, so that
    [a.numFaces * b.numFaces] is zero, [winProbability] returns 0; the
    division is never reached. *)
Theorem winProbability_zero_total (a b : Dice) :
  numFaces a * numFaces b = 0 -> winProbability a b = 0%Q.
Proof.
  intros Ht. unfold winProbability. rewrite Ht. reflexivity.
Qed.

Lemma winProbability_zero_total_witness :
  winProbability (new_Dice []) (new_Dice [1; 2; 3]) = 0%Q
  /\ winProbability (new_Dice [1; 2; 3]) (new_Dice []) = 0%Q.
Proof.
  split; apply winProbability_zero_total; reflexivity.
Defined.

(** ** The arithmetic of doubles *)

(** A positive integer below 2^53 is a double: rounding keeps it. *)
Lemma roundDouble_small (v : Z) :
  0 < v < 2 ^ 53 ->
  roundDouble v 1 = Some (v * 2 ^ (52 - Z.log2 v), Z.log2 v - 52).
Proof.
  intros Hv. unfold roundDouble. change (Z.log2 1) with 0. rewrite Z.sub_0_r.
  pose proof (Z.log2_spec v ltac:(lia)) as [Hlo _].
  assert (Hd : 0 <= Z.log2 v <= 52).
  { split; [apply Z.log2_nonneg|].
    assert (Z.log2 v < 53); [|lia]. apply Z.log2_lt_pow2; lia. }
  remember (Z.log2 v) as d eqn:Ed.
  destruct (Z.leb_spec 0 d) as [_|]; [|lia].
  rewrite Z.mul_1_l. destruct (Z.leb_spec (2 ^ d) v) as [_|]; [|lia].
  rewrite Z.max_l by lia.
  destruct (Z.leb_spec 0 (d - 52)) as [H0|H0].
  - replace (d - 52) with 0 by lia. replace (52 - d) with 0 by lia.
    change (2 ^ 0) with 1.
    rewrite !Z.mul_1_r, Z.div_1_r, Z.mod_1_r. simpl (2 * 0 <? 1).
    change (0 <? 1) with true. cbv iota. rewrite <- Ed.
    destruct (Z.leb_spec 1024 (d + 0)); [lia | reflexivity].
  - replace (- (d - 52)) with (52 - d) by ring.
    rewrite Z.div_1_r, Z.mod_1_r. simpl (2 * 0 <? 1).
    change (0 <? 1) with true. cbv iota.
    rewrite Z.log2_mul_pow2 by lia. rewrite <- Ed.
    destruct (Z.leb_spec 1024 (52 - d + d + (d - 52))); [lia | reflexivity].
Qed.

(** Up to 2^53 every integer is a double: sums and products that stay
    there are exact. *)
Lemma nearest_exact (z : Z) :
  0 <= z <= 2 ^ 53 -> Binary64.nearest z = z.
Proof.
  intros Hz. unfold Binary64.nearest, Binary64.ofRational.
  destruct (Z.eqb_spec z 0) as [->|Hne]; [reflexivity|].
  destruct (Z.eq_dec z (2 ^ 53)) as [->|Hlt]; [vm_compute; reflexivity|].
  rewrite Z.abs_eq by lia. rewrite roundDouble_small by lia.
  rewrite Z.sgn_pos by lia. rewrite Z.mul_1_l.
  set (d := Z.log2 z).
  assert (Hd : 0 <= d <= 52).
  { subst d. split; [apply Z.log2_nonneg|].
    assert (Z.log2 z < 53); [|lia]. apply Z.log2_lt_pow2; lia. }
  unfold integerValue. destruct (Z.leb_spec 0 (d - 52)) as [H0|H0].
  - replace (52 - d) with 0 by lia. replace (d - 52) with 0 by lia.
    change (2 ^ 0) with 1. ring.
  - replace (- (d - 52)) with (52 - d) by ring.
    apply Z.div_mul. apply Z.pow_nonzero; lia.
Qed.

Lemma plus_exact (a b : Z) :
  0 <= a + b <= 2 ^ 53 -> Binary64.plus a b = a + b.
Proof. apply nearest_exact. Qed.

(** Rounding a rational of at most 2: the significand [m] is the integer
    nearest to [p / q * 2^k], for a [k] of 51 at least. *)
Lemma roundDouble_near (p q : Z) :
  0 < p -> 0 < q -> p <= 2 * q ->
  exists m k, roundDouble p q = Some (m, - k)
              /\ 51 <= k <= 1074 /\ 0 <= m /\ 2 * Z.abs (m * q - p * 2 ^ k) <= q.
Proof.
  intros Hp Hq Hpq. unfold roundDouble.
  assert (Hd : Z.log2 p - Z.log2 q <= 1).
  { pose proof (Z.log2_le_mono p (2 * q) Hpq) as L.
    rewrite Z.log2_double in L by exact Hq. lia. }
  set (d := Z.log2 p - Z.log2 q) in *.
  set (ge := if 0 <=? d then q * 2 ^ d <=? p else q <=? p * 2 ^ (- d)).
  set (E := if ge then d else d - 1).
  assert (HE : E <= 1) by (subst E; destruct ge; lia).
  set (ex := Z.max (E - 52) (-1074)).
  assert (Hex : -1074 <= ex <= -51) by (subst ex; lia).
  destruct (Z.leb_spec 0 ex) as [|_]; [lia|].
  set (k := - ex). assert (Hk : 51 <= k <= 1074) by (subst k; lia).
  assert (H2 : 0 < 2 ^ k) by (apply Z.pow_pos_nonneg; lia).
  set (N := p * 2 ^ k).
  pose proof (Z.div_mod N q ltac:(lia)) as DM.
  pose proof (Z.mod_pos_bound N q Hq) as MB.
  assert (H0 : 0 <= N / q) by (apply Z.div_pos; subst N; nia).
  assert (Hup : N / q <= 2 * 2 ^ k).
  { apply Z.div_le_upper_bound; [exact Hq|]. subst N. nia. }
  set (m0 := N / q) in *. set (r := N mod q) in *.
  set (m := if 2 * r <? q then m0
            else if q <? 2 * r then m0 + 1
            else if Z.even m0 then m0 else m0 + 1).
  assert (Hm : 0 <= m <= m0 + 1 /\ 2 * Z.abs (m * q - N) <= q).
  { subst m. destruct (Z.ltb_spec (2 * r) q); [split; lia|].
    destruct (Z.ltb_spec q (2 * r)); [split; lia|].
    destruct (Z.even m0); split; lia. }
  destruct Hm as [Hm Herr].
  assert (Hl : Z.log2 m < k + 2).
  { destruct (Z.eq_dec m 0) as [->|Hne]; [simpl; lia|].
    apply Z.log2_lt_pow2; [lia|].
    replace (k + 2) with (2 + k) by ring. rewrite Z.pow_add_r by lia.
    change (2 ^ 2) with 4. lia. }
  destruct (Z.leb_spec 1024 (Z.log2 m + ex)) as [|_]; [subst k; lia|].
  exists m, k. replace (- k) with ex by (subst k; ring).
  split; [reflexivity|]. split; [exact Hk|]. split; [lia | exact Herr].
Qed.

Lemma Qpower_two_nonneg (k : Z) : 0 <= k -> (2 ^ k == inject_Z (2 ^ k))%Q.
Proof. intros Hk. rewrite Zpower_Qpower by exact Hk. reflexivity. Qed.

Lemma Qpower_two_neg (k : Z) : 0 <= k -> (2 ^ (- k) == / inject_Z (2 ^ k))%Q.
Proof. intros Hk. rewrite Qpower_opp, Qpower_two_nonneg by exact Hk. reflexivity. Qed.

Lemma Qabs_fraction_le (a b c : Z) :
  0 < b -> 0 < c -> Z.abs a * c <= b ->
  (Qabs (inject_Z a / inject_Z b) <= / inject_Z c)%Q.
Proof.
  intros Hb Hc H.
  destruct b as [|b|b]; try lia. destruct c as [|c|c]; try lia.
  unfold Qdiv, Qinv, Qmult, inject_Z, Qabs, Qle. cbn [Qnum Qden].
  rewrite Z.mul_1_r, Pos.mul_1_l. lia.
Qed.

Lemma fraction_le_two (s P : Z) :
  0 < P -> (inject_Z s * / inject_Z P <= 2)%Q -> s <= 2 * P.
Proof.
  intros HP. destruct P as [|P|P]; try lia.
  unfold Qinv, Qmult, inject_Z, Qle. cbn [Qnum Qden]. lia.
Qed.

(** The double nearest to a rational of at most 2 is within 2^-52 of it. *)
Lemma ofRational_near (n d : Z) :
  0 <= n -> 0 < d -> n <= 2 * d ->
  exists m e, Binary64.ofRational n d = Finite m e /\ 0 <= m
              /\ (Qabs (Binary64.valueOf (Finite m e) - inject_Z n / inject_Z d)
                  <= / inject_Z (2 ^ 52))%Q.
Proof.
  intros Hn Hd Hnd. unfold Binary64.ofRational.
  destruct (Z.eqb_spec n 0) as [->|Hne].
  - exists 0, 0. split; [reflexivity|]. split; [lia|]. vm_compute. discriminate.
  - rewrite Z.abs_eq by lia.
    destruct (roundDouble_near n d ltac:(lia) Hd Hnd) as [m [k [-> [Hk [Hm Herr]]]]].
    rewrite Z.sgn_pos by lia. rewrite Z.mul_1_l.
    exists m, (- k). split; [reflexivity|]. split; [exact Hm|].
    cbn [Binary64.valueOf]. rewrite Qpower_two_neg by lia.
    assert (H2 : 0 < 2 ^ k) by (apply Z.pow_pos_nonneg; lia).
    assert (H52 : 2 ^ 52 <= 2 * 2 ^ k).
    { change (2 ^ 52) with (2 * 2 ^ 51). apply Z.mul_le_mono_nonneg_l; [lia|].
      apply Z.pow_le_mono_r; lia. }
    set (P := 2 ^ k) in *. set (delta := m * d - n * P) in *.
    assert (E : (inject_Z m * / inject_Z P - inject_Z n / inject_Z d
                 == inject_Z delta / inject_Z (P * d))%Q).
    { subst delta. unfold Z.sub. rewrite inject_Z_plus, inject_Z_opp, !inject_Z_mult.
      field.
      split; intros Z0;
        [apply (inject_Z_pos_nonzero d Hd) | apply (inject_Z_pos_nonzero P H2)];
        exact Z0. }
    rewrite E. set (T := 2 ^ 52) in *.
    apply Qabs_fraction_le; [nia | subst T; reflexivity | nia].
Qed.

Lemma valueOf_scaled (m e e0 : Z) :
  e0 <= e ->
  (Binary64.valueOf (Finite m e) == inject_Z (m * 2 ^ (e - e0)) * 2 ^ e0)%Q.
Proof.
  intros He. cbn [Binary64.valueOf].
  replace e with ((e - e0) + e0) at 1 by ring.
  rewrite Qpower_plus by discriminate.
  rewrite Qpower_two_nonneg by lia. rewrite inject_Z_mult. ring.
Qed.

(** The sum of two doubles that add up to 2 at most is within 2^-52 of
    their exact sum. *)
Lemma add_near (m1 e1 m2 e2 : Z) :
  0 <= m1 -> 0 <= m2 ->
  (Binary64.valueOf (Finite m1 e1) + Binary64.valueOf (Finite m2 e2) <= 2)%Q ->
  exists m e, Binary64.add (Finite m1 e1) (Finite m2 e2) = Finite m e /\ 0 <= m
              /\ (Qabs (Binary64.valueOf (Finite m e)
                        - (Binary64.valueOf (Finite m1 e1)
                           + Binary64.valueOf (Finite m2 e2)))
                  <= / inject_Z (2 ^ 52))%Q.
Proof.
  intros H1 H2 Hs. cbn [Binary64.add]. cbv zeta.
  set (e := Z.min e1 e2).
  set (s := m1 * 2 ^ (e1 - e) + m2 * 2 ^ (e2 - e)).
  assert (Es : (Binary64.valueOf (Finite m1 e1) + Binary64.valueOf (Finite m2 e2)
                == inject_Z s * 2 ^ e)%Q).
  { rewrite (valueOf_scaled m1 e1 e), (valueOf_scaled m2 e2 e) by (subst e; lia).
    subst s. rewrite inject_Z_plus. ring. }
  rewrite Es in Hs.
  assert (H0 : 0 <= s).
  { subst s. apply Z.add_nonneg_nonneg; apply Z.mul_nonneg_nonneg; try assumption;
      apply Z.pow_nonneg; lia. }
  destruct (Z.leb_spec 0 e) as [He|He].
  - rewrite Qpower_two_nonneg in Hs, Es by exact He.
    rewrite <- inject_Z_mult in Hs, Es.
    change 2%Q with (inject_Z 2) in Hs. rewrite <- Zle_Qle in Hs.
    assert (Hp : 0 <= 2 ^ e) by (apply Z.pow_nonneg; lia).
    destruct (ofRational_near (s * 2 ^ e) 1) as [m [ex [R [Hm Hb]]]]; [nia | lia | lia |].
    exists m, ex. split; [exact R|]. split; [exact Hm|].
    rewrite Es. unfold Qdiv in Hb. change (/ inject_Z 1)%Q with 1%Q in Hb.
    rewrite Qmult_1_r in Hb. exact Hb.
  - assert (Ee : e = - (- e)) by ring. rewrite Ee in Hs, Es.
    rewrite Qpower_two_neg in Hs, Es by lia.
    assert (Hp : 0 < 2 ^ (- e)) by (apply Z.pow_pos_nonneg; lia).
    apply fraction_le_two in Hs; [|exact Hp].
    destruct (ofRational_near s (2 ^ (- e))) as [m [ex [R [Hm Hb]]]]; [lia | lia | lia |].
    exists m, ex. split; [exact R|]. split; [exact Hm|]. rewrite Es. exact Hb.
Qed.

(** Three counts that make up [t], each divided by [t] in doubles and the
    quotients added from the left: five roundings, each of 2^-52 at most. *)
Lemma sum_of_three_near (c1 c2 c3 t : Z) :
  0 <= c1 -> 0 <= c2 -> 0 <= c3 -> 0 < t -> c1 + c2 + c3 = t ->
  (Qabs (Binary64.valueOf
           (Binary64.add (Binary64.add (Binary64.ofRational c1 t)
                                       (Binary64.ofRational c2 t))
                         (Binary64.ofRational c3 t)) - 1)
   <= 5 * Binary64.EPSILON)%Q.
Proof.
  intros H1 H2 H3 Ht E.
  destruct (ofRational_near c1 t) as [m1 [e1 [-> [P1 B1]]]]; [lia ..|].
  destruct (ofRational_near c2 t) as [m2 [e2 [-> [P2 B2]]]]; [lia ..|].
  destruct (ofRational_near c3 t) as [m3 [e3 [-> [P3 B3]]]]; [lia ..|].
  assert (S : (inject_Z c1 / inject_Z t + inject_Z c2 / inject_Z t
               + inject_Z c3 / inject_Z t == 1)%Q).
  { pose proof (inject_Z_pos_nonzero t Ht) as Hnz.
    transitivity (inject_Z (c1 + c2 + c3) / inject_Z t)%Q.
    - rewrite !inject_Z_plus. field. exact Hnz.
    - rewrite E. field. exact Hnz. }
  assert (N : forall c, 0 <= c -> (0 <= inject_Z c / inject_Z t)%Q).
  { intros c Hc. apply Qle_shift_div_l.
    - change 0%Q with (inject_Z 0). rewrite <- Zlt_Qlt. exact Ht.
    - rewrite Qmult_0_l. change 0%Q with (inject_Z 0). rewrite <- Zle_Qle. exact Hc. }
  pose proof (N c1 H1) as N1. pose proof (N c2 H2) as N2. pose proof (N c3 H3) as N3.
  clear N.
  set (q1 := (inject_Z c1 / inject_Z t)%Q) in *.
  set (q2 := (inject_Z c2 / inject_Z t)%Q) in *.
  set (q3 := (inject_Z c3 / inject_Z t)%Q) in *.
  assert (Eu : (Binary64.EPSILON == / inject_Z (2 ^ 52))%Q) by reflexivity.
  rewrite Eu.
  remember (/ inject_Z (2 ^ 52))%Q as eps eqn:Ee.
  assert (He : (0 <= eps /\ eps <= 1 # 8)%Q)
    by (subst eps; split; vm_compute; discriminate).
  clearbody q1 q2 q3.
  remember (Binary64.valueOf (Finite m1 e1)) as v1 eqn:V1.
  remember (Binary64.valueOf (Finite m2 e2)) as v2 eqn:V2.
  remember (Binary64.valueOf (Finite m3 e3)) as v3 eqn:V3.
  apply Qabs_Qle_condition in B1, B2, B3.
  assert (A12 : (v1 + v2 <= 2)%Q) by (clear V1 V2 V3 Ee Eu; lra).
  destruct (add_near m1 e1 m2 e2 P1 P2) as [m4 [e4 [-> [P4 B4]]]];
    [rewrite <- V1, <- V2; exact A12|].
  rewrite <- V1, <- V2, <- Ee in B4.
  remember (Binary64.valueOf (Finite m4 e4)) as v4 eqn:V4.
  apply Qabs_Qle_condition in B4.
  assert (A43 : (v4 + v3 <= 2)%Q) by (clear V1 V2 V3 V4 Ee Eu; lra).
  destruct (add_near m4 e4 m3 e3 P4 P3) as [m5 [e5 [-> [P5 B5]]]];
    [rewrite <- V4, <- V3; exact A43|].
  rewrite <- V4, <- V3, <- Ee in B5.
  remember (Binary64.valueOf (Finite m5 e5)) as v5 eqn:V5.
  apply Qabs_Qle_condition in B5.
  apply Qabs_Qle_condition. clear V1 V2 V3 V4 V5 Ee Eu. lra.
Qed.

(** Below 2^53 pairs the counters of [winProbability] are exact: it
    returns the double nearest to the fraction of pairs that [a] wins. *)
Lemma Binary64_winProbability_unfold (a b : Dice) :
  1 <= numFaces a -> 1 <= numFaces b -> numFaces a * numFaces b <= 2 ^ 53 ->
  Binary64.winProbability a b
  = Binary64.ofRational (countPairs js_gt a b) (numFaces a * numFaces b).
Proof.
  intros Ha Hb Ht. unfold Binary64.winProbability, Binary64.times.
  assert (H0 : 0 < numFaces a * numFaces b) by nia.
  rewrite nearest_exact by lia.
  destruct (Z.ltb_spec 0 (numFaces a * numFaces b)) as [_|]; [|lia].
  rewrite countWins_countPairs.
  pose proof (countPairs_bounds js_gt a b) as [_ Hhi].
  rewrite !Z.max_r in Hhi by lia.
  rewrite Z.min_l by lia. reflexivity.
Qed.

(** ** Swapping the two dice in a count *)

Lemma count2_cons_l {A B : Type} (p : A -> B -> bool) a la lb :
  count2 p (a :: la) lb = (length (filter (p a) lb) + count2 p la lb)%nat.
Proof.
  unfold count2. simpl. rewrite filter_app, length_app, filter_pair_row. reflexivity.
Qed.

Lemma count2_cons_r {A B : Type} (p : A -> B -> bool) la b lb :
  count2 p la (b :: lb)
  = (length (filter (fun a => p a b) la) + count2 p la lb)%nat.
Proof.
  induction la as [|a la IH]; [reflexivity|].
  rewrite !count2_cons_l, IH. simpl. destruct (p a b); simpl; lia.
Qed.

Lemma count2_swap {A B : Type} (p : A -> B -> bool) la lb :
  count2 p la lb = count2 (fun b a => p a b) lb la.
Proof.
  induction la as [|a la IH].
  - induction lb as [|b lb IHb]; [reflexivity|].
    rewrite count2_cons_l. simpl. exact IHb.
  - rewrite count2_cons_l, count2_cons_r, IH. reflexivity.
Qed.

(** Three tests of which exactly one holds on every element split a list. *)
Lemma filter_three_way {A : Type} (p q r : A -> bool) (l : list A) :
  (forall x, In x l ->
     (p x = true /\ q x = false /\ r x = false)
     \/ (p x = false /\ q x = true /\ r x = false)
     \/ (p x = false /\ q x = false /\ r x = true)) ->
  (length (filter p l) + length (filter q l) + length (filter r l))%nat = length l.
Proof.
  induction l as [|x l IH]; intros H; [reflexivity|].
  simpl. specialize (IH (fun y Hy => H y (or_intror Hy))).
  destruct (H x (or_introl eq_refl)) as [[-> [-> ->]] | [[-> [-> ->]] | [-> [-> ->]]]];
    simpl; lia.
Qed.

Lemma getFace_new_Dice (fs : list Z) (i : Z) :
  0 <= i < Z.of_nat (length fs) ->
  exists f, nth_error fs (Z.to_nat i) = Some f /\ getFace (new_Dice fs) i = Num f.
Proof.
  intros Hi. unfold getFace, new_Dice, js_index. simpl.
  destruct (Z.eqb_spec (Z.of_nat (length fs)) 0) as [E|_]; [lia|].
  rewrite Z.rem_small by lia.
  destruct (Z.ltb_spec i 0) as [?|_]; [lia|].
  destruct (nth_error fs (Z.to_nat i)) as [f|] eqn:E.
  - exists f. split; reflexivity.
  - apply nth_error_None in E. lia.
Qed.

Lemma countPairs_trichotomy (fa fb : list Z) :
  countPairs js_gt (new_Dice fa) (new_Dice fb)
  + countPairs js_gt (new_Dice fb) (new_Dice fa)
  + countPairs js_eq (new_Dice fa) (new_Dice fb)
  = numFaces (new_Dice fa) * numFaces (new_Dice fb).
Proof.
  set (a := new_Dice fa). set (b := new_Dice fb).
  unfold countPairs at 2. unfold facePairs.
  change (length (filter _ (list_prod (indices (numFaces b)) (indices (numFaces a)))))
    with (count2 (fun j i => js_gt (getFace b j) (getFace a i))
                 (indices (numFaces b)) (indices (numFaces a))).
  rewrite count2_swap. unfold count2, countPairs, facePairs.
  rewrite <- !Nat2Z.inj_add, filter_three_way.
  - rewrite length_prod, Nat2Z.inj_mul, !indices_length.
    subst a b. simpl. lia.
  - intros [i j] Hij. apply in_prod_iff in Hij. destruct Hij as [Hi Hj].
    apply indices_spec in Hi, Hj. subst a b. cbn [fst snd numFaces new_Dice] in *.
    destruct (getFace_new_Dice fa i Hi) as [x [_ ->]].
    destruct (getFace_new_Dice fb j Hj) as [y [_ ->]].
    unfold js_gt, js_eq. simpl.
    destruct (Z.ltb_spec y x), (Z.ltb_spec x y), (Z.eqb_spec x y); try lia; tauto.
Qed.

(** C9 as stated fails: for the faces 1,1,4 against 4,3 the code's
    quotients are the doubles nearest to 1/6, 4/6 and 1/6, and added from
    the left they give [1 - 2^-53], the double just below 1. *)
Lemma winProbability_doubles_fall_short :
  let a := new_Dice [1; 1; 4] in
  let b := new_Dice [4; 3] in
  let sum := Binary64.add (Binary64.add (Binary64.winProbability a b)
                                        (Binary64.winProbability b a))
                          (Binary64.tieFraction a b) in
  1 <= numFaces a /\ 1 <= numFaces b
  /\ sum = Finite (2 ^ 53 - 1) (-53)
  /\ ~ (Binary64.valueOf sum == 1)%Q.
Proof.
  vm_compute. split; [discriminate|]. split; [discriminate|].
  split; [reflexivity | discriminate].
Qed.

(** C9, amended: for two dice built from non-empty face lists every index
    pair is a win of [a], a win of [b] or a tie, so the three counts add up
    to [a.numFaces * b.numFaces] and the three exact fractions to 1.  With
    2^53 pairs at most, what the code returns are the doubles nearest to
    these fractions, and their sum in doubles, taken from the left, is
    within [5 * Number.EPSILON] of 1. *)
Theorem winProbability_complement (fa fb : list Z) :
  let a := new_Dice fa in
  let b := new_Dice fb in
  let total := numFaces a * numFaces b in
  1 <= numFaces a -> 1 <= numFaces b ->
  countPairs js_gt a b + countPairs js_gt b a + countPairs js_eq a b = total
  /\ (winProbability a b + winProbability b a + tieFraction a b == 1)%Q
  /\ (total <= 2 ^ 53 ->
      Binary64.winProbability a b = Binary64.ofRational (countPairs js_gt a b) total
      /\ Binary64.winProbability b a = Binary64.ofRational (countPairs js_gt b a) total
      /\ Binary64.tieFraction a b = Binary64.ofRational (countPairs js_eq a b) total
      /\ (Qabs (Binary64.valueOf
                  (Binary64.add (Binary64.add (Binary64.winProbability a b)
                                              (Binary64.winProbability b a))
                                (Binary64.tieFraction a b)) - 1)
          <= 5 * Binary64.EPSILON)%Q).
Proof.
  intros a b total Ha Hb.
  assert (Ht : 0 < total) by (subst total; nia).
  pose proof (countPairs_trichotomy fa fb) as E. fold a b total in E.
  split; [exact E|]. split.
  - rewrite (winProbability_unfold a b) by exact Ht.
    rewrite (winProbability_unfold b a) by (subst total; lia).
    unfold tieFraction. rewrite (Z.mul_comm (numFaces b) (numFaces a)).
    fold total.
    pose proof (inject_Z_pos_nonzero _ Ht) as Hnz.
    rewrite <- E at 1 2 3. rewrite !inject_Z_plus. rewrite <- E in Hnz.
    rewrite !inject_Z_plus in Hnz.
    field. exact Hnz.
  - intros Hs.
    assert (Wab : Binary64.winProbability a b
                  = Binary64.ofRational (countPairs js_gt a b) total)
      by (apply Binary64_winProbability_unfold; assumption).
    assert (Wba : Binary64.winProbability b a
                  = Binary64.ofRational (countPairs js_gt b a) total).
    { replace total with (numFaces b * numFaces a) by (subst total; ring).
      apply Binary64_winProbability_unfold; [assumption .. |]. subst total. lia. }
    assert (Tab : Binary64.tieFraction a b
                  = Binary64.ofRational (countPairs js_eq a b) total).
    { unfold Binary64.tieFraction, Binary64.times. fold total.
      rewrite nearest_exact by lia. reflexivity. }
    split; [exact Wab|]. split; [exact Wba|]. split; [exact Tab|].
    rewrite Wab, Wba, Tab.
    apply sum_of_three_near; try exact Ht; try exact E;
      apply (countPairs_bounds _ _ _).
Qed.

Lemma winProbability_complement_witness :
  let a := new_Dice [2; 2; 4; 4; 9; 9] in
  let b := new_Dice [3; 3; 5; 5; 7; 7; 9] in
  countPairs js_gt a b + countPairs js_gt b a + countPairs js_eq a b = 42
  /\ (winProbability a b + winProbability b a + tieFraction a b == 1)%Q
  /\ (tieFraction a b == 1 # 21)%Q
  /\ (Qabs (Binary64.valueOf
              (Binary64.add (Binary64.add (Binary64.winProbability a b)
                                          (Binary64.winProbability b a))
                            (Binary64.tieFraction a b)) - 1)
      <= 5 * Binary64.EPSILON)%Q.
Proof.
  intros a b.
  destruct (winProbability_complement [2; 2; 4; 4; 9; 9] [3; 3; 5; 5; 7; 7; 9])
    as [E [S B]]; [simpl; lia | simpl; lia |].
  split; [exact E|]. split; [exact S|]. split; [reflexivity|].
  apply B. vm_compute. discriminate.
Defined.

(** ** The combined result of a round *)

Lemma computeResult_mod (g : FairRandomGenerator) (u : Z) :
  0 <= max g -> 0 <= computerNumber g -> 0 <= u ->
  computeResult g u = (computerNumber g + u) mod (max g + 1).
Proof.
  intros Hm Hc Hu. unfold computeResult. apply Z.rem_mod_nonneg; lia.
Qed.

(** Where no sum exceeds 2^53 the doubles of [computeResult] are the
    integers themselves. *)
Lemma computeResult_exact (g : FairRandomGenerator) (u : Z) :
  0 <= max g <= 2 ^ 52 -> 0 <= computerNumber g <= max g -> 0 <= u <= max g ->
  Binary64.computeResult g u = computeResult g u.
Proof.
  intros Hm Hc Hu. unfold Binary64.computeResult, computeResult.
  assert (E : 2 ^ 53 = 2 * 2 ^ 52) by reflexivity.
  rewrite !plus_exact by lia. reflexivity.
Qed.

(** C1 as stated fails: with [max = 2^52 + 1] and the committed number
    [2^52 + 1], the counterpart's numbers [2^52 - 1] and [2^52] give the
    sums [2^53] and [2^53 + 1]; the second is no double and is rounded to
    [2^53], so both are sent to [2^52 - 2]. *)
Lemma computeResult_collides_above_2_52 :
  let g := {| max := 2 ^ 52 + 1; key := []; computerNumber := 2 ^ 52 + 1;
              hmac := EmptyString |} in
  0 <= computerNumber g <= max g
  /\ 0 <= 2 ^ 52 - 1 <= max g /\ 0 <= 2 ^ 52 <= max g
  /\ Binary64.computeResult g (2 ^ 52 - 1) = 2 ^ 52 - 2
  /\ Binary64.computeResult g (2 ^ 52) = 2 ^ 52 - 2.
Proof.
  vm_compute. repeat split; discriminate.
Qed.

(** C1, amended: with [0 <= max <= 2^52] and the committed number in
    [[0, max]], [computeResult] sends the counterpart's number [u] of
    [[0, max]] to [(committed + u) mod (max + 1)], which lies in
    [[0, max]]; the map is injective there and attains every value of
    [[0, max]]. *)
Theorem computeResult_bijection (g : FairRandomGenerator) :
  0 <= max g <= 2 ^ 52 -> 0 <= computerNumber g <= max g ->
  (forall u, 0 <= u <= max g ->
     Binary64.computeResult g u = (computerNumber g + u) mod (max g + 1)
     /\ 0 <= Binary64.computeResult g u <= max g)
  /\ (forall u v, 0 <= u <= max g -> 0 <= v <= max g ->
        Binary64.computeResult g u = Binary64.computeResult g v -> u = v)
  /\ (forall r, 0 <= r <= max g ->
        exists u, 0 <= u <= max g /\ Binary64.computeResult g u = r).
Proof.
  intros Hm Hc.
  assert (M : forall u, 0 <= u <= max g ->
                Binary64.computeResult g u = (computerNumber g + u) mod (max g + 1)).
  { intros u Hu. rewrite computeResult_exact by lia. apply computeResult_mod; lia. }
  set (n := max g + 1) in *. set (c := computerNumber g) in *.
  split; [|split].
  - intros u Hu. split; [apply M; exact Hu|]. rewrite M by exact Hu.
    pose proof (Z.mod_pos_bound (c + u) n ltac:(lia)). lia.
  - intros u v Hu Hv E. rewrite !M in E by lia.
    assert (D : (u - v) mod n = 0).
    { replace (u - v) with ((c + u) - (c + v)) by ring.
      rewrite Zminus_mod, E, Z.sub_diag. apply Z.mod_0_l. lia. }
    apply Z.mod_divide in D; [|lia]. destruct D as [k Hk].
    assert (k = 0) by nia. lia.
  - intros r Hr. exists ((r - c) mod n).
    pose proof (Z.mod_pos_bound (r - c) n ltac:(lia)) as Hb.
    split; [lia|]. rewrite M by lia.
    rewrite Zplus_mod_idemp_r. replace (c + (r - c)) with r by ring.
    apply Z.mod_small. lia.
Qed.

Lemma computeResult_bijection_witness :
  let g := {| max := 5; key := []; computerNumber := 4; hmac := EmptyString |} in
  map (Binary64.computeResult g) [0; 1; 2; 3; 4; 5] = [4; 5; 0; 1; 2; 3]
  /\ (forall u v, 0 <= u <= 5 -> 0 <= v <= 5 ->
        Binary64.computeResult g u = Binary64.computeResult g v -> u = v).
Proof.
  intros g. split; [vm_compute; reflexivity|].
  destruct (computeResult_bijection g) as [_ [Hinj _]];
    [simpl; lia | simpl; lia |].
  exact Hinj.
Defined.

(** ** Parsing the dice *)

Lemma split_nonempty (sep : ascii) (s : string) : split sep s <> [].
Proof.
  induction s as [|c r IH]; simpl; [discriminate|].
  destruct (Ascii.eqb c sep); [discriminate|].
  destruct (split sep r); [contradiction | discriminate].
Qed.

Lemma mapFaces_Ok (parts : list string) :
  forallb passesIntegerTest parts = true ->
  mapFaces parts = Ok (map (fun numStr => integerValue (Number_ numStr)) parts).
Proof.
  induction parts as [|t parts IH]; simpl; intros H; [reflexivity|].
  apply andb_true_iff in H. destruct H as [Ht Hr].
  unfold passesIntegerTest in Ht. rewrite Ht. simpl. rewrite IH by exact Hr.
  reflexivity.
Qed.

Lemma mapFaces_Throw (parts : list string) :
  forallb passesIntegerTest parts = false ->
  exists numStr, In numStr parts /\ passesIntegerTest numStr = false
                 /\ mapFaces parts = Throw ("Not a number: " ++ numStr)%string.
Proof.
  induction parts as [|t parts IH]; simpl; intros H; [discriminate|].
  destruct (passesIntegerTest t) eqn:Ht; simpl in H.
  - destruct (IH H) as [tok [Hin [Hbad E]]].
    exists tok. split; [right; exact Hin|]. split; [exact Hbad|].
    unfold passesIntegerTest in Ht. rewrite Ht, E. reflexivity.
  - exists t. split; [left; reflexivity|]. split; [exact Ht|].
    unfold passesIntegerTest in Ht. rewrite Ht. reflexivity.
Qed.

Lemma parseArgs_Ok (args : list string) (dice : list Dice) :
  forallb specPasses args = true ->
  parseArgs args dice = Ok (dice ++ map dieOfSpec args).
Proof.
  revert dice. induction args as [|arg args IH]; simpl; intros dice H.
  - rewrite app_nil_r. reflexivity.
  - apply andb_true_iff in H. destruct H as [Ha Hr].
    destruct (Nat.eqb_spec (length (split "," arg)) 0) as [E|_].
    + apply length_zero_iff_nil in E. destruct (split_nonempty _ _ E).
    + rewrite (mapFaces_Ok _ Ha), (IH _ Hr), <- app_assoc. reflexivity.
Qed.

Lemma parseArgs_Throw (args : list string) (dice : list Dice) :
  forallb specPasses args = false ->
  exists arg numStr,
    In arg args /\ In numStr (split "," arg) /\ passesIntegerTest numStr = false
    /\ parseArgs args dice = Throw ("Not a number: " ++ numStr)%string.
Proof.
  revert dice. induction args as [|arg args IH]; simpl; intros dice H; [discriminate|].
  destruct (Nat.eqb_spec (length (split "," arg)) 0) as [E|_].
  { apply length_zero_iff_nil in E. destruct (split_nonempty _ _ E). }
  destruct (specPasses arg) eqn:Ha; simpl in H.
  - destruct (IH (dice ++ [dieOfSpec arg]) H) as [a [t [Hin [Ht [Hbad E]]]]].
    exists a, t. split; [right; exact Hin|]. split; [exact Ht|]. split; [exact Hbad|].
    rewrite (mapFaces_Ok _ Ha). exact E.
  - destruct (mapFaces_Throw _ Ha) as [t [Ht [Hbad E]]].
    exists arg, t. split; [left; reflexivity|]. split; [exact Ht|]. split; [exact Hbad|].
    rewrite E. reflexivity.
Qed.

(** What [parseDice] does, in terms of its own test of a token
    ([Number.isInteger(Number(numStr))]): it throws exactly when there are
    fewer than three specifications or some token fails that test, and
    otherwise returns one die per specification, faces in order. *)
Lemma parseDice_characterised (args : list string) :
  ((exists message, parseDice args = Throw message)
   <-> ((length args < 3)%nat
        \/ exists arg numStr, In arg args /\ In numStr (split "," arg)
                              /\ passesIntegerTest numStr = false))
  /\ ((forall message, parseDice args <> Throw message) ->
      parseDice args = Ok (map dieOfSpec args)).
Proof.
  unfold parseDice.
  destruct (Nat.ltb_spec (length args) 3) as [Hl|Hl].
  - split.
    + split; [intros _; left; exact Hl | intros _; eexists; reflexivity].
    + intros H. destruct (H _ eq_refl).
  - destruct (forallb specPasses args) eqn:Hall.
    + rewrite (parseArgs_Ok _ _ Hall). simpl. split; [|reflexivity].
      split; [intros [m Hm]; discriminate|].
      intros [Hlt | [arg [t [Hin [Ht Hbad]]]]]; [lia|].
      rewrite forallb_forall in Hall. specialize (Hall _ Hin).
      unfold specPasses in Hall. rewrite forallb_forall in Hall.
      rewrite (Hall _ Ht) in Hbad. discriminate.
    + destruct (parseArgs_Throw _ [] Hall) as [arg [t [Hin [Ht [Hbad E]]]]].
      rewrite E. split.
      * split; [intros _; right; exists arg, t; auto | intros _; eexists; reflexivity].
      * intros H. destruct (H _ eq_refl).
Qed.

(** The three inputs of the specification's parsing scenario. *)
Example parseDice_classic :
  parseDice ["2,2,4,4,9,9"; "1,1,6,6,8,8"; "3,3,5,5,7,7"]%string
  = Ok [new_Dice [2; 2; 4; 4; 9; 9]; new_Dice [1; 1; 6; 6; 8; 8];
        new_Dice [3; 3; 5; 5; 7; 7]].
Proof. vm_compute. reflexivity. Qed.

Example parseDice_two_dice :
  parseDice ["1,2"; "3,4"]%string = Throw usageError.
Proof. reflexivity. Qed.

Example parseDice_letter_face :
  parseDice ["1,x,3"; "4,5,6"; "7,8,9"]%string = Throw "Not a number: x".
Proof. vm_compute. reflexivity. Qed.

(** C7, where the program departs from it: an empty face token is not an
    integer, yet [parseDice] takes it for the face 0 instead of raising.
    The empty specification gives a die with the single face 0, and
    ["1,,3"] gives the faces 1, 0, 3, in both variants of the parser. *)
Theorem parseDice_accepts_empty_token :
  (In EmptyString (split "," EmptyString) /\ isIntegerLiteral EmptyString = false
   /\ parseDice [EmptyString; "1,2"; "3,4"]%string
      = Ok [new_Dice [0]; new_Dice [1; 2]; new_Dice [3; 4]])
  /\ (In EmptyString (split "," "1,,3") /\
      parseDice ["1,,3"; "4,5,6"; "7,8,9"]%string
      = Ok [new_Dice [1; 0; 3]; new_Dice [4; 5; 6]; new_Dice [7; 8; 9]])
  /\ DiceJs.parseDice ["1,,3"; "4,5,6"; "7,8,9"]%string
     = Ok [new_Dice [1; 0; 3]; new_Dice [4; 5; 6]; new_Dice [7; 8; 9]].
Proof.
  split; [split; [left; reflexivity | split; [reflexivity | vm_compute; reflexivity]]|].
  split; [split; [right; left; reflexivity | vm_compute; reflexivity]|].
  vm_compute. reflexivity.
Qed.


(** ** Integer literals are parsed to their value *)

Lemma readDigits_allDecimal (s : string) (acc count v n : Z) :
  readDigits 10 s acc count = (v, n, EmptyString) -> allDecimal s = true.
Proof.
  revert acc count. induction s as [|c r IH]; intros acc count; simpl; [reflexivity|].
  destruct (digitValue 10 c); [apply IH | discriminate].
Qed.

Lemma readDigits_bounds (s : string) (acc count : Z) :
  0 <= acc -> 0 <= count ->
  let '(v, n, _) := readDigits 10 s acc count in acc <= v /\ count <= n.
Proof.
  revert acc count. induction s as [|c r IH]; intros acc count Ha Hc; simpl; [lia|].
  destruct (digitValue 10 c) as [d|] eqn:D; [|lia].
  assert (Hd : 0 <= d).
  { unfold digitValue in D.
    destruct ((48 <=? code c) && (code c <=? 57)) eqn:E1.
    - apply andb_true_iff in E1. destruct E1 as [L _]. apply Z.leb_le in L.
      destruct (_ <? 10); inversion D; lia.
    - destruct ((97 <=? code c) && (code c <=? 102)) eqn:E2.
      + destruct (_ <? 10) eqn:E3; [|discriminate].
        apply andb_true_iff in E2. destruct E2 as [L _]. apply Z.leb_le in L.
        apply Z.ltb_lt in E3. lia.
      + destruct ((65 <=? code c) && (code c <=? 70)) eqn:E4.
        * destruct (_ <? 10) eqn:E3; [|discriminate].
          apply andb_true_iff in E4. destruct E4 as [L _]. apply Z.leb_le in L.
          apply Z.ltb_lt in E3. lia.
        * discriminate. }
  specialize (IH (acc * 10 + d) (count + 1) ltac:(nia) ltac:(lia)).
  destruct (readDigits 10 r (acc * 10 + d) (count + 1)) as [[v n] rest]. nia.
Qed.

Lemma decimal_digit_cases (c : ascii) (d : Z) :
  digitValue 10 c = Some d ->
  In c ["0"; "1"; "2"; "3"; "4"; "5"; "6"; "7"; "8"; "9"]%char.
Proof.
  destruct c as [[] [] [] [] [] [] [] []]; vm_compute; intros H; try discriminate;
    tauto.
Qed.

Ltac digit_cases c H :=
  apply decimal_digit_cases in H; simpl in H;
  repeat (destruct H as [H | H]; [subst c|]); [..|contradiction].

Lemma readSign_digit (c : ascii) (r : string) (d : Z) :
  digitValue 10 c = Some d -> readSign (String c r) = (false, String c r).
Proof. intros H. digit_cases c H; reflexivity. Qed.

Lemma not_Infinity_digit (c : ascii) (r : string) (d : Z) :
  digitValue 10 c = Some d -> String.eqb (String c r) "Infinity" = false.
Proof. intros H. digit_cases c H; reflexivity. Qed.

Lemma trimStart_digit (c : ascii) (r : string) (d : Z) :
  digitValue 10 c = Some d -> trimStart (String c r) = String c r.
Proof. intros H. digit_cases c H; reflexivity. Qed.

Lemma trimEnd_allDecimal (s : string) : allDecimal s = true -> trimEnd s = s.
Proof.
  induction s as [|c r IH]; simpl; [reflexivity|].
  destruct (digitValue 10 c) as [d|] eqn:D; [|discriminate].
  intros Hr. rewrite (IH Hr). destruct r as [|c' r']; [|reflexivity].
  digit_cases c D; reflexivity.
Qed.

Lemma trimEnd_cons (c : ascii) (r : string) :
  r <> EmptyString -> trimEnd r = r -> trimEnd (String c r) = String c r.
Proof.
  intros Hr E. destruct r as [|c' r']; [contradiction|].
  change (trimEnd (String c (String c' r')))
    with (match trimEnd (String c' r') with
          | EmptyString => if isWhiteSpace c then EmptyString else String c EmptyString
          | String a b => String c (String a b)
          end).
  rewrite E. reflexivity.
Qed.

Lemma nonDecimalLiteral_allDecimal (s : string) :
  allDecimal s = true -> nonDecimalLiteral s = None.
Proof.
  destruct s as [|c [|p r]]; simpl; [reflexivity | |].
  - destruct (digitValue 10 c) as [d|] eqn:D; [|discriminate].
    intros _. digit_cases c D; reflexivity.
  - destruct (digitValue 10 c) as [d|] eqn:D; [|discriminate].
    destruct (digitValue 10 p) as [e|] eqn:P; [|discriminate].
    intros _. digit_cases c D; try reflexivity.
    digit_cases p P; reflexivity.
Qed.

Lemma decimalToNumber_small (negative : bool) (v : Z) :
  0 <= v < 2 ^ 53 ->
  Number_isInteger (decimalToNumber negative v 0) = true
  /\ integerValue (decimalToNumber negative v 0) = if negative then - v else v.
Proof.
  intros Hv. unfold decimalToNumber.
  destruct (Z.eqb_spec v 0) as [->|Hne].
  - destruct negative; split; reflexivity.
  - change (0 <=? 0) with true. cbv iota. change (10 ^ 0) with 1. rewrite Z.mul_1_r.
    rewrite roundDouble_small by lia.
    set (d := Z.log2 v).
    assert (Hd : 0 <= d <= 52).
    { subst d. split; [apply Z.log2_nonneg|].
      assert (Z.log2 v < 53); [|lia]. apply Z.log2_lt_pow2; lia. }
    set (m := if negative then - (v * 2 ^ (52 - d)) else v * 2 ^ (52 - d)).
    assert (Hm : m = (if negative then - v else v) * 2 ^ (52 - d))
      by (subst m; destruct negative; ring).
    assert (Hp : 0 < 2 ^ (52 - d)) by (apply Z.pow_pos_nonneg; lia).
    unfold Number_isInteger, integerValue.
    replace (- (d - 52)) with (52 - d) by ring.
    destruct (Z.leb_spec 0 (d - 52)) as [H0|H0].
    + split; [reflexivity|]. rewrite Hm.
      replace (52 - d) with 0 by lia. replace (d - 52) with 0 by lia.
      change (2 ^ 0) with 1. ring.
    + rewrite Hm, Z.mod_mul, Z.div_mul by lia. split; reflexivity.
Qed.

Lemma Number_allDecimal (s : string) :
  allDigits s = true -> digitsValue s < 2 ^ 53 ->
  Number_isInteger (Number_ s) = true /\ integerValue (Number_ s) = digitsValue s.
Proof.
  unfold allDigits, digitsValue. intros Ha Hv.
  destruct (readDigits 10 s 0 0) as [[v n] rest] eqn:R.
  destruct rest; [|discriminate]. apply Z.ltb_lt in Ha. simpl in Hv.
  pose proof (readDigits_allDecimal _ _ _ _ _ R) as Hd.
  pose proof (readDigits_bounds s 0 0 ltac:(lia) ltac:(lia)) as B. rewrite R in B.
  destruct s as [|c r]; [simpl in R; inversion R; lia|].
  assert (Hc : exists d, digitValue 10 c = Some d).
  { simpl in Hd. destruct (digitValue 10 c) as [d|]; [eauto | discriminate]. }
  destruct Hc as [d Hc].
  unfold Number_, trim. rewrite (trimStart_digit _ _ _ Hc), (trimEnd_allDecimal _ Hd).
  rewrite (nonDecimalLiteral_allDecimal _ Hd).
  unfold decimalLiteral. rewrite (readSign_digit _ _ _ Hc), (not_Infinity_digit _ _ _ Hc), R.
  cbn [exponentPart]. rewrite Z.add_0_r.
  destruct (Z.ltb_spec 0 n) as [_|]; [|lia].
  replace (0 - 0) with 0 by ring.
  cbn [fst]. apply (decimalToNumber_small false v). lia.
Qed.

Lemma Number_negative_literal (r : string) :
  allDigits r = true -> digitsValue r < 2 ^ 53 ->
  Number_isInteger (Number_ (String "-" r)) = true
  /\ integerValue (Number_ (String "-" r)) = - digitsValue r.
Proof.
  unfold allDigits, digitsValue. intros Ha Hv.
  destruct (readDigits 10 r 0 0) as [[v n] rest] eqn:R.
  destruct rest; [|discriminate]. apply Z.ltb_lt in Ha. simpl in Hv.
  pose proof (readDigits_allDecimal _ _ _ _ _ R) as Hd.
  pose proof (readDigits_bounds r 0 0 ltac:(lia) ltac:(lia)) as B. rewrite R in B.
  destruct r as [|c r']; [simpl in R; inversion R; lia|].
  unfold Number_, trim. cbn [trimStart isWhiteSpace].
  change (isWhiteSpace "-") with false. cbv iota.
  assert (T : trimEnd (String "-" (String c r')) = String "-" (String c r')).
  { apply trimEnd_cons; [discriminate | apply trimEnd_allDecimal; exact Hd]. }
  rewrite T. cbn [nonDecimalLiteral]. unfold decimalLiteral. cbn [readSign].
  assert (Hc : exists d, digitValue 10 c = Some d).
  { simpl in Hd. destruct (digitValue 10 c) as [d|]; [eauto | discriminate]. }
  destruct Hc as [d Hc].
  rewrite (not_Infinity_digit _ _ _ Hc), R.
  cbn [exponentPart]. rewrite Z.add_0_r.
  destruct (Z.ltb_spec 0 n) as [_|]; [|lia].
  replace (0 - 0) with 0 by ring.
  cbn [fst]. apply (decimalToNumber_small true v). lia.
Qed.

(** An integer literal below 2^53 in size passes the parser's test and
    gives its value as the face. *)
Lemma Number_integer_literal (s : string) :
  isIntegerLiteral s = true -> Z.abs (literalValue s) < 2 ^ 53 ->
  passesIntegerTest s = true /\ integerValue (Number_ s) = literalValue s.
Proof.
  unfold passesIntegerTest.
  assert (Hpos : forall t, allDigits t = true -> 0 <= digitsValue t).
  { intros t _. unfold digitsValue.
    pose proof (readDigits_bounds t 0 0 ltac:(lia) ltac:(lia)) as B.
    destruct (readDigits 10 t 0 0) as [[v n] rest]. simpl. lia. }
  destruct s as [|c r]; [discriminate|].
  destruct (Ascii.eqb_spec c "-") as [->|Hc].
  - cbn [isIntegerLiteral literalValue]. intros Ha Hv.
    apply Number_negative_literal; [exact Ha|]. specialize (Hpos _ Ha). lia.
  - intros Ha Hv.
    assert (Ha' : allDigits (String c r) = true).
    { revert Ha. unfold isIntegerLiteral.
      destruct c as [[] [] [] [] [] [] [] []]; try exact (fun H => H).
      contradiction Hc. reflexivity. }
    assert (Hl : literalValue (String c r) = digitsValue (String c r)).
    { unfold literalValue.
      destruct c as [[] [] [] [] [] [] [] []]; try reflexivity.
      contradiction Hc. reflexivity. }
    rewrite Hl in *. apply Number_allDecimal; [exact Ha'|].
    specialize (Hpos _ Ha'). lia.
Qed.

(** X6: with three specifications or more, all of whose tokens are integer
    literals below 2^53 in size, [parseDice] returns the dice with those
    integers as faces, in order. *)
Lemma parseDice_integer_literals (args : list string) :
  (3 <= length args)%nat ->
  (forall arg numStr, In arg args -> In numStr (split "," arg) ->
     isIntegerLiteral numStr = true /\ Z.abs (literalValue numStr) < 2 ^ 53) ->
  parseDice args
  = Ok (map (fun arg => new_Dice (map literalValue (split "," arg))) args).
Proof.
  intros Hl Hlit.
  destruct (parseDice_characterised args) as [[Hthrow _] Hok].
  rewrite Hok.
  - f_equal. apply map_ext_in. intros arg Hin. unfold dieOfSpec. f_equal.
    apply map_ext_in. intros t Ht.
    destruct (Hlit _ _ Hin Ht) as [Hi Hv].
    apply (Number_integer_literal t Hi Hv).
  - intros m E.
    destruct (Hthrow (ex_intro _ m E)) as [Hlt | [arg [t [Hin [Ht Hbad]]]]].
    + lia.
    + destruct (Hlit _ _ Hin Ht) as [Hi Hv].
      destruct (Number_integer_literal t Hi Hv) as [Hp _]. congruence.
Qed.

Lemma parseDice_integer_literals_witness :
  parseDice ["-3,0,12"; "7"; "1,2"]%string
  = Ok [new_Dice [-3; 0; 12]; new_Dice [7]; new_Dice [1; 2]].
Proof.
  apply (parseDice_integer_literals ["-3,0,12"; "7"; "1,2"]%string).
  - simpl. lia.
  - intros arg numStr Ha Hn.
    destruct Ha as [<- | [<- | [<- | []]]]; cbn in Hn;
      repeat (destruct Hn as [<- | Hn]; [split; [reflexivity | vm_compute; reflexivity]|]);
      destruct Hn.
Defined.

(** The parser of [dice.js] is the same function. *)
Lemma DiceJs_parseDice_same (args : list string) :
  DiceJs.parseDice args = parseDice args.
Proof.
  unfold DiceJs.parseDice, parseDice. destruct (length args <? 3)%nat; [reflexivity|].
  generalize (@nil Dice) as dice.
  induction args as [|arg args IH]; intros dice; simpl; [reflexivity|].
  destruct (Nat.eqb_spec (length (split "," arg)) 0) as [E|_].
  - apply length_zero_iff_nil in E. destruct (split_nonempty _ _ E).
  - destruct (mapFaces (split "," arg)); [apply IH | reflexivity].
Qed.

(** ** The unbiased sampler *)

Lemma string_length_append (a b : string) :
  String.length (a ++ b) = (String.length a + String.length b)%nat.
Proof. induction a as [|c a IH]; simpl; [reflexivity | rewrite IH; reflexivity]. Qed.

Lemma binaryDigits_length (p : positive) :
  Z.of_nat (String.length (binaryDigits p)) = Z.log2 (Zpos p) + 1.
Proof.
  assert (G : forall q, String.length (binaryDigits q) = Pos.size_nat q).
  { induction q as [q IH|q IH|]; simpl; [| |reflexivity];
      rewrite string_length_append, IH; simpl; lia. }
  rewrite G. clear G.
  assert (S : forall q, Z.of_nat (Pos.size_nat q) = Zpos (Pos.size q)).
  { induction q as [q IH|q IH|]; simpl Pos.size_nat; simpl Pos.size;
      [| |reflexivity]; rewrite Nat2Z.inj_succ, IH; lia. }
  rewrite S. destruct p; simpl; lia.
Qed.

(** The width the program computes, the length of [range.toString(2)], is
    [specWidth range]. *)
Lemma bits_specWidth (range : Z) :
  0 < range ->
  Z.of_nat (String.length (toStringRadix2 range)) = specWidth range.
Proof.
  intros H. destruct range as [|p|p]; try lia.
  apply binaryDigits_length.
Qed.

Lemma specWidth_minimal (range : Z) :
  0 < range ->
  2 ^ (specWidth range - 1) <= range < 2 ^ specWidth range.
Proof.
  intros H. unfold specWidth. pose proof (Z.log2_spec range H) as L.
  replace (Z.log2 range + 1 - 1) with (Z.log2 range) by ring.
  unfold Z.succ in L. exact L.
Qed.

Lemma ceil_div8 (bits : Z) : Qceiling (inject_Z bits / 8) = specBytes bits.
Proof.
  unfold specBytes, Qceiling, Qfloor, Qdiv, Qmult, Qinv, Qopp, inject_Z. simpl.
  rewrite Z.mul_1_r.
  pose proof (Z.div_mod (- bits) 8 ltac:(lia)).
  pose proof (Z.mod_pos_bound (- bits) 8 ltac:(lia)).
  pose proof (Z.div_mod (bits + 7) 8 ltac:(lia)).
  pose proof (Z.mod_pos_bound (bits + 7) 8 ltac:(lia)).
  lia.
Qed.

Lemma fold_left_nth {A B : Type} (f : B -> A -> B) (d : A) (pre l : list A) (b : B) :
  fold_left (fun acc i => f acc (nth i (pre ++ l) d)) (seq (length pre) (length l)) b
  = fold_left f l b.
Proof.
  revert pre b. induction l as [|x l IH]; intros pre b; simpl; [reflexivity|].
  rewrite nth_middle.
  specialize (IH (pre ++ [x]) (f b x)).
  rewrite <- app_assoc, length_app in IH. simpl in IH.
  rewrite Nat.add_1_r in IH. exact IH.
Qed.

Lemma fold_left_over_map {A B C : Type} (f : C -> B -> C) (g : A -> B) (l : list A) (c : C) :
  fold_left f (map g l) c = fold_left (fun acc x => f acc (g x)) l c.
Proof. revert c. induction l as [|x l IH]; intros c; simpl; [reflexivity | apply IH]. Qed.

Lemma fold_left_pointwise {A B : Type} (f g : B -> A -> B) (l : list A) (b : B) :
  (forall acc x, f acc x = g acc x) -> fold_left f l b = fold_left g l b.
Proof.
  intros H. revert b. induction l as [|x l IH]; intros b; simpl; [reflexivity|].
  rewrite H. apply IH.
Qed.

(** The byte loop reads the buffer as a big-endian integer. *)
Lemma readBuffer_bigEndian (bytes : Z) (buf : list byte) :
  Z.of_nat (length buf) = bytes ->
  readBuffer bytes buf = fromBigEndian (map byteToZ buf).
Proof.
  intros <-. unfold readBuffer, for_range, fromBigEndian.
  rewrite Nat2Z.id.
  pose proof (fold_left_nth (fun acc b => acc * 256 + byteToZ b) x00 [] buf 0) as E.
  simpl in E. rewrite fold_left_over_map, <- E.
  apply fold_left_pointwise. intros acc i.
  rewrite Nat2Z.id, Z.shiftl_mul_pow2 by lia. reflexivity.
Qed.

Lemma mask_mod (value b : Z) :
  0 <= b -> Z.land value (Z.shiftl 1 b - 1) = value mod 2 ^ b.
Proof.
  intros Hb. rewrite <- Z.land_ones by exact Hb. reflexivity.
Qed.

Lemma setEntropy_entropy (w : World) (e : list byte) : entropy (setEntropy w e) = e.
Proof. reflexivity. Qed.

Lemma setEntropy_twice (w : World) (e1 e2 : list byte) :
  setEntropy (setEntropy w e1) e2 = setEntropy w e2.
Proof. reflexivity. Qed.

Lemma setEntropy_same (w : World) : setEntropy w (entropy w) = w.
Proof. destruct w; reflexivity. Qed.

Lemma randomBytes_Ret (n : Z) (w : World) (buf : list byte) (w' : World) :
  0 <= n ->
  randomBytes n w = Ret buf w' ->
  Z.of_nat (length buf) = n /\ entropy w = (buf ++ entropy w')%list
  /\ w' = setEntropy w (entropy w').
Proof.
  intros Hn. unfold randomBytes.
  destruct (Nat.ltb_spec (length (entropy w)) (Z.to_nat n)) as [|Hl]; [discriminate|].
  intros E. injection E as <- <-. simpl.
  rewrite length_firstn, firstn_skipn. repeat split; lia.
Qed.

Lemma randomBytes_app (w : World) (buf rest : list byte) :
  entropy w = (buf ++ rest)%list ->
  randomBytes (Z.of_nat (length buf)) w = Ret buf (setEntropy w rest).
Proof.
  intros E. unfold randomBytes. rewrite Nat2Z.id, E.
  destruct (Nat.ltb_spec (length (buf ++ rest)) (length buf)) as [Hl|_].
  - rewrite length_app in Hl. lia.
  - rewrite firstn_app, Nat.sub_diag, firstn_all, skipn_app, Nat.sub_diag, skipn_all.
    simpl. rewrite app_nil_r. reflexivity.
Qed.

Lemma Sampled_range (range b : Z) tape v rest :
  Sampled range b tape v rest -> 0 <= b -> 0 <= v < range.
Proof.
  induction 1 as [buf rest Hl Hv | buf tape v rest Hl Hv HS IH]; intros Hb.
  - split; [|exact Hv]. unfold specDraw. apply Z.mod_pos_bound. lia.
  - apply IH. exact Hb.
Qed.

Section Loop.

Variables (range b : Z).
Hypothesis b_pos : 0 < b.

Let bytes := specBytes b.
Let mask := Z.shiftl 1 b - 1.

Lemma bytes_pos : 0 < bytes.
Proof.
  subst bytes. unfold specBytes.
  pose proof (Z.div_mod (b + 7) 8 ltac:(lia)).
  pose proof (Z.mod_pos_bound (b + 7) 8 ltac:(lia)). lia.
Qed.

Lemma draw_value (buf : list byte) :
  Z.of_nat (length buf) = bytes ->
  Z.land (readBuffer bytes buf) mask = specDraw b buf.
Proof.
  intros Hl. subst mask. rewrite mask_mod by lia.
  rewrite readBuffer_bigEndian by exact Hl. reflexivity.
Qed.

(** Whatever the loop returns was sampled from the tape. *)
Lemma rejectionLoop_sound (fuel : nat) (w : World) (v : Z) (w' : World) :
  rejectionLoop fuel range bytes mask w = Ret v w' ->
  Sampled range b (entropy w) v (entropy w') /\ w' = setEntropy w (entropy w').
Proof.
  revert w. induction fuel as [|fuel IH]; intros w; simpl; [discriminate|].
  destruct (randomBytes bytes w) as [buf w1|e w1|w1] eqn:R; try discriminate.
  pose proof bytes_pos as Hp.
  apply randomBytes_Ret in R; [|lia]. destruct R as [Hl [Ht Hw]].
  rewrite draw_value by exact Hl.
  destruct (Z.ltb_spec (specDraw b buf) range) as [Hv|Hv].
  - intros E. injection E as <- <-. rewrite Ht. split; [|exact Hw].
    apply Sampled_accept; assumption.
  - intros E. destruct (IH _ E) as [HS Hw'].
    rewrite Ht. split.
    + apply Sampled_reject; assumption.
    + rewrite Hw', Hw. reflexivity.
Qed.

(** Whatever can be sampled from the tape, the loop returns. *)
Lemma rejectionLoop_complete tape v rest :
  Sampled range b tape v rest ->
  forall (fuel : nat) (w : World),
    entropy w = tape -> (length tape < fuel)%nat ->
    rejectionLoop fuel range bytes mask w = Ret v (setEntropy w rest).
Proof.
  pose proof bytes_pos as Hp.
  induction 1 as [buf rest Hl Hv | buf tape v rest Hl Hv HS IH];
    intros fuel w Hw Hf; (destruct fuel as [|fuel]; [lia|]); simpl.
  - fold bytes in Hl. rewrite <- Hl, (randomBytes_app w buf rest Hw), Hl.
    rewrite draw_value by exact Hl.
    apply Z.ltb_lt in Hv. rewrite Hv. reflexivity.
  - fold bytes in Hl. rewrite <- Hl, (randomBytes_app w buf tape Hw), Hl.
    rewrite draw_value by exact Hl.
    apply Z.ltb_ge in Hv. rewrite Hv.
    rewrite (IH fuel (setEntropy w tape)); [reflexivity | reflexivity |].
    rewrite length_app in Hf. lia.
Qed.

End Loop.

Lemma secureRandomIndex_unfold (max : Z) (w : World) :
  0 < max ->
  secureRandomIndex max w
  = rejectionLoop (S (length (entropy w))) (max + 1)
                  (specBytes (specWidth (max + 1)))
                  (Z.shiftl 1 (specWidth (max + 1)) - 1) w.
Proof.
  intros Hm. unfold secureRandomIndex.
  destruct (Z.ltb_spec max 0); [lia|].
  destruct (Z.eqb_spec max 0); [lia|].
  rewrite bits_specWidth by lia. rewrite ceil_div8. reflexivity.
Qed.

Lemma specWidth_pos (range : Z) : 0 < specWidth range.
Proof. unfold specWidth. pose proof (Z.log2_nonneg range). lia. Qed.

(** For [max > 0] the sampler returns [v] exactly when [v] is the first
    accepted draw from the entropy. *)
Lemma secureRandomIndex_Sampled (max : Z) (w : World) (v : Z) (w' : World) :
  0 < max ->
  secureRandomIndex max w = Ret v w'
  <-> (Sampled (max + 1) (specWidth (max + 1)) (entropy w) v (entropy w')
       /\ w' = setEntropy w (entropy w')).
Proof.
  intros Hm. rewrite secureRandomIndex_unfold by exact Hm. split.
  - apply rejectionLoop_sound. apply specWidth_pos.
  - intros [HS Hw]. rewrite Hw.
    apply (rejectionLoop_complete _ _ (specWidth_pos _) _ _ _ HS);
      [reflexivity | lia].
Qed.

Lemma secureRandomIndex_range (max : Z) (w : World) (v : Z) (w' : World) :
  secureRandomIndex max w = Ret v w' -> 0 <= v <= max.
Proof.
  intros E. destruct (Z.ltb_spec max 0) as [Hneg|Hpos].
  - unfold secureRandomIndex in E. apply Z.ltb_lt in Hneg.
    rewrite Hneg in E. discriminate.
  - destruct (Z.eq_dec max 0) as [->|Hne].
    + cbv in E. injection E as <- _. lia.
    + apply secureRandomIndex_Sampled in E; [|lia]. destruct E as [HS _].
      apply Sampled_range in HS; [lia|]. pose proof (specWidth_pos (max + 1)). lia.
Qed.

(** Below 2^53 neither [max + 1] nor [Number(value)] is rounded. *)
Lemma secureRandomIndex_exact (max : Z) (w : World) :
  max < 2 ^ 53 -> Binary64.secureRandomIndex max w = secureRandomIndex max w.
Proof.
  intros Hm.
  assert (R : forall v w', secureRandomIndex max w = Ret v w' -> 0 <= v <= max)
    by (intros v w'; apply secureRandomIndex_range).
  revert R. unfold Binary64.secureRandomIndex, secureRandomIndex.
  destruct (Z.ltb_spec max 0) as [|H0]; [reflexivity|].
  destruct (Z.eqb_spec max 0) as [|H1]; [reflexivity|].
  cbv zeta. rewrite plus_exact by lia.
  destruct (rejectionLoop _ _ _ _ w) as [v w'|e w'|w']; intros R; try reflexivity.
  rewrite nearest_exact; [reflexivity|]. specialize (R v w' eq_refl). lia.
Qed.

(** C3 as stated fails: for [max = 2^53 + 2] the sum [max + 1] is rounded
    to [2^53 + 4]; the draw [2^53 + 3] is below that range, is accepted,
    and [Number] rounds it to [2^53 + 4], which is above [max]. *)
Lemma secureRandomIndex_exceeds_max :
  let max := 2 ^ 53 + 2 in
  let w := {| hashes := []; entropy := [x20; x00; x00; x00; x00; x00; x03];
              stdin := []; stdout := [] |} in
  Binary64.secureRandomIndex max w = Ret (2 ^ 53 + 4) (setEntropy w [])
  /\ ~ (0 <= 2 ^ 53 + 4 <= max).
Proof.
  split; [vm_compute; reflexivity|]. cbv zeta. lia.
Qed.

(** C3, amended: for [0 <= max < 2^53], [secureRandomIndex max] returns 0
    and leaves the world as it is when [max = 0]; for [max > 0], with
    [range = max + 1] and [b] the least width with [range < 2^b], it
    returns [v] exactly when reading the entropy by draws of [ceil(b / 8)]
    bytes, each taken as a big-endian integer and reduced to [b] bits, [v]
    is the first draw below [range], and nothing but the entropy read has
    changed; every value returned lies in [[0, max]]. *)
Theorem secureRandomIndex_spec (max : Z) (w : World) :
  0 <= max < 2 ^ 53 ->
  (max = 0 -> Binary64.secureRandomIndex max w = Ret 0 w)
  /\ (0 < max ->
      let range := max + 1 in
      let b := specWidth range in
      2 ^ (b - 1) <= range < 2 ^ b
      /\ specBytes b = Qceiling (inject_Z b / 8)
      /\ forall v w',
           Binary64.secureRandomIndex max w = Ret v w'
           <-> (Sampled range b (entropy w) v (entropy w')
                /\ w' = setEntropy w (entropy w')))
  /\ (forall v w', Binary64.secureRandomIndex max w = Ret v w' -> 0 <= v <= max).
Proof.
  intros Hmax. rewrite secureRandomIndex_exact by lia. split; [|split].
  - intros ->. reflexivity.
  - intros Hm range b. split; [apply specWidth_minimal; subst range; lia|].
    split; [symmetry; apply ceil_div8|].
    intros v w'. apply secureRandomIndex_Sampled. exact Hm.
  - intros v w'. apply secureRandomIndex_range.
Qed.

Lemma secureRandomIndex_spec_witness :
  let w := {| hashes := []; entropy := [xff; x07; x03]; stdin := []; stdout := [] |} in
  Binary64.secureRandomIndex 0 w = Ret 0 w
  /\ (forall v w', Binary64.secureRandomIndex 5 w = Ret v w' -> 0 <= v <= 5).
Proof.
  intros w. split.
  - destruct (secureRandomIndex_spec 0 w) as [H0 _]; [lia|]. apply H0. reflexivity.
  - destruct (secureRandomIndex_spec 5 w) as [_ [_ H5]]; [lia|]. exact H5.
Defined.

(** Two draws rejected (7 is not below 6), the third one accepted. *)
Example secureRandomIndex_rejects_then_accepts :
  let w := {| hashes := []; entropy := [xff; x07; x03; x55]; stdin := []; stdout := [] |} in
  secureRandomIndex 5 w = Ret 3 (setEntropy w [x55]).
Proof. vm_compute. reflexivity. Qed.

(** For every [max] the all-zero draw is accepted: sampling can return. *)
Lemma secureRandomIndex_returns (max : Z) (w : World) (rest : list byte) :
  0 < max ->
  entropy w = (repeat x00 (Z.to_nat (specBytes (specWidth (max + 1)))) ++ rest)%list ->
  secureRandomIndex max w = Ret 0 (setEntropy w rest).
Proof.
  intros Hm Ht.
  apply secureRandomIndex_Sampled; [exact Hm|].
  rewrite setEntropy_entropy. split; [|reflexivity]. rewrite Ht.
  set (b := specWidth (max + 1)).
  set (zeros := repeat x00 (Z.to_nat (specBytes b))).
  assert (Hb : 0 < b) by apply specWidth_pos.
  assert (Hn : 0 <= specBytes b).
  { unfold specBytes. apply Z.div_pos; lia. }
  assert (Hz : specDraw b zeros = 0).
  { unfold specDraw, zeros, fromBigEndian.
    generalize (Z.to_nat (specBytes b)) as n. intros n.
    assert (G : fold_left (fun acc x => acc * 256 + x) (map byteToZ (repeat x00 n)) 0 = 0).
    { induction n as [|n IH]; simpl; [reflexivity | exact IH]. }
    rewrite G. apply Z.mod_0_l. apply Z.pow_nonzero; lia. }
  rewrite <- Hz. apply Sampled_accept.
  - unfold zeros. rewrite repeat_length. lia.
  - rewrite Hz. lia.
Qed.


(** ** The commitment *)

Lemma hex_pair_roundtrip (b : byte) :
  digitValue 16 (toUpperChar (hexDigit (byteToZ b / 16))) = Some (byteToZ b / 16)
  /\ digitValue 16 (toUpperChar (hexDigit (byteToZ b mod 16))) = Some (byteToZ b mod 16)
  /\ byteOfZ (16 * (byteToZ b / 16) + byteToZ b mod 16) = b.
Proof. destruct b; vm_compute; repeat split. Qed.

(** Decoding the upper-case hexadecimal text of a buffer gives the buffer
    back: a revealed key names the key that was used. *)
Lemma hexDecode_getKey (bs : list byte) :
  hexDecode (toUpperCase (hexEncode bs)) = bs.
Proof.
  induction bs as [|b bs IH]; [reflexivity|].
  destruct (hex_pair_roundtrip b) as [Hh [Hl Hb]].
  cbn [hexEncode toUpperCase hexDecode].
  rewrite Hh, Hl, Hb, IH. reflexivity.
Qed.

Lemma includes_In (s : string) (l : list string) :
  existsb (String.eqb s) l = true <-> In s l.
Proof.
  rewrite existsb_exists. split.
  - intros [x [Hin E]]. apply String.eqb_eq in E. subst x. exact Hin.
  - intros Hin. exists s. split; [exact Hin | apply String.eqb_refl].
Qed.

Lemma chooseAlgorithm_spec (getHashes : list string) :
  (In "sha3-256"%string getHashes /\ chooseAlgorithm getHashes = sha3_256)
  \/ (~ In "sha3-256"%string getHashes /\ chooseAlgorithm getHashes = sha256).
Proof.
  unfold chooseAlgorithm.
  destruct (existsb (String.eqb "sha3-256") getHashes) eqn:E.
  - left. split; [apply includes_In; exact E | reflexivity].
  - right. split; [|reflexivity]. intros Hin. apply includes_In in Hin. congruence.
Qed.

Lemma rejectionLoop_frame (fuel : nat) (range bytes mask : Z) (w : World) :
  hashes (worldOf (rejectionLoop fuel range bytes mask w)) = hashes w
  /\ stdin (worldOf (rejectionLoop fuel range bytes mask w)) = stdin w
  /\ stdout (worldOf (rejectionLoop fuel range bytes mask w)) = stdout w.
Proof.
  revert w. induction fuel as [|fuel IH]; intros w; simpl; [repeat split|].
  unfold randomBytes.
  destruct (length (entropy w) <? Z.to_nat bytes)%nat; [repeat split|].
  match goal with |- context [if ?c then _ else _] => destruct c end;
    [repeat split|].
  apply (IH (setEntropy w (skipn (Z.to_nat bytes) (entropy w)))).
Qed.

Lemma secureRandomIndex_frame (max : Z) (w : World) :
  hashes (worldOf (secureRandomIndex max w)) = hashes w
  /\ stdin (worldOf (secureRandomIndex max w)) = stdin w
  /\ stdout (worldOf (secureRandomIndex max w)) = stdout w.
Proof.
  unfold secureRandomIndex.
  destruct (max <? 0); [repeat split|].
  destruct (max =? 0); [repeat split|].
  apply rejectionLoop_frame.
Qed.

(** What the constructor of [FairRandomGenerator] leaves behind. *)
Lemma new_FairRandomGenerator_Ret (m : Z) (w : World) (g : FairRandomGenerator) (w' : World) :
  new_FairRandomGenerator m w = Ret g w' ->
  max g = m
  /\ length (key g) = 32%nat
  /\ (exists tape, entropy w = (key g ++ tape)%list
                   /\ secureRandomIndex m (setEntropy w tape) = Ret (computerNumber g) w')
  /\ hmac g = computeHMAC (hashes w) (key g) (computerNumber g)
  /\ hashes w' = hashes w /\ stdin w' = stdin w /\ stdout w' = stdout w.
Proof.
  unfold new_FairRandomGenerator, bind, generateKey.
  destruct (randomBytes 32 w) as [buf w1|e w1|w1] eqn:K; try discriminate.
  apply randomBytes_Ret in K; [|lia]. destruct K as [Hl [Ht Hw1]].
  pose proof (secureRandomIndex_frame m w1) as [Fh [Fi Fo]].
  destruct (secureRandomIndex m w1) as [n w2|e w2|w2] eqn:E; try discriminate.
  cbn [worldOf] in Fh, Fi, Fo.
  assert (Hh : hashes w1 = hashes w) by (rewrite Hw1; reflexivity).
  assert (Hi : stdin w1 = stdin w) by (rewrite Hw1; reflexivity).
  assert (Ho : stdout w1 = stdout w) by (rewrite Hw1; reflexivity).
  intros R. inversion R; subst g w'. clear R. cbn [max key computerNumber hmac].
  split; [reflexivity|]. split; [lia|]. split.
  - exists (entropy w1). split; [exact Ht|]. rewrite <- Hw1. exact E.
  - rewrite Fh, Hh. repeat split; congruence.
Qed.

Lemma generator_number_range (m : Z) (w : World) (g : FairRandomGenerator) (w' : World) :
  new_FairRandomGenerator m w = Ret g w' -> 0 <= computerNumber g <= m.
Proof.
  intros R. apply new_FairRandomGenerator_Ret in R.
  destruct R as [_ [_ [[tape [_ Hn]] _]]].
  apply (secureRandomIndex_range _ _ _ _ Hn).
Qed.

(** Recomputing from what the accessors reveal gives the digest held. *)
Lemma recompute_digest (getHashes : list string) (g : FairRandomGenerator) :
  hmac g = computeHMAC getHashes (key g) (computerNumber g) ->
  computeHMAC getHashes (hexDecode (getKey g)) (getComputerNumber g) = getHMAC g.
Proof.
  intros H. unfold getKey, getComputerNumber, getHMAC.
  rewrite hexDecode_getKey. symmetry. exact H.
Qed.



(** ** The algorithm of the digest *)

(** C4 as stated fails: with the same key and number, a run whose host
    lists [sha3-256] among its hashes and a run whose host does not publish
    different digests. *)
Lemma computeHMAC_depends_on_hashes :
  let k := [x00; x01; x02; x03; x04; x05; x06; x07; x08; x09; x0a; x0b; x0c; x0d;
            x0e; x0f; x10; x11; x12; x13; x14; x15; x16; x17; x18; x19; x1a; x1b;
            x1c; x1d; x1e; x1f] in
  computeHMAC ["sha256"; "sha3-256"]%string k 0
  = "55A4EB56B278D72E3DCB2B77C20B0A0295C21FF0FE05FC033CEECF51FD23D13D"%string
  /\ computeHMAC ["sha256"]%string k 0
     = "3A8B171143BC3FE5972827CF3A413E96E1B4573AE308EE4E2EE652100511049F"%string
  /\ computeHMAC ["sha256"; "sha3-256"]%string k 0 <> computeHMAC ["sha256"]%string k 0.
Proof.
  intros k.
  assert (E3 : computeHMAC ["sha256"; "sha3-256"]%string k 0
               = "55A4EB56B278D72E3DCB2B77C20B0A0295C21FF0FE05FC033CEECF51FD23D13D"%string)
    by (vm_compute; reflexivity).
  assert (E2 : computeHMAC ["sha256"]%string k 0
               = "3A8B171143BC3FE5972827CF3A413E96E1B4573AE308EE4E2EE652100511049F"%string)
    by (vm_compute; reflexivity).
  split; [exact E3|]. split; [exact E2|]. rewrite E3, E2. discriminate.
Qed.

(** C4 amended: the digest is the upper-case hexadecimal HMAC of the key and
    the decimal text of the number, under SHA3-256 when the host lists
    [sha3-256] among its hashes and under SHA-256 otherwise; two hosts that
    agree on listing [sha3-256] give the same digest. *)
Theorem computeHMAC_algorithm (hashes1 hashes2 : list string) (k : list byte) (n : Z) :
  (In "sha3-256"%string hashes1 <-> In "sha3-256"%string hashes2) ->
  computeHMAC hashes1 k n = computeHMAC hashes2 k n
  /\ (In "sha3-256"%string hashes1 ->
      computeHMAC hashes1 k n
      = toUpperCase (createHmac_digest_hex sha3_256 k (toString n)))
  /\ (~ In "sha3-256"%string hashes1 ->
      computeHMAC hashes1 k n
      = toUpperCase (createHmac_digest_hex sha256 k (toString n))).
Proof.
  intros Hiff. unfold computeHMAC.
  destruct (chooseAlgorithm_spec hashes1) as [[H1 ->] | [H1 ->]];
    destruct (chooseAlgorithm_spec hashes2) as [[H2 ->] | [H2 ->]];
    try tauto; repeat split; try reflexivity; tauto.
Qed.

Lemma computeHMAC_algorithm_witness :
  computeHMAC ["sha3-256"; "sha256"]%string [x01; x02] 4
  = computeHMAC ["md5"; "sha3-256"]%string [x01; x02] 4.
Proof.
  destruct (computeHMAC_algorithm ["sha3-256"; "sha256"]%string
                                  ["md5"; "sha3-256"]%string [x01; x02] 4) as [E _].
  - split; intros _; [right; left; reflexivity | left; reflexivity].
  - exact E.
Defined.


(** ** Running the console *)

Ltac normalise_log :=
  repeat rewrite <- app_assoc; cbn [app]; repeat rewrite <- app_assoc;
  try reflexivity.

Lemma forallb_weaken {A : Type} (p q : A -> bool) (l : list A) :
  (forall x, p x = true -> q x = true) ->
  forallb p l = true -> forallb q l = true.
Proof.
  intros H. induction l as [|x l IH]; simpl; [reflexivity|].
  intros E. apply andb_true_iff in E. destruct E as [Hx Hl].
  rewrite (H _ Hx), (IH Hl). reflexivity.
Qed.


Lemma setStdout_twice (w : World) (a b : list message) :
  setStdout (setStdout w a) b = setStdout w b.
Proof. reflexivity. Qed.

Lemma setStdout_same (w : World) : setStdout w (stdout w) = w.
Proof. destruct w; reflexivity. Qed.

Lemma wp_bind {A B : Type} (m : M A) (k : A -> M B) Q X w :
  wp m (fun a w' => wp (k a) Q X w') X w -> wp (bind m k) Q X w.
Proof. unfold wp, bind. destruct (m w); auto. Qed.

Lemma wp_conseq {A : Type} (m : M A) (Q1 Q2 : A -> World -> Prop) (X1 X2 : World -> Prop) w :
  wp m Q1 X1 w ->
  (forall a w', Q1 a w' -> Q2 a w') -> (forall w', X1 w' -> X2 w') ->
  wp m Q2 X2 w.
Proof. unfold wp. destruct (m w); auto. Qed.

Lemma wp_Ret {A : Type} (m : M A) Q X w a w' :
  wp m Q X w -> m w = Ret a w' -> Q a w'.
Proof. unfold wp. intros H E. rewrite E in H. exact H. Qed.

Lemma grows_refl (w : World) : grows w w [].
Proof. split; [reflexivity | rewrite app_nil_r; reflexivity]. Qed.

Lemma grows_trans (w1 w2 w3 : World) (d1 d2 : list message) :
  grows w1 w2 d1 -> grows w2 w3 d2 -> grows w1 w3 (d1 ++ d2).
Proof.
  intros [H1 O1] [H2 O2]. split; [congruence|].
  rewrite O2, O1, app_assoc. reflexivity.
Qed.

Lemma grows_log (w : World) (ms : list message) :
  grows w (setStdout w (stdout w ++ ms)) ms.
Proof. split; reflexivity. Qed.

Lemma logAll_run (ms : list message) (w : World) :
  logAll ms w = Ret tt (setStdout w (stdout w ++ ms)).
Proof.
  revert w. induction ms as [|m ms IH]; intros w; simpl.
  - unfold ret. rewrite app_nil_r, setStdout_same. reflexivity.
  - unfold bind, log. rewrite IH. cbn [stdout setStdout].
    rewrite <- app_assoc. reflexivity.
Qed.

Lemma showOptions_run (n : Z) (w : World) :
  exists chat, forallb isChatter chat = true
               /\ showOptions n w = Ret tt (setStdout w (stdout w ++ chat)).
Proof.
  unfold showOptions, bind. rewrite logAll_run, logAll_run.
  cbn [stdout setStdout]. rewrite <- app_assoc.
  eexists. split; [|reflexivity].
  rewrite forallb_app. apply andb_true_iff. split; [|reflexivity].
  induction (indices (n + 1)) as [|i l IH]; [reflexivity | exact IH].
Qed.

(** The line reader: it prints chatter only, then either returns a number
    in range, or prints the cancellation and returns [null], or waits. *)
Lemma questionLoop_spec (help : message) (n : Z) (lines : list string) (out : list message) :
  isChatter help = true ->
  exists chat, forallb isChatter chat = true /\
    match questionLoop help n lines out with
    | (Some (Some v), _, out') => 0 <= v <= n /\ out' = (out ++ chat)%list
    | (Some None, _, out') => out' = (out ++ chat ++ [Cancelled])%list
    | (None, _, out') => out' = (out ++ chat)%list
    end.
Proof.
  intros Hh. revert out. induction lines as [|l lines IH]; intros out; simpl.
  - exists [Question "Your choice: "]. split; reflexivity.
  - destruct (String.eqb (toUpperCase (trim l)) "X").
    + exists [Question "Your choice: "]. split; [reflexivity|].
      rewrite <- app_assoc. reflexivity.
    + destruct (String.eqb (toUpperCase (trim l)) "?").
      * destruct (IH ((out ++ [Question "Your choice: "]) ++ [help])%list) as [chat [Hc Hs]].
        exists (Question "Your choice: " :: help :: chat). split.
        { simpl. rewrite Hh. exact Hc. }
        destruct (questionLoop help n lines _) as [[[[v|]|] rest] out'];
          rewrite <- !app_assoc in Hs; simpl in Hs; simpl; exact Hs.
      * set (num := Number_ (toUpperCase (trim l))).
        destruct (negb (Number_isInteger num)) eqn:Hi; simpl.
        { destruct (IH ((out ++ [Question "Your choice: "]) ++ [OutOfRange n])%list)
            as [chat [Hc Hs]].
          exists (Question "Your choice: " :: OutOfRange n :: chat). split.
          { simpl. exact Hc. }
          destruct (questionLoop help n lines _) as [[[[v|]|] rest] out'];
            rewrite <- !app_assoc in Hs; simpl in Hs; simpl; exact Hs. }
        destruct (Z.ltb_spec (integerValue num) 0) as [Hlo|Hlo]; simpl.
        { destruct (IH ((out ++ [Question "Your choice: "]) ++ [OutOfRange n])%list)
            as [chat [Hc Hs]].
          exists (Question "Your choice: " :: OutOfRange n :: chat). split.
          { simpl. exact Hc. }
          destruct (questionLoop help n lines _) as [[[[v|]|] rest] out'];
            rewrite <- !app_assoc in Hs; simpl in Hs; simpl; exact Hs. }
        destruct (Z.ltb_spec n (integerValue num)) as [Hhi|Hhi]; simpl.
        { destruct (IH ((out ++ [Question "Your choice: "]) ++ [OutOfRange n])%list)
            as [chat [Hc Hs]].
          exists (Question "Your choice: " :: OutOfRange n :: chat). split.
          { simpl. exact Hc. }
          destruct (questionLoop help n lines _) as [[[[v|]|] rest] out'];
            rewrite <- !app_assoc in Hs; simpl in Hs; simpl; exact Hs. }
        exists [Question "Your choice: "]. split; [reflexivity|]. split; [lia | reflexivity].
Qed.

Lemma getUserInputWith_spec (help : message) (n : Z) (w : World) :
  isChatter help = true ->
  wp (getUserInputWith help n)
     (fun r w' =>
        entropy w' = entropy w /\
        exists chat, forallb isChatter chat = true /\
          match r with
          | Some v => 0 <= v <= n /\ grows w w' chat
          | None => grows w w' (chat ++ [Cancelled])
          end)
     (fun w' => entropy w' = entropy w /\
                exists chat, forallb isChatter chat = true /\ grows w w' chat)
     w.
Proof.
  intros Hh. unfold wp, getUserInputWith.
  destruct (questionLoop_spec help n (stdin w) (stdout w) Hh) as [chat [Hc Hs]].
  destruct (questionLoop help n (stdin w) (stdout w)) as [[[[v|]|] rest] out'].
  - destruct Hs as [Hv ->]. split; [reflexivity|]. exists chat. repeat split; assumption || lia.
  - subst out'. split; [reflexivity|]. exists chat. repeat split; assumption.
  - subst out'. split; [reflexivity|]. exists chat. repeat split; assumption.
Qed.

Lemma new_FairRandomGenerator_frame (m : Z) (w : World) :
  hashes (worldOf (new_FairRandomGenerator m w)) = hashes w
  /\ stdin (worldOf (new_FairRandomGenerator m w)) = stdin w
  /\ stdout (worldOf (new_FairRandomGenerator m w)) = stdout w.
Proof.
  unfold new_FairRandomGenerator, bind, generateKey.
  destruct (randomBytes 32 w) as [buf w1|e w1|w1] eqn:K.
  - apply randomBytes_Ret in K; [|lia]. destruct K as [_ [_ Hw1]].
    pose proof (secureRandomIndex_frame m w1) as F.
    rewrite Hw1 in F at 2 4 6. cbn [hashes stdin stdout setEntropy] in F.
    destruct (secureRandomIndex m w1); exact F.
  - unfold randomBytes in K. destruct (_ <? _)%nat; inversion K. repeat split.
  - unfold randomBytes in K. destruct (_ <? _)%nat; inversion K.
Qed.




(** X17: the coin flip is a round of the same protocol.  When it returns
    a decision, the digest of a generator for [max = 1] was printed before
    the human's choice was read, the choice [u] is 0 or 1, the computer
    goes first exactly when [(number + u) % 2] is 0, and the reveal that
    follows the choice shows the key and the number of that digest: the
    keyed hash of the number under the revealed key is the digest. *)
Lemma decideFirstPlayer_round (w : World) (first : bool) (w' : World) :
  decideFirstPlayer w = Ret (Some first) w' ->
  exists (g : FairRandomGenerator) (w1 : World) (chat : list message) (u : Z),
    new_FairRandomGenerator 1
      (setStdout w (stdout w ++ [Text "Let's decide who picks first with a provably fair coin flip."]))
    = Ret g w1
    /\ forallb isChatter chat = true
    /\ 0 <= u <= 1
    /\ first = (Z.rem (getComputerNumber g + u) 2 =? 0)
    /\ grows w w'
         ([Text "Let's decide who picks first with a provably fair coin flip.";
           CoinCommitment (getHMAC g)]
            ++ chat
            ++ [Reveal (getComputerNumber g) (getKey g);
                Computed 2 (getComputerNumber g) u (Z.rem (getComputerNumber g + u) 2);
                PicksFirst first])
    /\ computeHMAC (hashes w') (hexDecode (getKey g)) (getComputerNumber g) = getHMAC g.
Proof.
  intros E. unfold decideFirstPlayer in E. cbv beta delta [bind log] iota in E.
  destruct (new_FairRandomGenerator _ _) as [g w1|e w1|w1] eqn:G; try discriminate.
  pose proof (new_FairRandomGenerator_frame 1
                (setStdout w (stdout w ++ [Text "Let's decide who picks first with a provably fair coin flip."])))
    as [Fh [_ Fo]].
  rewrite G in Fh, Fo. cbn [worldOf hashes stdout setStdout] in Fh, Fo.
  rewrite !logAll_run in E. cbv beta iota in E.
  unfold getUserInputStatic in E.
  match type of E with context [getUserInputWith help01 1 ?w0] =>
    pose proof (getUserInputWith_spec help01 1 w0 eq_refl) as U; unfold wp in U;
    destruct (getUserInputWith help01 1 w0) as [[u|] w3|e w3|w3]; try discriminate
  end.
  - destruct U as [_ [chat [Hchat [Hu [Gh Go]]]]].
    cbv zeta in E. unfold ret in E. injection E as <- <-.
    exists g, w1,
      ([Text "You pick 0 or 1:"; Text "0 - 0"; Text "1 - 1"] ++ exitAndHelp ++ chat)%list, u.
    split; [reflexivity|]. split.
    { rewrite !forallb_app, Hchat. reflexivity. }
    split; [exact Hu|]. split; [reflexivity|].
    cbn [hashes stdout setStdout] in Gh, Go.
    assert (Hh : hashes w3 = hashes w) by congruence.
    split.
    + split; cbn [hashes stdout setStdout]; [exact Hh|].
      rewrite Go, Fo. normalise_log.
    + cbn [hashes setStdout]. rewrite Hh, <- Fh.
      apply new_FairRandomGenerator_Ret in G. destruct G as [_ [_ [_ [Hb _]]]].
      apply recompute_digest. cbn [hashes setStdout] in Hb. rewrite Fh. exact Hb.
Qed.

(** ** The rolls of [dice.js] *)

Lemma randomIntLoop_spec (fuel : nat) (lo range randLimit : Z) (w : World) (v : Z) (w' : World) :
  0 < range ->
  DiceJs.randomIntLoop fuel lo range randLimit w = Ret v w' ->
  lo <= v < lo + range /\ hashes w' = hashes w /\ stdin w' = stdin w
  /\ stdout w' = stdout w.
Proof.
  intros Hr. revert w. induction fuel as [|fuel IH]; intros w; simpl; [discriminate|].
  destruct (randomBytes 6 w) as [buf w1|e w1|w1] eqn:K; try discriminate.
  apply randomBytes_Ret in K; [|lia]. destruct K as [_ [_ Hw1]].
  destruct (_ <? randLimit).
  - intros E. injection E as <- <-.
    pose proof (Z.mod_pos_bound (fromBigEndian (map byteToZ buf)) range Hr).
    rewrite Hw1. repeat split; lia.
  - intros E. apply IH in E. rewrite Hw1 in E. exact E.
Qed.

Lemma randomInt_spec (lo hi : Z) (w : World) (v : Z) (w' : World) :
  DiceJs.randomInt lo hi w = Ret v w' ->
  lo <= v < hi /\ hashes w' = hashes w /\ stdin w' = stdin w /\ stdout w' = stdout w.
Proof.
  unfold DiceJs.randomInt. destruct (Z.leb_spec hi lo); [discriminate|].
  intros E. apply randomIntLoop_spec in E; [|lia].
  replace (lo + (hi - lo)) with hi in E by ring. exact E.
Qed.




(** ** Cancellation in the commit-reveal game *)

Lemma wp_log {A : Type} (m : message) (k : M A) Q X (w : World) :
  wp k Q X (setStdout w (stdout w ++ [m])) -> wp (log m ;;; k) Q X w.
Proof. intros H. apply wp_bind. exact H. Qed.

Lemma wp_logAll {A : Type} (ms : list message) (k : M A) Q X (w : World) :
  wp k Q X (setStdout w (stdout w ++ ms)) -> wp (logAll ms ;;; k) Q X w.
Proof. intros H. apply wp_bind. unfold wp at 1. rewrite logAll_run. exact H. Qed.

Lemma wp_call {A B : Type} (m : M A) (k : A -> M B) (Q1 : A -> World -> Prop)
      (X1 : World -> Prop) Q X (w : World) :
  wp m Q1 X1 w ->
  (forall a w', Q1 a w' -> wp (k a) Q X w') ->
  (forall w', X1 w' -> X w') ->
  wp (bind m k) Q X w.
Proof.
  intros H HQ HX. apply wp_bind. eapply wp_conseq; [exact H | exact HQ | exact HX].
Qed.

Lemma quiet_of_chatter (l : list message) :
  forallb isChatter l = true -> forallb isQuiet l = true.
Proof. apply forallb_weaken. intros [] E; try discriminate; reflexivity. Qed.

Lemma quietly_refl (w : World) : quietly w w.
Proof. exists []. split; [apply grows_refl | reflexivity]. Qed.

Lemma quietly_trans (w1 w2 w3 : World) : quietly w1 w2 -> quietly w2 w3 -> quietly w1 w3.
Proof.
  intros [d1 [G1 Q1]] [d2 [G2 Q2]]. exists (d1 ++ d2)%list. split.
  - eapply grows_trans; eassumption.
  - rewrite forallb_app, Q1, Q2. reflexivity.
Qed.

Lemma quietly_log (w0 w : World) (ms : list message) :
  quietly w0 w -> forallb isQuiet ms = true ->
  quietly w0 (setStdout w (stdout w ++ ms)).
Proof.
  intros H Hq. apply (quietly_trans _ _ _ H). exists ms. split; [apply grows_log | assumption].
Qed.

Lemma quietly_cancelling (w1 w2 w3 : World) :
  quietly w1 w2 -> cancelling w2 w3 -> cancelling w1 w3.
Proof.
  intros [d1 [G1 Q1]] [d2 [G2 Q2]]. exists (d1 ++ d2)%list. split.
  - rewrite <- app_assoc. eapply grows_trans; eassumption.
  - rewrite forallb_app, Q1, Q2. reflexivity.
Qed.

Lemma Clean_quietly (w w' : World) : Clean w -> quietly w w' -> Clean w'.
Proof.
  unfold Clean. intros C [d [[_ G] Q]]. rewrite G, forallb_app, C, Q. reflexivity.
Qed.

Lemma noAnnouncement_quiet (l : list message) :
  forallb isQuiet l = true -> noAnnouncement l = true.
Proof.
  apply forallb_weaken. intros m E. unfold isQuiet in E.
  apply andb_true_iff in E. tauto.
Qed.

Lemma noCancellation_quiet (l : list message) :
  forallb isQuiet l = true -> noCancellation l = true.
Proof.
  apply forallb_weaken. intros m E. unfold isQuiet in E.
  apply andb_true_iff in E. tauto.
Qed.

Lemma Aborted_quietly (w w' : World) : Aborted w -> quietly w w' -> Aborted w'.
Proof.
  unfold Aborted, noAnnouncement. intros C [d [[_ G] Q]].
  rewrite G, forallb_app, C. apply noAnnouncement_quiet in Q. exact Q.
Qed.

Lemma Aborted_cancelling (w w' : World) : Aborted w -> cancelling w w' -> Aborted w'.
Proof.
  unfold Aborted, noAnnouncement. intros C [d [[_ G] Q]].
  rewrite G, !forallb_app, C. apply noAnnouncement_quiet in Q.
  unfold noAnnouncement in Q. rewrite Q. reflexivity.
Qed.

Lemma Clean_Aborted (w : World) : Clean w -> Aborted w.
Proof. apply noAnnouncement_quiet. Qed.

Lemma Clean_NotCancelled (w : World) : Clean w -> NotCancelled w.
Proof. apply noCancellation_quiet. Qed.

(** The stepping of straight-line code that prints quiet lines: the goal
    is carried to the world after the line, with [quietly] kept up. *)
Ltac quiet_log :=
  cbv zeta;
  match goal with
  | H : quietly ?w0 ?w |- wp (bind (log ?m) _) _ _ ?w =>
      apply wp_log;
      let H' := fresh "Hq" in
      assert (H' : quietly w0 (setStdout w (stdout w ++ [m])))
        by (apply quietly_log; [exact H | reflexivity]);
      clear H;
      let w1 := fresh "w" in
      set (w1 := setStdout w (stdout w ++ [m])) in *; clearbody w1
  | H : quietly ?w0 ?w |- wp (bind (logAll ?ms) _) _ _ ?w =>
      apply wp_logAll;
      let H' := fresh "Hq" in
      assert (H' : quietly w0 (setStdout w (stdout w ++ ms)))
        by (apply quietly_log; [exact H | try reflexivity]);
      clear H;
      let w1 := fresh "w" in
      set (w1 := setStdout w (stdout w ++ ms)) in *; clearbody w1
  end.

Lemma getUserInput_phase (help : message) (n : Z) (w0 w : World) :
  isChatter help = true ->
  quietly w0 w ->
  wp (getUserInputWith help n)
     (fun r w' => match r with
                  | Some v => 0 <= v <= n /\ quietly w0 w'
                  | None => cancelling w0 w'
                  end)
     (quietly w0) w.
Proof.
  intros Hh H0. eapply wp_conseq; [apply (getUserInputWith_spec help n w Hh) | |].
  - intros [v|] w' [_ [chat [Hc H]]].
    + destruct H as [Hv G]. split; [exact Hv|]. apply (quietly_trans _ _ _ H0).
      exists chat. split; [exact G | apply quiet_of_chatter; exact Hc].
    + apply (quietly_cancelling _ _ _ H0).
      exists chat. split; [exact H | apply quiet_of_chatter; exact Hc].
  - intros w' [_ [chat [Hc G]]]. apply (quietly_trans _ _ _ H0). exists chat.
    split; [exact G | apply quiet_of_chatter; exact Hc].
Qed.

Lemma frame_quietly {A : Type} (o : outcome A) (w0 w : World) :
  quietly w0 w ->
  hashes (worldOf o) = hashes w /\ stdin (worldOf o) = stdin w
  /\ stdout (worldOf o) = stdout w ->
  quietly w0 (worldOf o).
Proof.
  intros H0 [Fh [_ Fo]]. apply (quietly_trans _ _ _ H0). exists []. split; [|reflexivity].
  split; [exact Fh | rewrite app_nil_r; exact Fo].
Qed.

Lemma secureRandomIndex_phase (n : Z) (w0 w : World) :
  quietly w0 w ->
  wp (secureRandomIndex n) (fun _ w' => quietly w0 w') (quietly w0) w.
Proof.
  intros H0. pose proof (frame_quietly _ _ _ H0 (secureRandomIndex_frame n w)) as F.
  unfold wp. destruct (secureRandomIndex n w); exact F.
Qed.

Lemma new_FairRandomGenerator_phase (n : Z) (w0 w : World) :
  quietly w0 w ->
  wp (new_FairRandomGenerator n) (fun _ w' => quietly w0 w') (quietly w0) w.
Proof.
  intros H0. pose proof (frame_quietly _ _ _ H0 (new_FairRandomGenerator_frame n w)) as F.
  unfold wp. destruct (new_FairRandomGenerator n w); exact F.
Qed.

Lemma showOptions_phase {A : Type} (n : Z) (k : M A) Q X (w0 w : World) :
  quietly w0 w ->
  (forall w1, quietly w0 w1 -> wp k Q X w1) ->
  wp (showOptions n ;;; k) Q X w.
Proof.
  intros H K. apply wp_bind. unfold wp at 1.
  destruct (showOptions_run n w) as [chat [Hc ->]].
  apply K. apply quietly_log; [exact H | apply quiet_of_chatter; exact Hc].
Qed.

Lemma decideFirstPlayer_phase (w0 w : World) :
  quietly w0 w ->
  wp decideFirstPlayer
     (fun r w' => match r with
                  | Some _ => quietly w0 w'
                  | None => cancelling w0 w'
                  end)
     (quietly w0) w.
Proof.
  intros H. unfold decideFirstPlayer. quiet_log.
  eapply wp_call; [apply new_FairRandomGenerator_phase; eassumption | | auto].
  intros generator w2 H2. cbv beta in *.
  do 4 quiet_log.
  eapply wp_call; [apply getUserInput_phase; [reflexivity | eassumption] | | auto].
  intros [u|] w7 H7; cbv beta in *.
  - destruct H7 as [_ H7]. do 3 quiet_log. assumption.
  - exact H7.
Qed.

Lemma setComputerDie_phase (g : Game) (i : Z) (w0 w : World) :
  quietly w0 w ->
  wp (setComputerDie g i)
     (fun g' w' => quietly w0 w' /\ userDie g' = userDie g /\ dice g' = dice g)
     (quietly w0) w.
Proof.
  intros H. unfold setComputerDie. destruct (js_index (dice g) i) as [d|].
  - quiet_log. repeat split. assumption.
  - exact H.
Qed.

Lemma pickComputerDie_phase (g : Game) (w0 w : World) :
  quietly w0 w ->
  wp (pickComputerDie g)
     (fun g' w' => quietly w0 w' /\ userDie g' = userDie g /\ dice g' = dice g)
     (quietly w0) w.
Proof.
  intros H. unfold pickComputerDie.
  eapply wp_call; [apply secureRandomIndex_phase; eassumption | | auto].
  intros i w1 H1. cbv beta in *. apply setComputerDie_phase. exact H1.
Qed.

(** Choosing a die either sets [userDie], or prints the cancellation and
    leaves the game as it was. *)
Lemma selectUserDie_phase (help : Z -> message) (g : Game) (w0 w : World) :
  (forall n, isChatter (help n) = true) ->
  quietly w0 w ->
  wp (selectUserDieWith (fun n => getUserInputWith (help n) n) g)
     (fun g' w' => (quietly w0 w' /\ dice g' = dice g)
                   \/ (cancelling w0 w' /\ g' = g))
     (quietly w0) w.
Proof.
  intros Hh H. unfold selectUserDieWith. quiet_log.
  apply wp_logAll.
  match goal with |- wp _ _ _ (setStdout ?w1 (stdout ?w1 ++ ?ms)) =>
    assert (Hl : quietly w0 (setStdout w1 (stdout w1 ++ ms)));
    [apply quietly_log; [assumption|] | set (w2 := setStdout w1 (stdout w1 ++ ms)) in *;
                                        clearbody w2; clear Hq]
  end.
  { apply quiet_of_chatter.
    induction (combine (indices (Z.of_nat (length (dice g)))) (dice g)) as [|x l IH];
      [reflexivity | exact IH]. }
  quiet_log.
  eapply wp_call; [apply getUserInput_phase; [apply Hh | eassumption] | | auto].
  intros [c|] w4 H4; cbv beta in *.
  - destruct H4 as [_ H4]. destruct (js_index (dice g) c) as [d|].
    + quiet_log. left. split; [assumption | reflexivity].
    + exact H4.
  - right. split; [exact H4 | reflexivity].
Qed.

Lemma getFace_not_null (d : Dice) (i : Z) : js_eq (getFace d i) Null = false.
Proof.
  unfold getFace. destruct (numFaces d =? 0); [reflexivity|].
  destruct (js_index _ _); reflexivity.
Qed.

(** A roll either returns a face after quiet lines only, or prints the
    cancellation last and returns [null]. *)
Lemma roll_phase (title intro : string) (die : option Dice) (w0 w : World) :
  quietly w0 w ->
  wp (roll title intro die)
     (fun v w' => if js_eq v Null then cancelling w0 w' else quietly w0 w')
     (quietly w0) w.
Proof.
  intros H. unfold roll. destruct die as [d|]; [|exact H].
  quiet_log.
  eapply wp_call; [apply new_FairRandomGenerator_phase; eassumption | | auto].
  intros generator w2 H2. cbv beta in *.
  do 2 quiet_log.
  eapply showOptions_phase; [eassumption|]. intros w5 H5.
  eapply wp_call; [apply getUserInput_phase; [reflexivity | eassumption] | | auto].
  intros [u|] w6 H6; cbv beta in *.
  - destruct H6 as [_ H6]. do 2 quiet_log.
    unfold wp, ret. rewrite getFace_not_null. assumption.
  - exact H6.
Qed.

Lemma announce_phase (g : Game) (u c : jsval) (w : World) :
  NotCancelled w ->
  wp (announce g u c) (fun _ w' => NotCancelled w') (fun _ => False) w.
Proof.
  unfold NotCancelled, noCancellation, announce, wp, bind, log, ret.
  cbn [stdout setStdout]. intros H. rewrite !forallb_app, H. reflexivity.
Qed.

(** Whatever the human types and whatever the random source delivers, a
    match that starts from a log without cancellation or announcement never
    holds both: once [Game cancelled.] is printed, no roll value, no
    verdict and no probability report is. *)
Lemma run_phase (g : Game) (w : World) :
  userDie g = None -> Clean w ->
  wp (run g) (fun _ w' => Aborted w' \/ NotCancelled w')
             (fun w' => Aborted w' \/ NotCancelled w') w.
Proof.
  intros Hu C. unfold run.
  eapply wp_call; [apply (decideFirstPlayer_phase w w), quietly_refl | |].
  2: { intros w' H. left. apply Clean_Aborted. eapply Clean_quietly; eassumption. }
  intros [first|] w1 H1; cbv beta in *.
  2: { left. eapply Aborted_cancelling; [apply Clean_Aborted; exact C | exact H1]. }
  assert (C1 : Clean w1) by (eapply Clean_quietly; eassumption).
  clear H1 C w.
  eapply wp_call with
    (Q1 := fun g' w' => (Clean w' /\ dice g' = dice g)
                        \/ (Aborted w' /\ userDie g' = None))
    (X1 := Aborted).
  - destruct first.
    + eapply wp_call; [apply (pickComputerDie_phase g w1 w1), quietly_refl | |].
      2: { intros w' H. apply Clean_Aborted. eapply Clean_quietly; eassumption. }
      intros g1 w2 [H2 [Hu1 Hd1]]. cbv beta in *.
      assert (C2 : Clean w2) by (eapply Clean_quietly; eassumption).
      eapply wp_conseq;
        [apply (selectUserDie_phase (fun _ => help01) g1 w2 w2);
         [reflexivity | apply quietly_refl] | |].
      * intros g2 w3 [[H3 Hd2] | [H3 ->]].
        -- left. split; [eapply Clean_quietly; eassumption | congruence].
        -- right. split; [|congruence].
           eapply Aborted_cancelling; [apply Clean_Aborted; exact C2 | exact H3].
      * intros w' H. apply Clean_Aborted. eapply Clean_quietly; eassumption.
    + eapply wp_call;
        [apply (selectUserDie_phase (fun _ => help01) g w1 w1);
         [reflexivity | apply quietly_refl] | |].
      2: { intros w' H. apply Clean_Aborted. eapply Clean_quietly; eassumption. }
      intros g1 w2 [[H2 Hd1] | [H2 ->]]; cbv beta in *.
      * assert (C2 : Clean w2) by (eapply Clean_quietly; eassumption).
        eapply wp_conseq; [apply (pickComputerDie_phase g1 w2 w2), quietly_refl | |].
        -- intros g2 w3 [H3 [_ Hd2]]. left.
           split; [eapply Clean_quietly; eassumption | congruence].
        -- intros w' H. apply Clean_Aborted. eapply Clean_quietly; eassumption.
      * assert (A2 : Aborted w2)
          by (eapply Aborted_cancelling; [apply Clean_Aborted; exact C1 | exact H2]).
        eapply wp_conseq; [apply (pickComputerDie_phase g w2 w2), quietly_refl | |].
        -- intros g2 w3 [H3 [Hu2 _]]. right.
           split; [eapply Aborted_quietly; eassumption | congruence].
        -- intros w' H. eapply Aborted_quietly; eassumption.
  - intros g' w2 [[C2 _] | [A2 Hu2]]; cbv beta in *.
    2: { rewrite Hu2. left. exact A2. }
    destruct (userDie g') as [ud|] eqn:Eu; [|left; apply Clean_Aborted; exact C2].
    destruct (computerDie g') as [cd|] eqn:Ec; [|left; apply Clean_Aborted; exact C2].
    eapply wp_call; [apply (roll_phase _ _ (computerDie g') w2 w2), quietly_refl | |].
    2: { intros w' H. left. apply Clean_Aborted. eapply Clean_quietly; eassumption. }
    intros cf w3 H3. cbv beta in *.
    destruct (js_eq cf Null).
    { left. eapply Aborted_cancelling; [apply Clean_Aborted; exact C2 | exact H3]. }
    assert (C3 : Clean w3) by (eapply Clean_quietly; eassumption).
    eapply wp_call; [apply (roll_phase _ _ (userDie g') w3 w3), quietly_refl | |].
    2: { intros w' H. left. apply Clean_Aborted. eapply Clean_quietly; eassumption. }
    intros uf w4 H4. cbv beta in *.
    destruct (js_eq uf Null).
    { left. eapply Aborted_cancelling; [apply Clean_Aborted; exact C3 | exact H4]. }
    assert (C4 : Clean w4) by (eapply Clean_quietly; eassumption).
    eapply wp_call; [apply announce_phase, Clean_NotCancelled; exact C4 | |].
    + intros t w5 N5. right. exact N5.
    + intros w' [].
  - intros w' A. left. exact A.
Qed.


(** X23: in the commit-reveal game a cancellation ends the match.  From an
    empty log, whatever the dice, the input and the random bytes are, if
    ['Game cancelled.'] is printed then no roll value, no verdict and no
    probability report is printed, before it or after it. *)
Theorem run_cancelled_aborts (dice : list Dice) (w : World) :
  stdout w = [] ->
  let log := stdout (worldOf (run (new_Game dice) w)) in
  In Cancelled log -> forall m, In m log -> isAnnouncement m = false.
Proof.
  intros Hw log Hc m Hm.
  assert (C : Clean w) by (unfold Clean; rewrite Hw; reflexivity).
  pose proof (run_phase (new_Game dice) w eq_refl C) as P.
  unfold wp in P. subst log.
  assert (D : Aborted (worldOf (run (new_Game dice) w))
              \/ NotCancelled (worldOf (run (new_Game dice) w))).
  { destruct (run (new_Game dice) w); exact P. }
  destruct D as [A | N].
  - unfold Aborted, noAnnouncement in A. rewrite forallb_forall in A.
    specialize (A m Hm). destruct (isAnnouncement m); [discriminate | reflexivity].
  - unfold NotCancelled, noCancellation in N. rewrite forallb_forall in N.
    specialize (N Cancelled Hc). discriminate.
Qed.

Lemma run_cancelled_aborts_witness :
  let w := {| hashes := []; entropy := repeat x04 40; stdin := [" x "]%string;
              stdout := [] |} in
  let log := stdout (worldOf (run (new_Game classicDice) w)) in
  stdout w = [] /\ In Cancelled log
  /\ (forall m, In m log -> isAnnouncement m = false).
Proof.
  intros w log. split; [reflexivity|].
  assert (Hc : In Cancelled log).
  { assert (E : existsb isCancelled log = true) by (vm_compute; reflexivity).
    apply existsb_exists in E. destruct E as [m [Hm E]].
    destruct m; try discriminate. exact Hm. }
  split; [exact Hc|]. exact (run_cancelled_aborts classicDice w eq_refl Hc).
Defined.

(** ** The rolls *)




(** ** Cancellation in [dice.js] *)

(** C6 on [dice.js]: the human picks die 1 and types [x] when asked for
    the roll.  [userRoll] prints the cancellation and returns [null], and
    [run] goes on: it prints both roll values, a verdict and the
    probability report. *)
Theorem DiceJs_run_announces_after_cancellation :
  let log := stdout (worldOf (DiceJs.run (new_Game classicDice)
                                         (sampleWorld ["1"; "x"]%string))) in
  map render (firstn 25 log)
  = ["Computer picks first!"; "Computer picks die: [1,1,6,6,8,8]"; "Pick your die:";
     "0 - [2,2,4,4,9,9]"; "1 - [1,1,6,6,8,8]"; "2 - [3,3,5,5,7,7]"; "X - exit";
     "? - help"; "Your choice: "; "You picked: [1,1,6,6,8,8]";
     newline ++ "Your rolling:"; "0 - 0"; "1 - 1"; "2 - 2"; "3 - 3"; "4 - 4"; "5 - 5";
     "X - exit"; "? - help"; "Your choice: "; "Game cancelled."; "Your roll: null";
     "Computer roll: 6"; "Computer wins! (6 > null)";
     newline ++ "Pairwise win probability table:"]%string
  /\ skipn 20 log
     = [Cancelled; YourRoll Null; ComputerRoll (Num 6);
        Verdict (ComputerWins (Num 6) Null); TableCaption;
        generateProbabilityTable classicDice].
Proof. split; vm_compute; reflexivity. Qed.

(** The commit-reveal game on the same dice, cancelled at the human's
    roll: the computer's round is revealed, then nothing is announced. *)
Example run_cancelled_at_user_roll :
  let log := stdout (worldOf (run (new_Game classicDice)
                                  (sampleWorld ["0"; "1"; "3"; "x"]%string))) in
  existsb isCancelled log = true /\ existsb isAnnouncement log = false
  /\ last log Cancelled = Cancelled.
Proof. vm_compute. repeat split. Qed.


(** ** Further properties: the faces of a die *)

Lemma getFace_nonneg (fs : list Z) (i : Z) :
  fs <> [] -> 0 <= i ->
  exists f, nth_error fs (Z.to_nat (i mod Z.of_nat (length fs))) = Some f
            /\ getFace (new_Dice fs) i = Num f.
Proof.
  intros Hne Hi.
  assert (Hn : 0 < Z.of_nat (length fs)).
  { destruct fs; [contradiction | simpl; lia]. }
  unfold getFace, new_Dice, js_index. cbn [numFaces faces].
  destruct (Z.eqb_spec (Z.of_nat (length fs)) 0) as [E|_]; [lia|].
  rewrite Z.rem_mod_nonneg by lia.
  pose proof (Z.mod_pos_bound i (Z.of_nat (length fs)) Hn) as Hb.
  destruct (Z.ltb_spec (i mod Z.of_nat (length fs)) 0) as [?|_]; [lia|].
  destruct (nth_error fs (Z.to_nat (i mod Z.of_nat (length fs)))) as [f|] eqn:E.
  - exists f. split; reflexivity.
  - apply nth_error_None in E. lia.
Qed.

(** X1: [getFace] reads the faces cyclically.  On a die with one face or
    more and an index that is not negative, adding any number of whole
    turns ([k * numFaces]) to the index gives the same face, and the result
    is always one of the die's faces, the one at position
    [index mod numFaces]. *)
Theorem getFace_wraps_around (fs : list Z) (i k : Z) :
  fs <> [] -> 0 <= i -> 0 <= k ->
  let d := new_Dice fs in
  getFace d (i + k * numFaces d) = getFace d i
  /\ exists f, getFace d i = Num f /\ In f fs
               /\ nth_error fs (Z.to_nat (i mod numFaces d)) = Some f.
Proof.
  intros Hne Hi Hk d.
  assert (Hn : 0 < Z.of_nat (length fs)).
  { destruct fs; [contradiction | simpl; lia]. }
  destruct (getFace_nonneg fs i Hne Hi) as [f [Hf E]].
  destruct (getFace_nonneg fs (i + k * numFaces d) Hne) as [f' [Hf' E']].
  { subst d. cbn [numFaces new_Dice]. nia. }
  subst d. cbn [numFaces new_Dice] in *.
  rewrite Z.mod_add in Hf' by lia. rewrite Hf in Hf'. inversion Hf'. subst f'.
  split; [rewrite E, E'; reflexivity|].
  exists f. split; [exact E|]. split; [|exact Hf].
  eapply nth_error_In. exact Hf.
Qed.

Lemma getFace_wraps_around_witness :
  let d := new_Dice [2; 2; 4; 4; 9; 9] in
  getFace d (4 + 3 * numFaces d) = getFace d 4
  /\ exists f, getFace d 4 = Num f /\ In f [2; 2; 4; 4; 9; 9]
               /\ nth_error [2; 2; 4; 4; 9; 9] (Z.to_nat (4 mod numFaces d)) = Some f.
Proof.
  apply (getFace_wraps_around [2; 2; 4; 4; 9; 9] 4 3); [discriminate | lia | lia].
Defined.

(** X2: [getFace] gives [undefined] in two cases only: the die has no face
    (the remainder by zero is NaN), or the remainder of the index is
    negative, which happens for a negative index that is not a multiple of
    [numFaces].  In particular it never gives [undefined] for the indices
    from 0 on of a die that has a face. *)
Theorem getFace_undefined (fs : list Z) (i : Z) :
  getFace (new_Dice fs) i = Undefined
  <-> (fs = [] \/ Z.rem i (Z.of_nat (length fs)) < 0).
Proof.
  unfold getFace, new_Dice, js_index. cbn [numFaces faces].
  destruct (Z.eqb_spec (Z.of_nat (length fs)) 0) as [E|E].
  - split; [intros _; left; destruct fs; [reflexivity | simpl in E; lia] | reflexivity].
  - assert (Hn : 0 < Z.of_nat (length fs)) by lia.
    pose proof (Z.rem_bound_abs i (Z.of_nat (length fs)) ltac:(lia)) as Hb.
    destruct (Z.ltb_spec (Z.rem i (Z.of_nat (length fs))) 0) as [Hneg|Hpos].
    + split; [intros _; right; exact Hneg | reflexivity].
    + destruct (nth_error fs (Z.to_nat (Z.rem i (Z.of_nat (length fs))))) as [f|] eqn:F.
      * split; [discriminate|]. intros [-> | H]; [simpl in E; lia | lia].
      * apply nth_error_None in F. lia.
Qed.

(** ** Further properties: the parser *)

Lemma mapFaces_length (parts : list string) (fs : list Z) :
  mapFaces parts = Ok fs -> length fs = length parts.
Proof.
  revert fs. induction parts as [|t parts IH]; simpl; intros fs H.
  - inversion H. reflexivity.
  - destruct (negb (Number_isInteger (Number_ t))); [discriminate|].
    destruct (mapFaces parts) as [fs'|m]; [|discriminate].
    inversion H. simpl. rewrite (IH fs' eq_refl). reflexivity.
Qed.

Lemma wellFormed_new_Dice (fs : list Z) : fs <> [] -> wellFormed (new_Dice fs).
Proof.
  intros H. split; [reflexivity|]. destruct fs; [contradiction | simpl; lia].
Qed.

Lemma parseArgs_invariant (args : list string) (acc dice : list Dice) :
  Forall wellFormed acc ->
  parseArgs args acc = Ok dice ->
  Forall wellFormed dice /\ length dice = (length acc + length args)%nat.
Proof.
  revert acc. induction args as [|arg args IH]; simpl; intros acc Hacc H.
  - inversion H. subst. split; [exact Hacc | lia].
  - destruct (Nat.eqb_spec (length (split "," arg)) 0) as [E|E]; [discriminate|].
    destruct (mapFaces (split "," arg)) as [fs|m] eqn:F; [|discriminate].
    apply IH in H.
    + destruct H as [Hw Hl]. split; [exact Hw|]. rewrite Hl, length_app. simpl. lia.
    + apply Forall_app. split; [exact Hacc|]. constructor; [|constructor].
      apply wellFormed_new_Dice. intros ->. apply mapFaces_length in F.
      simpl in F. lia.
Qed.

(** X3: what [parseDice] returns is always a usable set of dice: as many
    dice as there were specifications, three at least, each with
    [numFaces] equal to the number of its faces and one face at least (a
    specification without a comma still gives one token). *)
Theorem parseDice_returns_well_formed_dice (args : list string) (dice : list Dice) :
  parseDice args = Ok dice ->
  length dice = length args /\ (3 <= length dice)%nat /\ Forall wellFormed dice.
Proof.
  unfold parseDice. intros H.
  destruct (Nat.ltb_spec (length args) 3) as [Hl|Hl]; [discriminate|].
  apply parseArgs_invariant in H; [|constructor].
  destruct H as [Hw Hlen]. simpl in Hlen. split; [exact Hlen|]. split; [lia | exact Hw].
Qed.

Lemma parseDice_returns_well_formed_dice_witness :
  let dice := [new_Dice [7]; new_Dice [0; -3]; new_Dice [1; 2; 3]] in
  parseDice ["7"; "0,-3"; "1,2,3"]%string = Ok dice
  /\ length dice = 3%nat /\ (3 <= length dice)%nat /\ Forall wellFormed dice.
Proof.
  intros dice.
  assert (E : parseDice ["7"; "0,-3"; "1,2,3"]%string = Ok dice) by (vm_compute; reflexivity).
  split; [exact E|].
  exact (parseDice_returns_well_formed_dice ["7"; "0,-3"; "1,2,3"]%string dice E).
Defined.

Lemma mapFaces_firstFailing (parts : list string) :
  match firstFailing passesIntegerTest parts with
  | Some t => mapFaces parts = Throw ("Not a number: " ++ t)%string
  | None => mapFaces parts = Ok (map (fun numStr => integerValue (Number_ numStr)) parts)
  end.
Proof.
  unfold firstFailing.
  induction parts as [|t parts IH]; simpl; [reflexivity|].
  unfold passesIntegerTest at 1.
  destruct (negb (Number_isInteger (Number_ t))); [reflexivity|].
  destruct (find _ parts); rewrite IH; reflexivity.
Qed.

Lemma find_over_app {A : Type} (p : A -> bool) (l1 l2 : list A) :
  find p (l1 ++ l2) = match find p l1 with Some x => Some x | None => find p l2 end.
Proof.
  induction l1 as [|x l1 IH]; simpl; [reflexivity|].
  destruct (p x); [reflexivity | exact IH].
Qed.

Lemma parseArgs_firstFailing (args : list string) (acc : list Dice) :
  match firstFailing passesIntegerTest (allTokens args) with
  | Some t => parseArgs args acc = Throw ("Not a number: " ++ t)%string
  | None => parseArgs args acc = Ok (acc ++ map dieOfSpec args)
  end.
Proof.
  unfold firstFailing, allTokens.
  revert acc. induction args as [|arg args IH]; intros acc; simpl.
  - rewrite app_nil_r. reflexivity.
  - destruct (Nat.eqb_spec (length (split "," arg)) 0) as [E|_].
    { apply length_zero_iff_nil in E. destruct (split_nonempty _ _ E). }
    rewrite find_over_app.
    pose proof (mapFaces_firstFailing (split "," arg)) as F. unfold firstFailing in F.
    destruct (find _ (split "," arg)) as [t|].
    + rewrite F. reflexivity.
    + rewrite F. fold (dieOfSpec arg). specialize (IH (acc ++ [dieOfSpec arg])%list).
      destruct (find _ (flat_map (split ",") args)).
      * exact IH.
      * rewrite IH, <- app_assoc. reflexivity.
Qed.

(** X4: [parseDice] in closed form, and with it which error it raises.
    With fewer than three specifications it is the usage message, whatever
    the tokens are; with three or more, it is ['Not a number: '] followed
    by the first token, in reading order over all the specifications, that
    fails [Number.isInteger(Number(token))]; and when no token fails, one
    die per specification is returned, its faces in the order written. *)
Theorem parseDice_first_failing_token (args : list string) :
  parseDice args
  = if (length args <? 3)%nat then Throw usageError
    else match firstFailing passesIntegerTest (allTokens args) with
         | Some t => Throw ("Not a number: " ++ t)%string
         | None => Ok (map dieOfSpec args)
         end.
Proof.
  unfold parseDice. destruct (length args <? 3)%nat; [reflexivity|].
  pose proof (parseArgs_firstFailing args []) as H.
  destruct (firstFailing passesIntegerTest (allTokens args)); exact H.
Qed.

Lemma parseArgs_messages (args : list string) (acc : list Dice) (m : string) :
  parseArgs args acc = Throw m ->
  exists t, m = ("Not a number: " ++ t)%string.
Proof.
  pose proof (parseArgs_firstFailing args acc) as H.
  destruct (firstFailing passesIntegerTest (allTokens args)) as [t|]; intros E.
  - rewrite H in E. inversion E. exists t. reflexivity.
  - rewrite H in E. discriminate.
Qed.

(** X5: the message ['Each die needs at least one face!'] is never raised:
    [split] gives one part at least, so the test [parts.length === 0] of
    the first file cannot hold.  This is why the parser of [dice.js], which
    has no such test, returns and raises exactly the same on every
    argument list. *)
Theorem parseDice_never_misses_faces (args : list string) :
  (forall dice, parseArgs args dice <> Throw "Each die needs at least one face!")
  /\ parseDice args <> Throw "Each die needs at least one face!"
  /\ DiceJs.parseDice args = parseDice args.
Proof.
  assert (A : forall dice, parseArgs args dice <> Throw "Each die needs at least one face!").
  { intros dice E. apply parseArgs_messages in E. destruct E as [t E]. discriminate. }
  split; [exact A|]. split.
  - unfold parseDice. destruct (length args <? 3)%nat; [discriminate | apply A].
  - apply DiceJs_parseDice_same.
Qed.


(** ** Further properties: the win probability and its table *)

Lemma filter_map_length {A B : Type} (p : B -> bool) (g : A -> B) (l : list A) :
  length (filter p (map g l)) = length (filter (fun y => p (g y)) l).
Proof.
  induction l as [|y l IH]; simpl; [reflexivity|].
  destruct (p (g y)); simpl; rewrite IH; reflexivity.
Qed.

Lemma count2_map {A B A' B' : Type} (p : A' -> B' -> bool) (f : A -> A') (g : B -> B')
      (la : list A) (lb : list B) :
  count2 (fun x y => p (f x) (g y)) la lb = count2 p (map f la) (map g lb).
Proof.
  induction la as [|a la IH]; [reflexivity|].
  simpl map. rewrite !count2_cons_l, IH, filter_map_length. reflexivity.
Qed.

Lemma getFace_listed (pre l : list Z) :
  map (fun i => getFace (new_Dice (pre ++ l)) (Z.of_nat i)) (seq (length pre) (length l))
  = map Num l.
Proof.
  revert pre. induction l as [|x l IH]; intros pre; [reflexivity|].
  simpl. f_equal.
  - destruct (getFace_new_Dice (pre ++ x :: l) (Z.of_nat (length pre))) as [f [Hf ->]].
    { rewrite length_app. simpl. lia. }
    rewrite Nat2Z.id, nth_error_app2, Nat.sub_diag in Hf by lia.
    simpl in Hf. inversion Hf. reflexivity.
  - specialize (IH (pre ++ [x])%list).
    rewrite <- app_assoc, length_app in IH. simpl in IH.
    rewrite Nat.add_1_r in IH. exact IH.
Qed.

Lemma getFace_indices (fs : list Z) :
  map (getFace (new_Dice fs)) (indices (numFaces (new_Dice fs))) = map Num fs.
Proof.
  unfold indices. cbn [numFaces new_Dice]. rewrite Nat2Z.id, map_map.
  exact (getFace_listed [] fs).
Qed.

(** The count over index pairs is the count over pairs of faces. *)
Lemma countPairs_faces (test : jsval -> jsval -> bool) (fa fb : list Z) :
  countPairs test (new_Dice fa) (new_Dice fb)
  = Z.of_nat (count2 (fun x y => test (Num x) (Num y)) fa fb).
Proof.
  unfold countPairs, facePairs. f_equal.
  change (count2 (fun i j => test (getFace (new_Dice fa) i) (getFace (new_Dice fb) j))
                 (indices (numFaces (new_Dice fa))) (indices (numFaces (new_Dice fb)))
          = count2 (fun x y => test (Num x) (Num y)) fa fb).
  rewrite (count2_map test), !getFace_indices, <- (count2_map test). reflexivity.
Qed.

Lemma count2_Permutation_l {A B : Type} (p : A -> B -> bool) (la la' : list A) (lb : list B) :
  Permutation la la' -> count2 p la lb = count2 p la' lb.
Proof.
  induction 1 as [|x l l' _ IH|x y l|l l' l'' _ IH1 _ IH2].
  - reflexivity.
  - rewrite !count2_cons_l, IH. reflexivity.
  - rewrite !count2_cons_l. lia.
  - rewrite IH1. exact IH2.
Qed.

Lemma count2_Permutation {A B : Type} (p : A -> B -> bool) (la la' : list A) (lb lb' : list B) :
  Permutation la la' -> Permutation lb lb' -> count2 p la lb = count2 p la' lb'.
Proof.
  intros Ha Hb. rewrite (count2_Permutation_l p la la' lb Ha).
  rewrite (count2_swap p la' lb), (count2_swap p la' lb').
  apply count2_Permutation_l. exact Hb.
Qed.

(** X7: the win probability depends on which faces a die has and how
    often, not on the order in which they were written: rearranging the
    faces of either die leaves it unchanged. *)
Theorem winProbability_face_order (fa fa' fb fb' : list Z) :
  Permutation fa fa' -> Permutation fb fb' ->
  winProbability (new_Dice fa) (new_Dice fb) = winProbability (new_Dice fa') (new_Dice fb').
Proof.
  intros Ha Hb. unfold winProbability.
  rewrite !countWins_countPairs, !countPairs_faces.
  rewrite (count2_Permutation _ fa fa' fb fb' Ha Hb).
  cbn [numFaces new_Dice].
  rewrite (Permutation_length Ha), (Permutation_length Hb). reflexivity.
Qed.

Lemma winProbability_face_order_witness :
  winProbability (new_Dice [2; 4; 9]) (new_Dice [1; 6; 8])
  = winProbability (new_Dice [4; 2; 9]) (new_Dice [1; 8; 6]).
Proof.
  apply winProbability_face_order.
  - apply perm_swap.
  - apply perm_skip. apply perm_swap.
Defined.








Lemma nth_error_indices (n : Z) (i : nat) :
  (i < Z.to_nat n)%nat -> nth_error (indices n) i = Some (Z.of_nat i).
Proof.
  intros H. unfold indices. rewrite nth_error_map, nth_error_seq.
  destruct (Nat.ltb_spec i (Z.to_nat n)); [reflexivity | lia].
Qed.

(** X9: the shape of the probability table for any list of [n] dice: a
    heading of [n + 1] entries, [n] rows of [n + 1] cells; row [i] starts
    with the label ['Die i'], has ['-'] in the column of die [i] itself,
    and in the column of any other die [j] the percentage
    [winProbability(dice[i], dice[j]) * 100]. *)
Theorem generateProbabilityTable_shape (dice : list Dice) :
  exists heading rows,
    generateProbabilityTable dice = Table heading rows
    /\ heading = EmptyString :: map dieLabel (indices (Z.of_nat (length dice)))
    /\ length heading = S (length dice)
    /\ length rows = length dice
    /\ forall i j di dj,
         nth_error dice i = Some di -> nth_error dice j = Some dj ->
         exists row, nth_error rows i = Some row
           /\ length row = S (length dice)
           /\ nth_error row 0 = Some (Label (dieLabel (Z.of_nat i)))
           /\ nth_error row (S j)
              = Some (if (i =? j)%nat then Dash
                      else Percent (winProbability di dj * 100)%Q).
Proof.
  unfold generateProbabilityTable.
  eexists. eexists. split; [reflexivity|]. split; [reflexivity|].
  assert (Hlen : length (indices (Z.of_nat (length dice))) = length dice).
  { unfold indices. rewrite length_map, length_seq, Nat2Z.id. reflexivity. }
  split; [simpl; rewrite length_map, Hlen; reflexivity|].
  split; [rewrite length_map, Hlen; reflexivity|].
  intros i j di dj Hi Hj.
  assert (Li : (i < length dice)%nat) by (apply nth_error_Some; congruence).
  assert (Lj : (j < length dice)%nat) by (apply nth_error_Some; congruence).
  rewrite nth_error_map, nth_error_indices by (rewrite Nat2Z.id; exact Li).
  simpl option_map. eexists. split; [reflexivity|].
  split; [simpl; rewrite length_map, Hlen; reflexivity|].
  split; [reflexivity|].
  cbn [nth_error]. rewrite nth_error_map, nth_error_indices by (rewrite Nat2Z.id; exact Lj).
  simpl option_map. f_equal.
  destruct (Nat.eqb_spec i j) as [E|E].
  - subst j. rewrite Z.eqb_refl. reflexivity.
  - destruct (Z.eqb_spec (Z.of_nat i) (Z.of_nat j)) as [E'|_]; [lia|].
    unfold js_index.
    destruct (Z.ltb_spec (Z.of_nat i) 0); [lia|].
    destruct (Z.ltb_spec (Z.of_nat j) 0); [lia|].
    rewrite !Nat2Z.id, Hi, Hj. reflexivity.
Qed.

(** ** Further properties: the text of digests and keys *)

Lemma length_toUpperCase (s : string) : String.length (toUpperCase s) = String.length s.
Proof. induction s as [|c s IH]; simpl; [reflexivity | rewrite IH; reflexivity]. Qed.

Lemma hex_pair_upper (b : byte) :
  isUpperHex (toUpperChar (hexDigit (byteToZ b / 16))) = true
  /\ isUpperHex (toUpperChar (hexDigit (byteToZ b mod 16))) = true.
Proof. destruct b; vm_compute; split; reflexivity. Qed.

Lemma hexEncode_format (bs : list byte) :
  String.length (toUpperCase (hexEncode bs)) = (2 * length bs)%nat
  /\ allChars isUpperHex (toUpperCase (hexEncode bs)) = true.
Proof.
  induction bs as [|b bs [IHl IHc]]; [split; reflexivity|].
  destruct (hex_pair_upper b) as [H1 H2].
  cbn [hexEncode toUpperCase String.length allChars length].
  rewrite IHl, H1, H2, IHc. split; [lia | reflexivity].
Qed.

Lemma length_flat_map_const {A B : Type} (f : A -> list B) (n : nat) (l : list A) :
  (forall x, length (f x) = n) -> length (flat_map f l) = (n * length l)%nat.
Proof.
  intros H. induction l as [|x l IH]; simpl; [lia|].
  rewrite length_app, H, IH. lia.
Qed.

Lemma length_toLittleEndian (n : nat) (x : Z) : length (toLittleEndian n x) = n.
Proof. revert x. induction n as [|n IH]; intros x; simpl; [reflexivity | rewrite IH; reflexivity]. Qed.

Lemma length_toBigEndian (n : nat) (x : Z) : length (toBigEndian n x) = n.
Proof. unfold toBigEndian. rewrite length_rev. apply length_toLittleEndian. Qed.

Lemma length_round (s : list Z) (kw : Z * Z) : length (SHA256.round s kw) = length s.
Proof.
  destruct s as [|a [|b [|c [|d [|e [|f [|g [|h [|i t]]]]]]]]]; reflexivity.
Qed.

Lemma length_fold_left_keep {A B : Type} (f : list A -> B -> list A) (l : list B) (s : list A) :
  (forall s x, length (f s x) = length s) -> length (fold_left f l s) = length s.
Proof.
  intros H. revert s. induction l as [|x l IH]; intros s; simpl; [reflexivity|].
  rewrite IH. apply H.
Qed.

Lemma length_compress (h block : list Z) : length (SHA256.compress h block) = length h.
Proof.
  unfold SHA256.compress. rewrite length_map, length_combine.
  rewrite (length_fold_left_keep SHA256.round) by exact length_round. lia.
Qed.

Lemma length_SHA256_hash (msg : list Z) : length (SHA256.hash msg) = 32%nat.
Proof.
  unfold SHA256.hash.
  rewrite (length_flat_map_const _ 4) by (intros x; apply length_toBigEndian).
  rewrite (length_fold_left_keep SHA256.compress) by exact length_compress.
  reflexivity.
Qed.

Lemma length_build (f : nat -> nat -> Z) : length (SHA3_256.build f) = 25%nat.
Proof. unfold SHA3_256.build. rewrite length_map, length_seq. reflexivity. Qed.

Lemma length_iota (rc : Z) (A : list Z) : length (SHA3_256.iota rc A) = length A.
Proof. destruct A; reflexivity. Qed.

Lemma length_fold_left_reset {A B : Type} (f : list A -> B -> list A) (n : nat)
      (l : list B) (s : list A) :
  (forall s x, length (f s x) = n) -> length s = n -> length (fold_left f l s) = n.
Proof.
  intros H. revert s. induction l as [|x l IH]; intros s Hs; simpl; [exact Hs|].
  apply IH. apply H.
Qed.

Lemma length_keccakF (A : list Z) : length (SHA3_256.keccakF A) = 25%nat.
Proof.
  unfold SHA3_256.keccakF, SHA3_256.RC. cbn [fold_left].
  rewrite length_iota. apply length_build.
Qed.

Lemma length_SHA3_256_hash (msg : list Z) : length (SHA3_256.hash msg) = 32%nat.
Proof.
  unfold SHA3_256.hash. rewrite length_firstn.
  rewrite (length_flat_map_const _ 8) by (intros x; apply length_toLittleEndian).
  rewrite (length_fold_left_reset SHA3_256.absorb 25).
  - reflexivity.
  - intros s x. apply length_keccakF.
  - apply repeat_length.
Qed.

Lemma length_hmacBytes (a : algorithm) (k msg : list Z) : length (hmacBytes a k msg) = 32%nat.
Proof.
  unfold hmacBytes. destruct a; [apply length_SHA3_256_hash | apply length_SHA256_hash].
Qed.

(** X10: the digest that is published has a fixed form whatever the
    algorithm, the key and the number are: 64 characters, each a digit or a
    letter from A to F (32 bytes in hexadecimal, in upper case). *)
Theorem computeHMAC_format (getHashes : list string) (k : list byte) (number : Z) :
  String.length (computeHMAC getHashes k number) = 64%nat
  /\ allChars isUpperHex (computeHMAC getHashes k number) = true.
Proof.
  unfold computeHMAC, createHmac_digest_hex.
  destruct (hexEncode_format
              (map byteOfZ (hmacBytes (chooseAlgorithm getHashes) (map byteToZ k)
                                      (map byteToZ (bytesOfString (toString number))))))
    as [Hl Hc].
  rewrite length_map, length_hmacBytes in Hl. split; [exact Hl | exact Hc].
Qed.

(** X11: [getKey] writes the key so that it can be read back: two
    upper-case hexadecimal characters per byte, from which
    [Buffer.from(text, 'hex')] gives the key again; so two generators with
    different keys reveal different texts, and the key of 32 bytes that the
    constructor draws is revealed as 64 characters. *)
Theorem getKey_round_trip (g h : FairRandomGenerator) :
  hexDecode (getKey g) = key g
  /\ String.length (getKey g) = (2 * length (key g))%nat
  /\ allChars isUpperHex (getKey g) = true
  /\ (getKey g = getKey h -> key g = key h).
Proof.
  unfold getKey. destruct (hexEncode_format (key g)) as [Hl Hc].
  split; [apply hexDecode_getKey|]. split; [exact Hl|]. split; [exact Hc|].
  intros E. rewrite <- (hexDecode_getKey (key g)), <- (hexDecode_getKey (key h)), E.
  reflexivity.
Qed.


(** ** Further properties: the sampler is unbiased *)

Lemma byteToZ_bounds (b : byte) : 0 <= byteToZ b < 256.
Proof. destruct b; vm_compute; split; congruence. Qed.

Lemma byteOfZ_byteToZ (b : byte) : byteOfZ (byteToZ b) = b.
Proof. destruct b; reflexivity. Qed.

Lemma byteToZ_byteOfZ (z : Z) : 0 <= z < 256 -> byteToZ (byteOfZ z) = z.
Proof.
  intros Hz. unfold byteOfZ, byteToZ. rewrite Z.mod_small by exact Hz.
  destruct (Byte.of_N (Z.to_N z)) as [b|] eqn:E.
  - apply Byte.to_of_N in E. rewrite E. lia.
  - apply Byte.of_N_None_iff in E. lia.
Qed.

Lemma fromBigEndian_snoc (l : list Z) (x : Z) :
  fromBigEndian (l ++ [x]) = fromBigEndian l * 256 + x.
Proof. unfold fromBigEndian. rewrite fold_left_app. reflexivity. Qed.

Lemma toBigEndian_succ (n : nat) (x : Z) :
  toBigEndian (S n) x = (toBigEndian n (x / 256) ++ [x mod 256])%list.
Proof. reflexivity. Qed.

Lemma toBigEndian_bytes (n : nat) (x : Z) :
  Forall (fun z => 0 <= z < 256) (toBigEndian n x).
Proof.
  revert x. induction n as [|n IH]; intros x; [constructor|].
  rewrite toBigEndian_succ. apply Forall_app. split; [apply IH|].
  constructor; [|constructor]. apply Z.mod_pos_bound. lia.
Qed.

Lemma fromBigEndian_toBigEndian (n : nat) (x : Z) :
  fromBigEndian (toBigEndian n x) = x mod 256 ^ Z.of_nat n.
Proof.
  revert x. induction n as [|n IH]; intros x.
  - simpl. rewrite Z.mod_1_r. reflexivity.
  - rewrite toBigEndian_succ, fromBigEndian_snoc, IH.
    rewrite Nat2Z.inj_succ, Z.pow_succ_r by lia.
    rewrite (Z.rem_mul_r x 256 (256 ^ Z.of_nat n)) by lia. lia.
Qed.

Lemma fromBigEndian_bounds (l : list Z) :
  Forall (fun z => 0 <= z < 256) l ->
  0 <= fromBigEndian l < 256 ^ Z.of_nat (length l).
Proof.
  induction l as [|x l IH] using rev_ind; intros H.
  - simpl. unfold fromBigEndian. simpl. lia.
  - apply Forall_app in H. destruct H as [Hl Hx]. inversion Hx as [|? ? Hx' _]. subst.
    specialize (IH Hl). rewrite fromBigEndian_snoc, length_app. simpl length.
    rewrite Nat2Z.inj_add, Z.pow_add_r by lia. change (256 ^ Z.of_nat 1) with 256. lia.
Qed.

Lemma toBigEndian_fromBigEndian (l : list Z) :
  Forall (fun z => 0 <= z < 256) l ->
  toBigEndian (length l) (fromBigEndian l) = l.
Proof.
  induction l as [|x l IH] using rev_ind; intros H; [reflexivity|].
  apply Forall_app in H. destruct H as [Hl Hx]. inversion Hx as [|? ? Hx' _]. subst.
  rewrite length_app, Nat.add_1_r, toBigEndian_succ, fromBigEndian_snoc.
  rewrite Z.div_add_l, Z.div_small, Z.add_0_r by lia.
  rewrite Z.add_comm, Z.mod_add, Z.mod_small by lia.
  rewrite (IH Hl). reflexivity.
Qed.

Lemma bytes_in_range (buf : list byte) :
  Forall (fun z => 0 <= z < 256) (map byteToZ buf).
Proof.
  apply Forall_forall. intros z Hz. apply in_map_iff in Hz.
  destruct Hz as [b [<- _]]. apply byteToZ_bounds.
Qed.

Lemma length_bufferOf (n : nat) (x : Z) : length (bufferOf n x) = n.
Proof.
  unfold bufferOf, toBigEndian.
  rewrite length_map, length_rev.
  revert x. induction n as [|n IH]; intros x; simpl; [reflexivity | rewrite IH; reflexivity].
Qed.

(** A buffer is the buffer of the integer it reads as, and conversely. *)
Lemma bufferOf_read (buf : list byte) :
  bufferOf (length buf) (fromBigEndian (map byteToZ buf)) = buf.
Proof.
  unfold bufferOf.
  rewrite <- (length_map byteToZ buf) at 1.
  rewrite toBigEndian_fromBigEndian by apply bytes_in_range.
  rewrite map_map. rewrite <- (map_id buf) at 2.
  apply map_ext. apply byteOfZ_byteToZ.
Qed.

Lemma read_bufferOf (n : nat) (x : Z) :
  0 <= x < 256 ^ Z.of_nat n ->
  fromBigEndian (map byteToZ (bufferOf n x)) = x.
Proof.
  intros Hx. unfold bufferOf. rewrite map_map.
  rewrite (map_ext_in _ (fun z => z)), map_id.
  - rewrite fromBigEndian_toBigEndian. apply Z.mod_small. exact Hx.
  - intros z Hz. apply byteToZ_byteOfZ.
    pose proof (toBigEndian_bytes n x) as F. rewrite Forall_forall in F.
    apply F. exact Hz.
Qed.

Lemma specBytes_covers (b : Z) : 0 < b -> 0 < specBytes b /\ b <= 8 * specBytes b.
Proof.
  intros Hb. unfold specBytes.
  pose proof (Z.div_mod (b + 7) 8 ltac:(lia)).
  pose proof (Z.mod_pos_bound (b + 7) 8 ltac:(lia)). lia.
Qed.

(** What a sampling run has read: the draws, of [specBytes b] bytes each. *)
Lemma Sampled_consumes (range b : Z) tape v rest :
  Sampled range b tape v rest ->
  exists used k, tape = (used ++ rest)%list /\ 1 <= k
                 /\ Z.of_nat (length used) = k * specBytes b.
Proof.
  induction 1 as [buf rest Hl Hv | buf tape v rest Hl Hv HS IH].
  - exists buf, 1. split; [reflexivity|]. split; lia.
  - destruct IH as [used [k [-> [Hk Hu]]]].
    exists (buf ++ used)%list, (k + 1). split; [rewrite app_assoc; reflexivity|].
    split; [lia|]. rewrite length_app, Nat2Z.inj_add, Hl, Hu. ring.
Qed.

(** The first draw decides when exactly one draw was read. *)
Lemma Sampled_single (range b : Z) (buf rest : list byte) (v : Z) :
  0 < b ->
  Z.of_nat (length buf) = specBytes b ->
  Sampled range b (buf ++ rest) v rest ->
  v = specDraw b buf /\ v < range.
Proof.
  intros Hb Hl HS.
  destruct (specBytes_covers b Hb) as [Hn _].
  remember (buf ++ rest)%list as tape eqn:Et.
  destruct HS as [buf0 rest0 Hl0 Hv0 | buf0 tape0 v0 rest0 Hl0 Hv0 HS0].
  - apply app_inv_tail in Et. subst buf0. split; [reflexivity | exact Hv0].
  - exfalso. apply Sampled_consumes in HS0.
    destruct HS0 as [used [k [-> [Hk Hu]]]].
    apply (f_equal (@length byte)) in Et. rewrite !length_app in Et. nia.
Qed.

(** X12: the sampler has no bias.  For [0 < max < 2^53], width [b] and
    [n] bytes per draw, the buffers of [n] bytes on which the first draw
    gives a value [v] of [[0, max]] are exactly the buffers of the integers
    [h * 2^b + v] with [0 <= h < 2^(8n - b)], which are all different: each
    value is returned for the same number, [2^(8n - b)], of the [256^n]
    buffers that the random source can deliver. *)
Theorem secureRandomIndex_unbiased (max : Z) (w : World) (buf rest : list byte) (v : Z) :
  0 < max < 2 ^ 53 -> 0 <= v <= max ->
  let b := specWidth (max + 1) in
  let n := specBytes b in
  entropy w = (buf ++ rest)%list -> Z.of_nat (length buf) = n ->
  (Binary64.secureRandomIndex max w = Ret v (setEntropy w rest)
   <-> exists h, 0 <= h < 2 ^ (8 * n - b) /\ buf = bufferOf (Z.to_nat n) (h * 2 ^ b + v))
  /\ (forall h h', 0 <= h < 2 ^ (8 * n - b) -> 0 <= h' < 2 ^ (8 * n - b) ->
        bufferOf (Z.to_nat n) (h * 2 ^ b + v) = bufferOf (Z.to_nat n) (h' * 2 ^ b + v) ->
        h = h').
Proof.
  intros [Hm H53] Hv b n Ht Hl.
  rewrite secureRandomIndex_exact by exact H53.
  assert (Hb : 0 < b) by apply specWidth_pos.
  destruct (specBytes_covers b Hb) as [Hn Hc]. fold n in Hn, Hc.
  assert (Hr : max + 1 < 2 ^ b) by (apply specWidth_minimal; lia).
  assert (Hp : 0 < 2 ^ b) by (apply Z.pow_pos_nonneg; lia).
  assert (Hw : 256 ^ Z.of_nat (Z.to_nat n) = 2 ^ (8 * n - b) * 2 ^ b).
  { rewrite Z2Nat.id by lia. rewrite <- Z.pow_add_r by lia.
    replace (8 * n - b + b) with (8 * n) by ring.
    rewrite Z.pow_mul_r by lia. reflexivity. }
  assert (Hx : forall h, 0 <= h < 2 ^ (8 * n - b) ->
                         0 <= h * 2 ^ b + v < 256 ^ Z.of_nat (Z.to_nat n)).
  { intros h Hh. rewrite Hw. nia. }
  split.
  - rewrite (secureRandomIndex_Sampled max w v (setEntropy w rest) Hm).
    rewrite setEntropy_entropy, Ht. split.
    + intros [HS _]. apply (Sampled_single _ b buf rest v Hb Hl) in HS.
      destruct HS as [Ev _]. unfold specDraw in Ev.
      pose proof (fromBigEndian_bounds _ (bytes_in_range buf)) as Hbd.
      rewrite length_map in Hbd.
      set (x := fromBigEndian (map byteToZ buf)) in *.
      exists (x / 2 ^ b). split.
      * replace (Z.of_nat (length buf)) with (Z.of_nat (Z.to_nat n)) in Hbd
          by (rewrite Z2Nat.id; lia).
        rewrite Hw in Hbd. split; [apply Z.div_pos; lia|].
        apply Z.div_lt_upper_bound; lia.
      * rewrite Ev. rewrite Z.mul_comm, <- Z.div_mod by lia.
        replace (Z.to_nat n) with (length buf) by lia.
        symmetry. apply bufferOf_read.
    + intros [h [Hh ->]]. split; [|reflexivity].
      assert (E : specDraw b (bufferOf (Z.to_nat n) (h * 2 ^ b + v)) = v).
      { unfold specDraw. rewrite read_bufferOf by (apply Hx; exact Hh).
        rewrite Z.add_comm, Z.mod_add by lia. apply Z.mod_small. lia. }
      rewrite <- E at 2. apply Sampled_accept.
      * rewrite length_bufferOf. fold n. lia.
      * rewrite E. lia.
  - intros h h' Hh Hh' E.
    apply (f_equal (fun l => fromBigEndian (map byteToZ l))) in E.
    rewrite !read_bufferOf in E by (apply Hx; assumption). nia.
Qed.

Lemma secureRandomIndex_unbiased_witness :
  let w := {| hashes := []; entropy := [x0b; x55]; stdin := []; stdout := [] |} in
  (Binary64.secureRandomIndex 5 w = Ret 3 (setEntropy w [x55])
   <-> exists h, 0 <= h < 2 ^ (8 * 1 - 3) /\ [x0b] = bufferOf 1 (h * 2 ^ 3 + 3))
  /\ (forall h h', 0 <= h < 2 ^ (8 * 1 - 3) -> 0 <= h' < 2 ^ (8 * 1 - 3) ->
        bufferOf 1 (h * 2 ^ 3 + 3) = bufferOf 1 (h' * 2 ^ 3 + 3) -> h = h').
Proof.
  intros w.
  apply (secureRandomIndex_unbiased 5 w [x0b] [x55] 3); [lia | lia | reflexivity | reflexivity].
Defined.

(** ** Further properties: the entropy a generator uses *)

(** X13: what the constructor takes from the random source, and in which
    order: first the 32 bytes of the key, then the draws for the number
    (none when [max] is 0, else a whole number of draws of [ceil(b / 8)]
    bytes, one at least); it reads no input and prints nothing. *)
Theorem new_FairRandomGenerator_entropy (m : Z) (w : World) (g : FairRandomGenerator)
        (w' : World) :
  new_FairRandomGenerator m w = Ret g w' ->
  exists used,
    entropy w = (key g ++ used ++ entropy w')%list
    /\ length (key g) = 32%nat
    /\ (m = 0 -> used = [])
    /\ (0 < m -> exists k, 1 <= k
                          /\ Z.of_nat (length used) = k * specBytes (specWidth (m + 1)))
    /\ stdin w' = stdin w /\ stdout w' = stdout w.
Proof.
  intros E. pose proof (generator_number_range _ _ _ _ E) as Hr.
  apply new_FairRandomGenerator_Ret in E.
  destruct E as [_ [Hk [[tape [Ht R]] [_ [_ [Hi Ho]]]]]].
  destruct (Z.eq_dec m 0) as [->|Hne].
  - cbv [secureRandomIndex Z.ltb Z.eqb Z.compare] in R. inversion R. subst w'.
    exists []. simpl.
    split; [exact Ht|]. split; [exact Hk|]. split; [reflexivity|].
    split; [lia|]. split; reflexivity.
  - apply secureRandomIndex_Sampled in R; [|lia]. destruct R as [HS Hw].
    rewrite setEntropy_entropy in HS.
    apply Sampled_consumes in HS. destruct HS as [used [k [-> [Hk1 Hu]]]].
    exists used. split; [exact Ht|]. split; [exact Hk|]. split; [lia|].
    split; [intros _; exists k; split; assumption|].
    split; assumption.
Qed.

(** X14: a negative [max] is refused.  [secureRandomIndex] throws
    ['max must be non-negative'] without reading anything, and so does the
    constructor of [FairRandomGenerator], but only after it has drawn its
    key: the 32 bytes are gone and no generator exists. *)
Theorem negative_max_is_refused (m : Z) (w : World) :
  m < 0 ->
  secureRandomIndex m w = Threw "max must be non-negative" w
  /\ ((32 <= length (entropy w))%nat ->
      new_FairRandomGenerator m w
      = Threw "max must be non-negative" (setEntropy w (skipn 32 (entropy w)))).
Proof.
  intros Hm.
  assert (S : forall w0, secureRandomIndex m w0 = Threw "max must be non-negative" w0).
  { intros w0. unfold secureRandomIndex. apply Z.ltb_lt in Hm. rewrite Hm. reflexivity. }
  split; [apply S|]. intros Hl.
  unfold new_FairRandomGenerator, bind, generateKey, randomBytes.
  change (Z.to_nat 32) with 32%nat.
  destruct (Nat.ltb_spec (length (entropy w)) 32) as [|_]; [lia|].
  rewrite S. reflexivity.
Qed.

Lemma negative_max_is_refused_witness :
  let w := {| hashes := []; entropy := repeat x2a 40; stdin := []; stdout := [] |} in
  secureRandomIndex (-1) w = Threw "max must be non-negative" w
  /\ ((32 <= length (entropy w))%nat ->
      new_FairRandomGenerator (-1) w
      = Threw "max must be non-negative" (setEntropy w (skipn 32 (entropy w)))).
Proof.
  intros w. apply (negative_max_is_refused (-1) w). lia.
Defined.


(** ** Further properties: the line reader *)

Lemma questionLoop_step (help : message) (n : Z) (l : string) (lines : list string)
      (out : list message) :
  questionLoop help n (l :: lines) out
  = (Some None, lines, ((out ++ [Question "Your choice: "]) ++ [Cancelled])%list)
  \/ (exists m, (m = help \/ m = OutOfRange n)
                /\ questionLoop help n (l :: lines) out
                   = questionLoop help n lines ((out ++ [Question "Your choice: "]) ++ [m])%list)
  \/ (exists v, 0 <= v <= n
                /\ questionLoop help n (l :: lines) out
                   = (Some (Some v), lines, (out ++ [Question "Your choice: "])%list)).
Proof.
  simpl.
  destruct (String.eqb (toUpperCase (trim l)) "X"); [left; reflexivity|].
  destruct (String.eqb (toUpperCase (trim l)) "?").
  { right. left. exists help. split; [left; reflexivity | reflexivity]. }
  destruct (negb (Number_isInteger (Number_ (toUpperCase (trim l))))); simpl.
  { right. left. exists (OutOfRange n). split; [right; reflexivity | reflexivity]. }
  destruct (Z.ltb_spec (integerValue (Number_ (toUpperCase (trim l)))) 0); simpl.
  { right. left. exists (OutOfRange n). split; [right; reflexivity | reflexivity]. }
  destruct (Z.ltb_spec n (integerValue (Number_ (toUpperCase (trim l))))); simpl.
  { right. left. exists (OutOfRange n). split; [right; reflexivity | reflexivity]. }
  right. right. eexists. split; [|reflexivity]. lia.
Qed.

Lemma questionLoop_contract (help : message) (n : Z) (lines : list string)
      (out : list message) :
  isChatter help = true ->
  exists (chat : list message) (consumed : list string),
    forallb isChatter chat = true /\
    match questionLoop help n lines out with
    | (Some (Some v), rest, out') =>
        0 <= v <= n /\ out' = (out ++ chat)%list
        /\ lines = (consumed ++ rest)%list /\ consumed <> []
    | (Some None, rest, out') =>
        out' = (out ++ chat ++ [Cancelled])%list
        /\ lines = (consumed ++ rest)%list /\ consumed <> []
    | (None, rest, out') =>
        out' = (out ++ chat)%list /\ rest = [] /\ lines = consumed
    end.
Proof.
  intros Hh. revert out. induction lines as [|l lines IH]; intros out.
  - exists [Question "Your choice: "], []. split; [reflexivity|].
    simpl. repeat split.
  - destruct (questionLoop_step help n l lines out) as [E | [[m [Hm E]] | [v [Hv E]]]];
      rewrite E.
    + exists [Question "Your choice: "], [l]. split; [reflexivity|].
      rewrite <- app_assoc. repeat split. discriminate.
    + destruct (IH ((out ++ [Question "Your choice: "]) ++ [m])%list)
        as [chat [consumed [Hc Hs]]].
      exists (Question "Your choice: " :: m :: chat), (l :: consumed). split.
      { simpl. rewrite Hc. destruct Hm as [-> | ->]; [rewrite Hh|]; reflexivity. }
      destruct (questionLoop help n lines _) as [[[[v|]|] rest] out'];
        rewrite <- !app_assoc in Hs; simpl in Hs; simpl.
      * destruct Hs as [Hv [-> [-> _]]]. repeat split; try lia. discriminate.
      * destruct Hs as [-> [-> _]]. repeat split. discriminate.
      * destruct Hs as [-> [-> ->]]. repeat split.
    + exists [Question "Your choice: "], [l]. split; [reflexivity|].
      repeat split; try lia. discriminate.
Qed.

Lemma getUserInputWith_answered (help : message) (n : Z) (w : World) :
  isChatter help = true -> answered n w (getUserInputWith help n w).
Proof.
  intros Hh. unfold answered, getUserInputWith.
  destruct (questionLoop_contract help n (stdin w) (stdout w) Hh)
    as [chat [consumed [Hc Hs]]].
  exists chat, consumed. split; [exact Hc|].
  destruct (questionLoop help n (stdin w) (stdout w)) as [[[[v|]|] rest] out'];
    cbn [worldOf stdin stdout entropy hashes setStdin setStdout].
  - destruct Hs as [Hv [-> [E Hne]]]. repeat split; try assumption; lia.
  - destruct Hs as [-> [E Hne]]. repeat split; assumption.
  - destruct Hs as [-> [-> E]]. rewrite app_nil_r. repeat split; assumption.
Qed.

(** X15: the contract of the line reader, in both files.
    [getUserInputStatic(max)] never throws; it reads lines from the input
    and nothing from the random source; it prints prompts, help and range
    messages only, and ['Game cancelled.'] as its last line exactly when it
    returns [null]; a number it returns lies in [[0, max]]; and it is left
    waiting only when the input has run out. *)
Theorem getUserInputStatic_contract (max : Z) (w : World) :
  answered max w (getUserInputStatic max w)
  /\ answered max w (DiceJs.getUserInputStatic max w).
Proof.
  split; apply getUserInputWith_answered; reflexivity.
Qed.

(** *** A listed option is accepted *)

Ltac read_digit :=
  cbn [NilEmpty.string_of_uint readDigits];
  match goal with
  | |- context [digitValue 10 ?c] =>
      let v := eval vm_compute in (digitValue 10 c) in
      change (digitValue 10 c) with v
  end;
  cbv iota beta.

(** Reading the text of a decimal numeral gives the number it denotes. *)
Lemma readDigits_numeral_acc (d : Decimal.uint) (acc : positive) (count : Z) :
  readDigits 10 (NilEmpty.string_of_uint d) (Zpos acc) count
  = (Zpos (Pos.of_uint_acc d acc), count + Z.of_nat (Decimal.nb_digits d), EmptyString).
Proof.
  revert acc count.
  induction d as [|d IH|d IH|d IH|d IH|d IH|d IH|d IH|d IH|d IH|d IH]; intros acc count;
    [simpl; rewrite Z.add_0_r; reflexivity | ..];
    read_digit; cbn [Pos.of_uint_acc Decimal.nb_digits];
    match goal with
    | |- readDigits 10 _ ?a _ = (Zpos (Pos.of_uint_acc _ ?p), _, _) =>
        replace a with (Zpos p) by lia
    end;
    rewrite IH; f_equal; f_equal; lia.
Qed.

Lemma readDigits_numeral (d : Decimal.uint) (count : Z) :
  readDigits 10 (NilEmpty.string_of_uint d) 0 count
  = (Z.of_N (Pos.of_uint d), count + Z.of_nat (Decimal.nb_digits d), EmptyString).
Proof.
  revert count.
  induction d as [|d IH|d IH|d IH|d IH|d IH|d IH|d IH|d IH|d IH|d IH]; intros count;
    [simpl; rewrite Z.add_0_r; reflexivity | ..];
    read_digit; cbn [Pos.of_uint Decimal.nb_digits Z.mul Z.add Z.of_N];
    [rewrite IH | rewrite readDigits_numeral_acc ..];
    f_equal; f_equal; lia.
Qed.

Lemma toString_digits (n : Z) :
  0 <= n ->
  allDigits (toString n) = true /\ digitsValue (toString n) = n
  /\ allDecimal (toString n) = true /\ toString n <> EmptyString.
Proof.
  intros Hn. destruct n as [|p|p]; [repeat split; discriminate | | lia].
  unfold toString. cbn [Z.to_int NilZero.string_of_int].
  pose proof (DecimalPos.Unsigned.to_uint_nonnil p) as Hnil.
  assert (E : NilZero.string_of_uint (Pos.to_uint p)
              = NilEmpty.string_of_uint (Pos.to_uint p)).
  { destruct (Pos.to_uint p); [contradiction | reflexivity ..]. }
  rewrite E.
  pose proof (readDigits_numeral (Pos.to_uint p) 0) as R.
  rewrite DecimalPos.Unsigned.of_to in R. cbn [Z.of_N] in R.
  assert (Hd : 0 < Z.of_nat (Decimal.nb_digits (Pos.to_uint p))).
  { destruct (Pos.to_uint p); [contradiction | simpl; lia ..]. }
  split; [|split; [|split]].
  - unfold allDigits. rewrite R. apply Z.ltb_lt. lia.
  - unfold digitsValue. rewrite R. reflexivity.
  - eapply readDigits_allDecimal. exact R.
  - destruct (Pos.to_uint p); [contradiction | discriminate ..].
Qed.

Lemma toUpperCase_allDecimal (s : string) : allDecimal s = true -> toUpperCase s = s.
Proof.
  induction s as [|c r IH]; simpl; [reflexivity|].
  destruct (digitValue 10 c) as [d|] eqn:H; [|discriminate].
  intros Hr. rewrite (IH Hr). digit_cases c H; reflexivity.
Qed.

Lemma trim_allDecimal (s : string) : allDecimal s = true -> trim s = s.
Proof.
  intros H. unfold trim. destruct s as [|c r]; [reflexivity|].
  simpl in H. destruct (digitValue 10 c) as [d|] eqn:Hc; [|discriminate].
  rewrite (trimStart_digit c r d Hc). apply trimEnd_allDecimal.
  simpl. rewrite Hc. exact H.
Qed.

Lemma allDecimal_not_a_command (s : string) :
  allDecimal s = true ->
  String.eqb s "X" = false /\ String.eqb s "?" = false.
Proof.
  destruct s as [|c r]; [split; reflexivity|].
  simpl. destruct (digitValue 10 c) as [d|] eqn:H; [|discriminate].
  intros _. digit_cases c H; split; reflexivity.
Qed.

Lemma questionLoop_listed (help : message) (n i : Z) (rest : list string)
      (out : list message) :
  0 <= i <= n -> i < 2 ^ 53 ->
  questionLoop help n (toString i :: rest) out
  = (Some (Some i), rest, (out ++ [Question "Your choice: "])%list).
Proof.
  intros Hi Hb.
  destruct (toString_digits i ltac:(lia)) as [Ha [Hv [Hd _]]].
  cbn [questionLoop].
  rewrite (trim_allDecimal _ Hd), (toUpperCase_allDecimal _ Hd).
  destruct (allDecimal_not_a_command _ Hd) as [-> ->].
  destruct (Number_allDecimal (toString i) Ha) as [-> ->]; [rewrite Hv; exact Hb|].
  rewrite Hv. cbn [negb orb].
  destruct (Z.ltb_spec i 0); [lia|]. destruct (Z.ltb_spec n i); [lia|]. reflexivity.
Qed.

(** X16: every option that [showOptions] lists can be chosen.  The options
    are printed as the numbers from 0 to [max]; when the next line of input
    is such a number as [toString] writes it (below 2^53), the reader asks
    once, takes that one line and returns the number, in both files. *)
Theorem getUserInput_accepts_listed_option (max i : Z) (w : World) (rest : list string) :
  0 <= i <= max -> i < 2 ^ 53 ->
  stdin w = toString i :: rest ->
  let w' := setStdout (setStdin w rest) (stdout w ++ [Question "Your choice: "]) in
  getUserInput max w = Ret (Some i) w'
  /\ DiceJs.getUserInput max w = Ret (Some i) w'.
Proof.
  intros Hi Hb Hs w'.
  unfold getUserInput, getUserInputStatic, DiceJs.getUserInput, DiceJs.getUserInputStatic,
    getUserInputWith.
  rewrite Hs, !questionLoop_listed by assumption. split; reflexivity.
Qed.

Lemma getUserInput_accepts_listed_option_witness :
  let w := sampleWorld ["4"; "x"]%string in
  let w' := setStdout (setStdin w ["x"]%string) [Question "Your choice: "] in
  getUserInput 5 w = Ret (Some 4) w'
  /\ DiceJs.getUserInput 5 w = Ret (Some 4) w'.
Proof.
  intros w. apply (getUserInput_accepts_listed_option 5 4 w ["x"]%string);
    [lia | lia | reflexivity].
Defined.

(** ** Further properties: the coin flip *)

Lemma randomBytes_stdio (n : Z) (w : World) (i : list string) (o : list message) :
  randomBytes n (setStdio w i o) = onStdio i o (randomBytes n w).
Proof.
  unfold randomBytes. cbn [entropy setStdio].
  destruct (length (entropy w) <? Z.to_nat n)%nat; reflexivity.
Qed.

Lemma rejectionLoop_stdio (fuel : nat) (range bytes mask : Z) (w : World)
      (i : list string) (o : list message) :
  rejectionLoop fuel range bytes mask (setStdio w i o)
  = onStdio i o (rejectionLoop fuel range bytes mask w).
Proof.
  revert w. induction fuel as [|fuel IH]; intros w; simpl; [reflexivity|].
  rewrite randomBytes_stdio.
  destruct (randomBytes bytes w) as [buf w1|e w1|w1]; simpl; try reflexivity.
  destruct (_ <? range); [reflexivity | apply IH].
Qed.

Lemma secureRandomIndex_stdio (n : Z) (w : World) (i : list string) (o : list message) :
  secureRandomIndex n (setStdio w i o) = onStdio i o (secureRandomIndex n w).
Proof.
  unfold secureRandomIndex. cbn [entropy setStdio].
  destruct (n <? 0); [reflexivity|]. destruct (n =? 0); [reflexivity|].
  apply rejectionLoop_stdio.
Qed.

(** The constructor neither reads the input nor looks at what was printed. *)
Lemma new_FairRandomGenerator_stdio (n : Z) (w : World) (i : list string) (o : list message) :
  new_FairRandomGenerator n (setStdio w i o) = onStdio i o (new_FairRandomGenerator n w).
Proof.
  unfold new_FairRandomGenerator, bind, generateKey.
  rewrite randomBytes_stdio.
  destruct (randomBytes 32 w) as [k w1|e w1|w1]; simpl; try reflexivity.
  rewrite secureRandomIndex_stdio.
  destruct (secureRandomIndex n w1) as [v w2|e w2|w2]; reflexivity.
Qed.

(** The coin flip when the next line of input is the choice [u]. *)
Lemma decideFirstPlayer_on_choice (w : World) (u : Z) (rest : list string) :
  0 <= u <= 1 ->
  decideFirstPlayer (setStdin w (toString u :: rest))
  = match new_FairRandomGenerator 1 w with
    | Ret g w1 =>
        let n := getComputerNumber g in
        Ret (Some (Z.rem (n + u) 2 =? 0))
            (setStdio w1 rest
               (stdout w
                  ++ [Text "Let's decide who picks first with a provably fair coin flip.";
                      CoinCommitment (getHMAC g); Text "You pick 0 or 1:"; Text "0 - 0";
                      Text "1 - 1"; Text "X - exit"; Text "? - help";
                      Question "Your choice: "; Reveal n (getKey g);
                      Computed 2 n u (Z.rem (n + u) 2);
                      PicksFirst (Z.rem (n + u) 2 =? 0)]))
    | Threw e w1 =>
        Threw e (setStdio w1 (toString u :: rest)
                   (stdout w ++ [Text "Let's decide who picks first with a provably fair coin flip."]))
    | Waiting w1 =>
        Waiting (setStdio w1 (toString u :: rest)
                   (stdout w ++ [Text "Let's decide who picks first with a provably fair coin flip."]))
    end.
Proof.
  intros Hu. unfold decideFirstPlayer. cbv beta delta [bind log] iota.
  change (setStdout (setStdin w (toString u :: rest))
            (stdout (setStdin w (toString u :: rest))
               ++ [Text "Let's decide who picks first with a provably fair coin flip."]))
    with (setStdio w (toString u :: rest)
            (stdout w ++ [Text "Let's decide who picks first with a provably fair coin flip."])).
  rewrite new_FairRandomGenerator_stdio.
  destruct (new_FairRandomGenerator 1 w) as [g w1|e w1|w1]; cbn [onStdio]; try reflexivity.
  rewrite !logAll_run. cbv beta iota.
  unfold getUserInputStatic, getUserInputWith.
  cbn [stdin stdout setStdout setStdio setStdin].
  rewrite questionLoop_listed by (try lia; change (2 ^ 53) with 9007199254740992; lia).
  cbv beta iota zeta. unfold ret. cbn [stdin stdout setStdout setStdio setStdin exitAndHelp].
  f_equal. unfold setStdio, setStdout. cbn [hashes entropy stdin stdout].
  f_equal. repeat rewrite <- app_assoc. reflexivity.
Qed.

(** X18: in the coin flip the human's bit decides.  The computer's number
    and its digest are fixed before the choice is read and are the same
    whatever is typed; if the flip returns one answer when the human types
    0, it returns the opposite answer when the human types 1, and the two
    logs differ in the lines of the reveal only. *)
Theorem coin_flip_choices_oppose (w : World) (rest : list string) (first : bool)
        (w0 : World) :
  decideFirstPlayer (setStdin w ("0" :: rest)%string) = Ret (Some first) w0 ->
  exists (g : FairRandomGenerator) (shown : list message),
    let n := getComputerNumber g in
    In (CoinCommitment (getHMAC g)) shown
    /\ first = (n =? 0)
    /\ stdout w0 = (shown ++ [Reveal n (getKey g); Computed 2 n 0 (Z.rem (n + 0) 2);
                              PicksFirst first])%list
    /\ decideFirstPlayer (setStdin w ("1" :: rest)%string)
       = Ret (Some (negb first))
             (setStdout w0
                (shown ++ [Reveal n (getKey g); Computed 2 n 1 (Z.rem (n + 1) 2);
                           PicksFirst (negb first)])).
Proof.
  intros E.
  change "0"%string with (toString 0) in E.
  rewrite (decideFirstPlayer_on_choice w 0 rest) in E by lia.
  change "1"%string with (toString 1).
  rewrite (decideFirstPlayer_on_choice w 1 rest) by lia.
  destruct (new_FairRandomGenerator 1 w) as [g w1|e w1|w1] eqn:G; try discriminate.
  pose proof (generator_number_range _ _ _ _ G) as Hr.
  cbv zeta in E. injection E as <- <-.
  exists g, (stdout w
               ++ [Text "Let's decide who picks first with a provably fair coin flip.";
                   CoinCommitment (getHMAC g); Text "You pick 0 or 1:"; Text "0 - 0";
                   Text "1 - 1"; Text "X - exit"; Text "? - help";
                   Question "Your choice: "])%list.
  cbv zeta. unfold getComputerNumber in *.
  assert (Hn : computerNumber g = 0 \/ computerNumber g = 1) by lia.
  split; [apply in_or_app; right; right; left; reflexivity|].
  split; [destruct Hn as [-> | ->]; reflexivity|].
  split; [cbn [stdout setStdio]; rewrite <- app_assoc; reflexivity|].
  f_equal.
  - destruct Hn as [-> | ->]; reflexivity.
  - unfold setStdio, setStdout. cbn [hashes entropy stdin stdout].
    f_equal. rewrite <- app_assoc.
    destruct Hn as [-> | ->]; reflexivity.
Qed.


(** ** Further properties: choosing the dice *)

Lemma sound_bind {A B : Type} (m : M A) (k : A -> M B) (Q1 : A -> World -> Prop)
      (Q : B -> World -> Prop) (w : World) :
  sound m Q1 w -> (forall a w', Q1 a w' -> sound (k a) Q w') -> sound (bind m k) Q w.
Proof.
  unfold sound, bind. intros H K. destruct (m w) as [a w'|e w'|w']; auto.
  apply K in H. exact H.
Qed.

Lemma sound_conseq {A : Type} (m : M A) (Q1 Q2 : A -> World -> Prop) (w : World) :
  sound m Q1 w -> (forall a w', Q1 a w' -> Q2 a w') -> sound m Q2 w.
Proof. unfold sound. intros H K. destruct (m w); auto. Qed.

Lemma sound_log {A : Type} (m : message) (k : M A) (Q : A -> World -> Prop) (w : World) :
  sound k Q (setStdout w (stdout w ++ [m])) -> sound (log m ;;; k) Q w.
Proof. intros H. exact H. Qed.

Lemma sound_logAll {A : Type} (ms : list message) (k : M A) (Q : A -> World -> Prop)
      (w : World) :
  sound k Q (setStdout w (stdout w ++ ms)) -> sound (logAll ms ;;; k) Q w.
Proof. intros H. unfold sound, bind. rewrite logAll_run. exact H. Qed.

Lemma randomBytes_raises (n : Z) (w : World) (e : string) (w' : World) :
  randomBytes n w = Threw e w' -> e = entropyError /\ w' = w.
Proof.
  unfold randomBytes. destruct (_ <? _)%nat; [|discriminate].
  intros E. injection E as <- <-. split; reflexivity.
Qed.

Lemma rejectionLoop_raises (fuel : nat) (range bytes mask : Z) (w : World)
      (e : string) (w' : World) :
  rejectionLoop fuel range bytes mask w = Threw e w' -> e = entropyError.
Proof.
  revert w. induction fuel as [|fuel IH]; intros w; simpl.
  - intros E. injection E as <- _. reflexivity.
  - destruct (randomBytes bytes w) as [buf w1|e1 w1|w1] eqn:R; try discriminate.
    + destruct (_ <? range); [discriminate | apply IH].
    + intros E. injection E as <- _. apply randomBytes_raises in R. tauto.
Qed.

Lemma secureRandomIndex_raises (n : Z) (w : World) (e : string) (w' : World) :
  secureRandomIndex n w = Threw e w' ->
  (0 <= n /\ e = entropyError)
  \/ (n < 0 /\ e = "max must be non-negative"%string /\ w' = w).
Proof.
  unfold secureRandomIndex. destruct (Z.ltb_spec n 0) as [Hn|Hn].
  - intros E. injection E as <- <-. right. repeat split. exact Hn.
  - destruct (n =? 0); [discriminate|]. intros E.
    apply rejectionLoop_raises in E. left. split; assumption.
Qed.

Lemma rejectionLoop_never_waits (fuel : nat) (range bytes mask : Z) (w w' : World) :
  rejectionLoop fuel range bytes mask w = Waiting w' -> False.
Proof.
  revert w. induction fuel as [|fuel IH]; intros w; simpl; [discriminate|].
  unfold randomBytes. destruct (_ <? _)%nat; [discriminate|].
  destruct (_ <? range); [discriminate | apply IH].
Qed.

Lemma secureRandomIndex_never_waits (n : Z) (w w' : World) :
  secureRandomIndex n w = Waiting w' -> False.
Proof.
  unfold secureRandomIndex. destruct (n <? 0); [discriminate|].
  destruct (n =? 0); [discriminate | apply rejectionLoop_never_waits].
Qed.

Lemma secureRandomIndex_sound (n : Z) (w : World) :
  0 <= n -> sound (secureRandomIndex n) (fun v _ => 0 <= v <= n) w.
Proof.
  intros Hn. unfold sound.
  destruct (secureRandomIndex n w) as [v w'|e w'|w'] eqn:E; [| |exact I].
  - eapply secureRandomIndex_range. exact E.
  - apply secureRandomIndex_raises in E. destruct E as [[_ E] | [E _]]; [exact E | lia].
Qed.

Lemma randomIntLoop_raises (fuel : nat) (lo range randLimit : Z) (w : World)
      (e : string) (w' : World) :
  DiceJs.randomIntLoop fuel lo range randLimit w = Threw e w' ->
  e = entropyError /\ stdout w' = stdout w.
Proof.
  revert w. induction fuel as [|fuel IH]; intros w; simpl.
  - intros E. injection E as <- <-. split; reflexivity.
  - destruct (randomBytes 6 w) as [buf w1|e1 w1|w1] eqn:R; try discriminate.
    + apply randomBytes_Ret in R; [|lia]. destruct R as [_ [_ Hw]].
      destruct (_ <? randLimit)%Z; [discriminate|]. intros E.
      apply IH in E. rewrite Hw in E. exact E.
    + intros E. injection E as <- <-. apply randomBytes_raises in R.
      destruct R as [-> ->]. split; reflexivity.
Qed.

Lemma randomInt_raises (lo hi : Z) (w : World) (e : string) (w' : World) :
  DiceJs.randomInt lo hi w = Threw e w' ->
  stdout w' = stdout w
  /\ ((lo < hi /\ e = entropyError)
      \/ (hi <= lo /\ e = DiceJs.outOfRange lo hi /\ w' = w)).
Proof.
  unfold DiceJs.randomInt. destruct (Z.leb_spec hi lo) as [Hn|Hn].
  - intros E. injection E as <- <-. split; [reflexivity|]. right. repeat split. exact Hn.
  - intros E. apply randomIntLoop_raises in E. destruct E as [-> Ho].
    split; [exact Ho|]. left. split; [exact Hn | reflexivity].
Qed.

Lemma randomIntLoop_never_waits (fuel : nat) (lo range randLimit : Z) (w w' : World) :
  DiceJs.randomIntLoop fuel lo range randLimit w = Waiting w' -> False.
Proof.
  revert w. induction fuel as [|fuel IH]; intros w; simpl; [discriminate|].
  unfold randomBytes. destruct (_ <? _)%nat; [discriminate|].
  destruct (_ <? randLimit); [discriminate | apply IH].
Qed.

Lemma randomInt_never_waits (lo hi : Z) (w w' : World) :
  DiceJs.randomInt lo hi w = Waiting w' -> False.
Proof.
  unfold DiceJs.randomInt. destruct (hi <=? lo); [discriminate|].
  apply randomIntLoop_never_waits.
Qed.

Lemma randomInt_sound (lo hi : Z) (w : World) :
  lo < hi -> sound (DiceJs.randomInt lo hi) (fun v _ => lo <= v < hi) w.
Proof.
  intros Hn. unfold sound.
  destruct (DiceJs.randomInt lo hi w) as [v w'|e w'|w'] eqn:E; [| |exact I].
  - apply randomInt_spec in E. tauto.
  - apply randomInt_raises in E. destruct E as [_ [[_ E] | [E _]]]; [exact E | lia].
Qed.

Lemma js_index_in_range {A : Type} (l : list A) (i : Z) :
  0 <= i < Z.of_nat (length l) ->
  exists x, js_index l i = Some x /\ nth_error l (Z.to_nat i) = Some x.
Proof.
  intros Hi. unfold js_index. destruct (Z.ltb_spec i 0); [lia|].
  destruct (nth_error l (Z.to_nat i)) as [x|] eqn:E.
  - exists x. split; reflexivity.
  - apply nth_error_None in E. lia.
Qed.

Lemma js_index_out_of_range {A : Type} (l : list A) (i : Z) (x : A) :
  js_index l i = Some x -> 0 <= i < Z.of_nat (length l) /\ nth_error l (Z.to_nat i) = Some x.
Proof.
  unfold js_index. destruct (Z.ltb_spec i 0); [discriminate|]. intros E.
  split; [|exact E]. assert (nth_error l (Z.to_nat i) <> None) by congruence.
  apply nth_error_Some in H0. lia.
Qed.

Lemma selectUserDieWith_selected (help : Z -> message) (g : Game) (w : World) :
  (forall n, isChatter (help n) = true) ->
  selected g w (selectUserDieWith (fun n => getUserInputWith (help n) n) g w).
Proof.
  intros Hh. unfold selectUserDieWith.
  cbv beta delta [bind log] iota. rewrite !logAll_run. cbv beta iota.
  set (menu := map _ (combine _ (dice g))).
  assert (Hmenu : forallb isChatter menu = true).
  { subst menu. induction (combine _ (dice g)) as [|x l IH]; [reflexivity | exact IH]. }
  set (n := Z.of_nat (length (dice g)) - 1).
  match goal with |- context [getUserInputWith (help n) n ?w3] =>
    pose proof (getUserInputWith_answered (help n) n w3 (Hh n)) as U;
    destruct (getUserInputWith (help n) n w3) as [[c|] w4|e w4|w4]
  end;
    destruct U as [chat [consumed [Hc [Hs [He [_ U]]]]]];
    cbn [worldOf entropy stdin stdout setStdout] in *.
  - destruct U as [Hr [Ho _]]. subst n.
    destruct (js_index_in_range (dice g) c ltac:(lia)) as [d [-> Hd]].
    unfold selected, ret. cbn [worldOf entropy stdout setStdout].
    split; [exact He|]. split; [reflexivity|]. split; [reflexivity|].
    exists ((Text "Pick your die:" :: menu) ++ exitAndHelp ++ chat)%list. split.
    { rewrite !forallb_app. cbn [forallb isChatter]. rewrite Hmenu, Hc. reflexivity. }
    right. exists (Z.to_nat c), d. split; [exact Hd|]. split; [reflexivity|].
    rewrite Ho. repeat rewrite <- app_assoc. reflexivity.
  - destruct U as [Ho _]. unfold selected, ret. cbn [worldOf].
    split; [exact He|]. split; [reflexivity|]. split; [reflexivity|].
    exists ((Text "Pick your die:" :: menu) ++ exitAndHelp ++ chat)%list. split.
    { rewrite !forallb_app. cbn [forallb isChatter]. rewrite Hmenu, Hc. reflexivity. }
    left. split; [reflexivity|]. rewrite Ho. repeat rewrite <- app_assoc. reflexivity.
  - destruct U.
  - destruct U as [_ Hi]. unfold selected. cbn [worldOf]. split; assumption.
Qed.

(** X19: what [selectUserDie()] does, in both files.  It never throws and
    takes nothing from the random source.  When it returns, [this.dice]
    and [this.computerDie] are what they were, and either the human has
    cancelled, the game is unchanged and ['Game cancelled.'] is the last
    line, or [this.userDie] is one of [this.dice] and ['You picked: ...']
    with its faces is the last line; before it only the menu, prompts, help
    and range messages are printed. *)
Theorem selectUserDie_contract (g : Game) (w : World) :
  selected g w (selectUserDie g w) /\ selected g w (DiceJs.selectUserDie g w).
Proof.
  split.
  - apply (selectUserDieWith_selected (fun _ => help01)). reflexivity.
  - apply (selectUserDieWith_selected DiceJs.helpRange). reflexivity.
Qed.

Lemma setComputerDie_picked (draw : M Z) (refusal : string -> Prop) (g : Game)
      (w w1 : World)
      (i : Z) :
  draw w = Ret i w1 -> stdout w1 = stdout w ->
  0 <= i < Z.of_nat (length (dice g)) ->
  picked draw refusal g w (setComputerDie g i w1).
Proof.
  intros D Ho Hi. unfold setComputerDie.
  destruct (js_index_in_range (dice g) i Hi) as [d [-> Hd]].
  unfold picked, bind, log, ret. exists (Z.to_nat i), d.
  split; [exact Hd|]. split; [reflexivity|].
  cbn [stdout setStdout]. rewrite setStdout_twice, <- Ho, setStdout_same.
  rewrite Z2Nat.id by lia. split; [exact D | reflexivity].
Qed.

Lemma pickComputerDie_picked (g : Game) (w : World) :
  picked (secureRandomIndex (Z.of_nat (length (dice g)) - 1))
         (fun e => e = "max must be non-negative"%string) g w (pickComputerDie g w).
Proof.
  unfold pickComputerDie, bind.
  pose proof (secureRandomIndex_frame (Z.of_nat (length (dice g)) - 1) w) as [_ [_ Fo]].
  destruct (secureRandomIndex _ w) as [i w1|e w1|w1] eqn:E; cbn [worldOf] in Fo.
  - apply (setComputerDie_picked _ _ g w w1 i E Fo).
    apply secureRandomIndex_range in E. lia.
  - unfold picked. split; [exact Fo|].
    apply secureRandomIndex_raises in E. destruct E as [[Hn ->] | [Hn [-> ->]]].
    + left. split; [|reflexivity]. intros D. rewrite D in Hn. simpl in Hn. lia.
    + right. split; [|split; reflexivity].
      destruct (dice g); [reflexivity | cbn [length] in Hn; lia].
  - destruct (secureRandomIndex_never_waits _ _ _ E).
Qed.

Lemma pickRandomDie_picked (g : Game) (w : World) :
  picked (DiceJs.randomInt 0 (Z.of_nat (length (dice g)))) (fun _ => True)
         g w (DiceJs.pickRandomDie g w).
Proof.
  unfold DiceJs.pickRandomDie, bind.
  destruct (DiceJs.randomInt 0 _ w) as [i w1|e w1|w1] eqn:E.
  - pose proof (randomInt_spec _ _ _ _ _ E) as [Hi [_ [_ Ho]]].
    apply (setComputerDie_picked _ _ g w w1 i E Ho). exact Hi.
  - unfold picked. apply randomInt_raises in E.
    destruct E as [Ho [[Hn ->] | [Hn [-> ->]]]]; (split; [exact Ho || reflexivity|]).
    + left. split; [|reflexivity]. intros D. rewrite D in Hn. simpl in Hn. lia.
    + right. split; [|split; [exact I | reflexivity]].
      destruct (dice g); [reflexivity | cbn [length] in Hn; lia].
  - destruct (randomInt_never_waits _ _ _ _ E).
Qed.

(** X20: how the computer comes by its die.  In the commit-reveal game the
    index is [secureRandomIndex(dice.length - 1)], in [dice.js]
    [crypto.randomInt(0, dice.length)]; in both the die taken is the one at
    that index of [this.dice], ['Computer picks die: ...'] with its faces
    is the one line printed, and the human's die is left alone.  The
    choice never reads a property of [undefined]: it fails only when the
    random source does, or, for a game without dice, because the sampler
    refuses the empty range, before anything is printed and with the world
    as it was; in the commit-reveal game the message then is
    ['max must be non-negative'], in [dice.js] it is the host's and is
    left open. *)
Theorem pickComputerDie_contract (g : Game) (w : World) :
  picked (secureRandomIndex (Z.of_nat (length (dice g)) - 1))
         (fun e => e = "max must be non-negative"%string) g w (pickComputerDie g w)
  /\ picked (DiceJs.randomInt 0 (Z.of_nat (length (dice g)))) (fun _ => True)
            g w (DiceJs.pickRandomDie g w).
Proof.
  split; [apply pickComputerDie_picked | apply pickRandomDie_picked].
Qed.


(** ** Further properties: the exceptions of a match *)

Lemma sound_ret {A : Type} (a : A) (Q : A -> World -> Prop) (w : World) :
  Q a w -> sound (ret a) Q w.
Proof. intros H. exact H. Qed.

Lemma getUserInputWith_sound (help : message) (n : Z) (w : World) :
  isChatter help = true ->
  sound (getUserInputWith help n)
        (fun r _ => match r with Some v => 0 <= v <= n | None => True end) w.
Proof.
  intros Hh. pose proof (getUserInputWith_answered help n w Hh) as U.
  unfold sound. destruct (getUserInputWith help n w) as [[v|] w'|e w'|w'];
    destruct U as [chat [consumed [_ [_ [_ [_ U]]]]]]; try tauto.
Qed.

Lemma sound_showOptions {A : Type} (n : Z) (k : M A) (Q : A -> World -> Prop) (w : World) :
  (forall w', sound k Q w') -> sound (showOptions n ;;; k) Q w.
Proof.
  intros K. unfold sound, bind. destruct (showOptions_run n w) as [chat [_ ->]]. apply K.
Qed.

Lemma new_FairRandomGenerator_sound (m : Z) (w : World) :
  0 <= m ->
  sound (new_FairRandomGenerator m)
        (fun g _ => max g = m /\ 0 <= computerNumber g <= m) w.
Proof.
  intros Hm. unfold sound.
  destruct (new_FairRandomGenerator m w) as [g w'|e w'|w'] eqn:E; [| |exact I].
  - split; [|eapply generator_number_range; exact E].
    apply new_FairRandomGenerator_Ret in E. tauto.
  - unfold new_FairRandomGenerator, bind, generateKey in E.
    destruct (randomBytes 32 w) as [k w1|e1 w1|w1] eqn:R; try discriminate.
    + destruct (secureRandomIndex m w1) as [v w2|e2 w2|w2] eqn:V; try discriminate.
      injection E as <- _. apply secureRandomIndex_raises in V.
      destruct V as [[_ V] | [V _]]; [exact V | lia].
    + injection E as <- _. apply randomBytes_raises in R. tauto.
Qed.

Lemma roll_sound (title intro : string) (d : Dice) (w : World) :
  1 <= numFaces d -> sound (roll title intro (Some d)) (fun _ _ => True) w.
Proof.
  intros Hd. unfold roll. apply sound_log.
  eapply sound_bind; [apply new_FairRandomGenerator_sound; lia|].
  intros generator w1 _. do 2 apply sound_log. apply sound_showOptions. intros w2.
  eapply sound_bind; [apply (getUserInputWith_sound help01); reflexivity|].
  intros [u|] w3 _; exact I.
Qed.

Lemma decideFirstPlayer_sound (w : World) :
  sound decideFirstPlayer (fun _ _ => True) w.
Proof.
  unfold decideFirstPlayer. apply sound_log.
  eapply sound_bind; [apply new_FairRandomGenerator_sound; lia|].
  intros generator w1 _. do 2 apply sound_log. do 2 apply sound_logAll.
  eapply sound_bind; [apply (getUserInputWith_sound help01); reflexivity|].
  intros [u|] w3 _; exact I.
Qed.

(** The dice that the two sides hold are dice of the game. *)
Lemma pickComputerDie_sound (g : Game) (w : World) :
  dice g <> [] ->
  sound (pickComputerDie g)
        (fun g' _ => dice g' = dice g /\ userDie g' = userDie g
                     /\ exists d, computerDie g' = Some d /\ In d (dice g)) w.
Proof.
  intros Hne. pose proof (pickComputerDie_picked g w) as P. unfold sound.
  destruct (pickComputerDie g w) as [g' w'|e w'|w']; cbn [picked] in P.
  - destruct P as [i [d [Hd [-> _]]]]. repeat split. exists d.
    split; [reflexivity | eapply nth_error_In; exact Hd].
  - destruct P as [_ [[_ E] | [E _]]]; [exact E | contradiction].
  - exact I.
Qed.

Lemma pickRandomDie_sound (g : Game) (w : World) :
  dice g <> [] ->
  sound (DiceJs.pickRandomDie g)
        (fun g' _ => dice g' = dice g /\ userDie g' = userDie g
                     /\ exists d, computerDie g' = Some d /\ In d (dice g)) w.
Proof.
  intros Hne. pose proof (pickRandomDie_picked g w) as P. unfold sound.
  destruct (DiceJs.pickRandomDie g w) as [g' w'|e w'|w']; cbn [picked] in P.
  - destruct P as [i [d [Hd [-> _]]]]. repeat split. exists d.
    split; [reflexivity | eapply nth_error_In; exact Hd].
  - destruct P as [_ [[_ E] | [E _]]]; [exact E | contradiction].
  - exact I.
Qed.

Lemma selectUserDieWith_sound (help : Z -> message) (g : Game) (w : World) :
  (forall n, isChatter (help n) = true) ->
  sound (selectUserDieWith (fun n => getUserInputWith (help n) n) g)
        (fun g' _ => dice g' = dice g /\ computerDie g' = computerDie g
                     /\ (userDie g' = userDie g
                         \/ exists d, userDie g' = Some d /\ In d (dice g))) w.
Proof.
  intros Hh. pose proof (selectUserDieWith_selected help g w Hh) as [_ P]. unfold sound.
  destruct (selectUserDieWith _ g w) as [g' w'|e w'|w']; [|destruct P|exact I].
  destruct P as [Hd [Hc [chat [_ [[-> _] | [i [d [Hi [Hu _]]]]]]]]].
  - repeat split. left. reflexivity.
  - split; [exact Hd|]. split; [exact Hc|]. right. exists d.
    split; [exact Hu | eapply nth_error_In; exact Hi].
Qed.

Lemma announce_returns (g : Game) (u c : jsval) (w : World) :
  announce g u c w
  = Ret tt (setStdout w (stdout w ++ [YourRoll u; ComputerRoll c; Verdict (judge u c);
                                      TableCaption; generateProbabilityTable (dice g)])).
Proof.
  unfold announce, bind, log. cbn [stdout setStdout]. rewrite !setStdout_twice.
  repeat rewrite <- app_assoc. reflexivity.
Qed.

Lemma run_sound (g : Game) (w : World) :
  dice g <> [] -> Forall wellFormed (dice g) -> userDie g = None ->
  sound (run g) (fun _ _ => True) w.
Proof.
  intros Hne Hw Hu. unfold run.
  eapply sound_bind; [apply decideFirstPlayer_sound|].
  intros [first|] w1 _; [|exact I].
  rewrite Forall_forall in Hw.
  eapply sound_bind with
    (Q1 := fun g' _ => (forall d, userDie g' = Some d -> In d (dice g))
                       /\ (forall d, computerDie g' = Some d -> In d (dice g))).
  - destruct first.
    + eapply sound_bind; [apply pickComputerDie_sound; exact Hne|].
      intros g1 w2 [Hd1 [Hu1 [d1 [Hc1 Hin1]]]].
      eapply sound_conseq;
        [apply (selectUserDieWith_sound (fun _ => help01)); reflexivity|].
      intros g2 w3 [Hd2 [Hc2 Hu2]]. split.
      * intros d E. destruct Hu2 as [Hu2 | [d2 [Hu2 Hin2]]]; [congruence|].
        rewrite Hd1 in Hin2. congruence.
      * intros d E. congruence.
    + eapply sound_bind;
        [apply (selectUserDieWith_sound (fun _ => help01)); reflexivity|].
      intros g1 w2 [Hd1 [Hc1 Hu1]].
      eapply sound_conseq; [apply pickComputerDie_sound; congruence|].
      intros g2 w3 [Hd2 [Hu2 [d2 [Hc2 Hin2]]]]. split.
      * intros d E. destruct Hu1 as [Hu1 | [d1 [Hu1 Hin1]]]; congruence.
      * intros d E. rewrite Hd1 in Hin2. congruence.
  - intros g' w2 [Hud Hcd]. cbv beta.
    destruct (userDie g') as [ud|] eqn:Eu; [|exact I].
    destruct (computerDie g') as [cd|] eqn:Ec; [|exact I].
    unfold computerRoll, userRoll. rewrite Eu, Ec.
    eapply sound_bind; [apply roll_sound; apply (Hw cd), Hcd; reflexivity|].
    intros cf w3 _. destruct (js_eq cf Null); [exact I|].
    eapply sound_bind; [apply roll_sound; apply (Hw ud), Hud; reflexivity|].
    intros uf w4 _. destruct (js_eq uf Null); [exact I|].
    unfold sound, bind. rewrite announce_returns. exact I.
Qed.

Lemma DiceJs_run_sound (g : Game) (w : World) :
  dice g <> [] -> Forall wellFormed (dice g) -> userDie g = None ->
  sound (DiceJs.run g) (fun _ _ => True) w.
Proof.
  intros Hne Hw Hu. unfold DiceJs.run.
  eapply sound_bind; [apply randomInt_sound; lia|].
  intros coin w1 _. cbv zeta. apply sound_log.
  rewrite Forall_forall in Hw.
  eapply sound_bind with
    (Q1 := fun g' _ => (forall d, userDie g' = Some d -> In d (dice g))
                       /\ (forall d, computerDie g' = Some d -> In d (dice g))).
  - destruct (coin =? 0).
    + eapply sound_bind; [apply pickRandomDie_sound; exact Hne|].
      intros g1 w2 [Hd1 [Hu1 [d1 [Hc1 Hin1]]]].
      eapply sound_conseq;
        [apply (selectUserDieWith_sound DiceJs.helpRange); reflexivity|].
      intros g2 w3 [Hd2 [Hc2 Hu2]]. split.
      * intros d E. destruct Hu2 as [Hu2 | [d2 [Hu2 Hin2]]]; [congruence|].
        rewrite Hd1 in Hin2. congruence.
      * intros d E. congruence.
    + eapply sound_bind;
        [apply (selectUserDieWith_sound DiceJs.helpRange); reflexivity|].
      intros g1 w2 [Hd1 [Hc1 Hu1]].
      eapply sound_conseq; [apply pickRandomDie_sound; congruence|].
      intros g2 w3 [Hd2 [Hu2 [d2 [Hc2 Hin2]]]]. split.
      * intros d E. destruct Hu1 as [Hu1 | [d1 [Hu1 Hin1]]]; congruence.
      * intros d E. rewrite Hd1 in Hin2. congruence.
  - intros g' w2 [Hud Hcd]. cbv beta.
    destruct (userDie g') as [ud|] eqn:Eu; [|exact I].
    destruct (computerDie g') as [cd|] eqn:Ec; [|exact I].
    unfold DiceJs.computerRoll, DiceJs.userRoll. rewrite Eu, Ec.
    eapply sound_bind with (Q1 := fun _ _ => True).
    { assert (Hn : 1 <= numFaces cd) by (apply (Hw cd), Hcd; reflexivity).
      eapply sound_bind; [apply randomInt_sound; lia|].
      intros i w3 _. exact I. }
    intros cf w3 _.
    eapply sound_bind with (Q1 := fun _ _ => True).
    { apply sound_log. apply sound_showOptions. intros w4.
      eapply sound_bind;
        [apply (getUserInputWith_sound (DiceJs.helpRange (numFaces ud - 1))); reflexivity|].
      intros [u|] w5 _; exact I. }
    intros uf w4 _. unfold sound, bind. rewrite announce_returns. exact I.
Qed.

Lemma parseDice_playable (args : list string) (ds : list Dice) :
  parseDice args = Ok ds -> ds <> [] /\ Forall wellFormed ds.
Proof.
  unfold parseDice. destruct (Nat.ltb_spec (length args) 3) as [|Hl]; [discriminate|].
  intros H. apply parseArgs_invariant in H; [|constructor].
  destruct H as [Hw Hlen]. split; [|exact Hw].
  intros ->. simpl in Hlen. lia.
Qed.

(** X21: a match on parsed dice raises no internal error.  For the dice
    that [parseDice] returns, [run] never throws ['max must be
    non-negative'], never reads a property of [undefined] or [null] (no
    TypeError), in either file; the one exception a match can end with is
    the failure of the random source. *)
Theorem run_raises_no_internal_error (args : list string) (ds : list Dice) (w : World) :
  parseDice args = Ok ds ->
  (forall e w', run (new_Game ds) w = Threw e w' -> e = entropyError)
  /\ (forall e w', DiceJs.run (new_Game ds) w = Threw e w' -> e = entropyError).
Proof.
  intros P. apply parseDice_playable in P. destruct P as [Hne Hw]. split; intros e w' E.
  - pose proof (run_sound (new_Game ds) w Hne Hw eq_refl) as S.
    unfold sound in S. rewrite E in S. exact S.
  - pose proof (DiceJs_run_sound (new_Game ds) w Hne Hw eq_refl) as S.
    unfold sound in S. rewrite E in S. exact S.
Qed.

Lemma run_raises_no_internal_error_witness :
  let w := {| hashes := []; entropy := repeat x2a 20; stdin := []; stdout := [] |} in
  parseDice ["2,2,4,4,9,9"; "1,1,6,6,8,8"; "3,3,5,5,7,7"]%string = Ok classicDice
  /\ (forall e w', run (new_Game classicDice) w = Threw e w' -> e = entropyError)
  /\ (forall e w', DiceJs.run (new_Game classicDice) w = Threw e w' -> e = entropyError).
Proof.
  intros w.
  assert (P : parseDice ["2,2,4,4,9,9"; "1,1,6,6,8,8"; "3,3,5,5,7,7"]%string = Ok classicDice)
    by (vm_compute; reflexivity).
  split; [exact P|]. exact (run_raises_no_internal_error _ classicDice w P).
Defined.

Lemma main_reported (parse : list string -> result (list Dice)) (play : Game -> M Game)
      (args : list string) (w : World) :
  (forall ds e w', parse args = Ok ds -> play (new_Game ds) w = Threw e w' ->
                   e = entropyError) ->
  reported parse play args w
    ((match parse args with
      | Throw e => log (ErrorLine e)
      | Ok dice =>
          fun w => match play (new_Game dice) w with
                   | Ret _ w' => Ret tt w'
                   | Threw e w' => log (ErrorLine e) w'
                   | Waiting w' => Waiting w'
                   end
      end) w).
Proof.
  intros S. unfold reported. destruct (parse args) as [ds|e].
  - destruct (play (new_Game ds) w) as [g w'|e w'|w'] eqn:R; cbn [log].
    + left. exists ds, g. split; [reflexivity | exact R].
    + right. exists e, w'. split; [reflexivity|]. right. exists ds.
      split; [reflexivity|]. split; [exact R|]. eapply S; [reflexivity | exact R].
    + exists ds. split; [reflexivity | exact R].
  - cbn [log]. right. exists e, w. split; [reflexivity|]. left.
    split; reflexivity.
Qed.

(** X22: [main()] lets no exception out, in either file.  An error of the
    parser is printed as one line ['Error: ...'] and nothing else happens:
    no match starts, no random byte is drawn, no line of input is read.  An
    exception of the match is printed in the same way after what the match
    had printed, and it can only be the failure of the random source.
    Otherwise [main] ends as the match does. *)
Theorem main_reports_errors (args : list string) (w : World) :
  reported parseDice run args w (main args w)
  /\ reported DiceJs.parseDice DiceJs.run args w (DiceJs.main args w).
Proof.
  split.
  - apply (main_reported parseDice run args w). intros ds e w' P E.
    apply parseDice_playable in P. destruct P as [Hne Hw].
    pose proof (run_sound (new_Game ds) w Hne Hw eq_refl) as S.
    unfold sound in S. rewrite E in S. exact S.
  - apply (main_reported DiceJs.parseDice DiceJs.run args w). intros ds e w' P E.
    rewrite DiceJs_parseDice_same in P.
    apply parseDice_playable in P. destruct P as [Hne Hw].
    pose proof (DiceJs_run_sound (new_Game ds) w Hne Hw eq_refl) as S.
    unfold sound in S. rewrite E in S. exact S.
Qed.


(** ** Further properties: how a match ends *)

Lemma unresolved_quietly (w w' : World) : quietly w w' -> unresolved w w'.
Proof.
  intros [delta [G Q]]. exists delta. split; [exact G | apply noAnnouncement_quiet; exact Q].
Qed.

Lemma unresolved_cancelling (w w' : World) : cancelling w w' -> unresolved w w'.
Proof.
  intros [delta [G Q]]. exists (delta ++ [Cancelled])%list. split; [exact G|].
  unfold noAnnouncement. rewrite forallb_app.
  apply noAnnouncement_quiet in Q. unfold noAnnouncement in Q. rewrite Q. reflexivity.
Qed.

Lemma unresolved_then_quietly (w w1 w2 : World) :
  unresolved w w1 -> quietly w1 w2 -> unresolved w w2.
Proof.
  intros [d1 [G1 Q1]] [d2 [G2 Q2]]. exists (d1 ++ d2)%list.
  split; [eapply grows_trans; eassumption|].
  unfold noAnnouncement in *. rewrite forallb_app, Q1.
  apply noAnnouncement_quiet in Q2. exact Q2.
Qed.

Lemma not_null (v : jsval) : js_eq v Null = false -> v <> Null.
Proof. intros H ->. discriminate. Qed.



(** *** The same for [dice.js] *)

Lemma randomIntLoop_frame (fuel : nat) (lo range randLimit : Z) (w : World) :
  hashes (worldOf (DiceJs.randomIntLoop fuel lo range randLimit w)) = hashes w
  /\ stdin (worldOf (DiceJs.randomIntLoop fuel lo range randLimit w)) = stdin w
  /\ stdout (worldOf (DiceJs.randomIntLoop fuel lo range randLimit w)) = stdout w.
Proof.
  revert w. induction fuel as [|fuel IH]; intros w; simpl; [repeat split|].
  unfold randomBytes. destruct (_ <? _)%nat; [repeat split|].
  destruct (_ <? randLimit); [repeat split|].
  destruct (IH (setEntropy w (skipn (Z.to_nat 6) (entropy w)))) as [H1 [H2 H3]].
  rewrite H1, H2, H3. repeat split.
Qed.

Lemma randomInt_phase (lo hi : Z) (w0 w : World) :
  quietly w0 w ->
  wp (DiceJs.randomInt lo hi) (fun _ w' => quietly w0 w') (quietly w0) w.
Proof.
  intros H0.
  assert (F : hashes (worldOf (DiceJs.randomInt lo hi w)) = hashes w
              /\ stdin (worldOf (DiceJs.randomInt lo hi w)) = stdin w
              /\ stdout (worldOf (DiceJs.randomInt lo hi w)) = stdout w).
  { unfold DiceJs.randomInt. destruct (hi <=? lo); [repeat split|].
    apply randomIntLoop_frame. }
  pose proof (frame_quietly _ _ _ H0 F) as Q.
  unfold wp. destruct (DiceJs.randomInt lo hi w); exact Q.
Qed.

Lemma pickRandomDie_phase (g : Game) (w0 w : World) :
  quietly w0 w ->
  wp (DiceJs.pickRandomDie g)
     (fun g' w' => quietly w0 w' /\ userDie g' = userDie g /\ dice g' = dice g
                   /\ computerDie g' <> None)
     (quietly w0) w.
Proof.
  intros H. unfold DiceJs.pickRandomDie.
  eapply wp_call; [apply randomInt_phase; eassumption | | auto].
  intros i w1 H1. cbv beta in *. unfold setComputerDie.
  destruct (js_index (dice g) i) as [d|]; [|exact H1].
  quiet_log. repeat split; [assumption | discriminate].
Qed.

Lemma DiceJs_computerRoll_phase (g : Game) (w0 w : World) :
  quietly w0 w ->
  wp (DiceJs.computerRoll g) (fun v w' => quietly w0 w' /\ v <> Null) (quietly w0) w.
Proof.
  intros H. unfold DiceJs.computerRoll. destruct (computerDie g) as [d|]; [|exact H].
  eapply wp_call; [apply randomInt_phase; eassumption | | auto].
  intros i w1 H1. cbv beta in *. unfold wp, ret.
  split; [exact H1 | apply not_null, getFace_not_null].
Qed.

Lemma DiceJs_userRoll_phase (g : Game) (w0 w : World) :
  quietly w0 w ->
  wp (DiceJs.userRoll g)
     (fun v w' => (v <> Null /\ quietly w0 w') \/ (v = Null /\ cancelling w0 w'))
     (quietly w0) w.
Proof.
  intros H. unfold DiceJs.userRoll. destruct (userDie g) as [d|]; [|exact H].
  quiet_log.
  eapply showOptions_phase; [eassumption|]. intros w5 H5.
  eapply wp_call;
    [apply (getUserInput_phase (DiceJs.helpRange (numFaces d - 1)));
     [reflexivity | eassumption] | | auto].
  intros [u|] w6 H6; cbv beta in *; unfold wp, ret.
  - left. split; [apply not_null, getFace_not_null | tauto].
  - right. split; [reflexivity | exact H6].
Qed.

(** Choosing a die, with what becomes of the fields of the game. *)
Lemma selectUserDie_chosen (help : Z -> message) (g : Game) (w0 w : World) :
  (forall n, isChatter (help n) = true) ->
  quietly w0 w ->
  wp (selectUserDieWith (fun n => getUserInputWith (help n) n) g)
     (fun g' w' => (quietly w0 w' /\ dice g' = dice g /\ computerDie g' = computerDie g
                    /\ userDie g' <> None)
                   \/ (cancelling w0 w' /\ g' = g))
     (quietly w0) w.
Proof.
  intros Hh H. unfold selectUserDieWith. quiet_log.
  apply wp_logAll.
  match goal with |- wp _ _ _ (setStdout ?w1 (stdout ?w1 ++ ?ms)) =>
    assert (Hl : quietly w0 (setStdout w1 (stdout w1 ++ ms)));
    [apply quietly_log; [assumption|] | set (w2 := setStdout w1 (stdout w1 ++ ms)) in *;
                                        clearbody w2; clear Hq]
  end.
  { apply quiet_of_chatter.
    induction (combine (indices (Z.of_nat (length (dice g)))) (dice g)) as [|x l IH];
      [reflexivity | exact IH]. }
  quiet_log.
  eapply wp_call; [apply getUserInput_phase; [apply Hh | eassumption] | | auto].
  intros [c|] w4 H4; cbv beta in *.
  - destruct H4 as [_ H4]. destruct (js_index (dice g) c) as [d|].
    + quiet_log. left. repeat split; [assumption | discriminate].
    + exact H4.
  - right. split; [exact H4 | reflexivity].
Qed.

Lemma announce_resolves_anyway (g : Game) (u c : jsval) (w w1 : World) :
  (u <> Null /\ quietly w w1) \/ (u = Null /\ cancelling w w1) ->
  c <> Null ->
  wp (announce g u c ;;; ret g)
     (fun g' w' => g' = g /\ resolvedAnyway (dice g) w w')
     (unresolved w) w1.
Proof.
  intros H Hc. unfold wp, bind. rewrite announce_returns. unfold ret.
  split; [reflexivity|].
  destruct H as [[Hu [q [[Gh Go] Q]]] | [Hu [q [[Gh Go] Q]]]].
  - exists q, u, c. split; [|split; [exact Hc | left; split; assumption]].
    split; cbn [hashes stdout setStdout]; [exact Gh|].
    rewrite Go, <- app_assoc. reflexivity.
  - exists (q ++ [Cancelled])%list, u, c. split; [|split; [exact Hc|]].
    + split; cbn [hashes stdout setStdout]; [exact Gh|].
      rewrite Go, <- !app_assoc. reflexivity.
    + right. split; [exact Hu|]. exists q. split; [reflexivity | exact Q].
Qed.

(** X25: how a match of [dice.js] ends.  [run] prints the resolution
    whenever both sides have a die, and then as its last five lines; it
    does not look at whether the human's roll was cancelled.  So when the
    human types X at the prompt of the roll, ['Game cancelled.'] is
    followed at once by ['Your roll: null'], the computer's roll, a verdict
    on [null] and the table.  Only a cancellation of the choice of the die
    (or an exception, or the end of the input) ends the match without a
    resolution. *)
Theorem DiceJs_run_resolves_anyway (ds : list Dice) (w : World) :
  match DiceJs.run (new_Game ds) w with
  | Ret g w' =>
      dice g = ds
      /\ ((userDie g = None /\ unresolved w w')
          \/ (userDie g <> None /\ computerDie g <> None /\ resolvedAnyway ds w w'))
  | Threw _ w' => unresolved w w'
  | Waiting w' => unresolved w w'
  end.
Proof.
  assert (P : forall g, userDie g = None ->
                        wp (DiceJs.run g)
                           (fun g' w' =>
                              dice g' = dice g
                              /\ ((userDie g' = None /\ unresolved w w')
                                  \/ (userDie g' <> None /\ computerDie g' <> None
                                      /\ resolvedAnyway (dice g) w w')))
                           (unresolved w) w).
  { intros g Hu. unfold DiceJs.run.
    eapply wp_call; [apply (randomInt_phase 0 2 w w), quietly_refl | |].
    2: { intros w' H. apply unresolved_quietly. exact H. }
    intros coin w0 H0. cbv beta zeta in *. quiet_log.
    eapply wp_call with
      (Q1 := fun g' w' => dice g' = dice g
                          /\ ((quietly w w' /\ computerDie g' <> None)
                              \/ (unresolved w w' /\ userDie g' = None)))
      (X1 := unresolved w).
    - destruct (coin =? 0).
      + eapply wp_call; [apply (pickRandomDie_phase g w); eassumption | |].
        2: { intros w' H. apply unresolved_quietly. exact H. }
        intros g1 w2 [H2 [Hu1 [Hd1 Hc1]]]. cbv beta in *.
        eapply wp_conseq;
          [apply (selectUserDie_chosen DiceJs.helpRange g1 w w2); [reflexivity | exact H2] | |].
        * intros g2 w3 [[H3 [Hd2 [Hc2 Hu2]]] | [H3 ->]].
          -- split; [congruence|]. left. split; [exact H3 | congruence].
          -- split; [congruence|]. right.
             split; [apply unresolved_cancelling; exact H3 | congruence].
        * intros w' H. apply unresolved_quietly. exact H.
      + eapply wp_call;
          [apply (selectUserDie_chosen DiceJs.helpRange g w); [reflexivity | eassumption] | |].
        2: { intros w' H. apply unresolved_quietly. exact H. }
        intros g1 w2 [[H2 [Hd1 [Hc1 Hu1]]] | [H2 ->]]; cbv beta in *.
        * eapply wp_conseq; [apply (pickRandomDie_phase g1 w w2); exact H2 | |].
          -- intros g2 w3 [H3 [_ [Hd2 Hc2]]]. split; [congruence|]. left.
             split; assumption.
          -- intros w' H. apply unresolved_quietly. exact H.
        * eapply wp_conseq; [apply (pickRandomDie_phase g w2 w2), quietly_refl | |].
          -- intros g2 w3 [H3 [Hu2 [Hd2 _]]]. split; [exact Hd2|]. right.
             split; [|congruence].
             eapply unresolved_then_quietly; [apply unresolved_cancelling; exact H2 | exact H3].
          -- intros w' H.
             eapply unresolved_then_quietly; [apply unresolved_cancelling; exact H2 | exact H].
    - intros g' w2 [Hd [[H2 Hc] | [H2 Hu2]]]; cbv beta in *.
      2: { rewrite Hu2. split; [exact Hd|]. left. split; assumption. }
      destruct (userDie g') as [ud|] eqn:Eu;
        [|split; [exact Hd|]; left; split; [exact Eu | apply unresolved_quietly; exact H2]].
      destruct (computerDie g') as [cd|] eqn:Ec; [|contradiction].
      eapply wp_call; [apply (DiceJs_computerRoll_phase g' w w2); exact H2 | |].
      2: { intros w' H. apply unresolved_quietly. exact H. }
      intros cf w3 [H3 Hcf]. cbv beta in *.
      eapply wp_call; [apply (DiceJs_userRoll_phase g' w w3); exact H3 | |].
      2: { intros w' H. apply unresolved_quietly. exact H. }
      intros uf w4 H4. cbv beta in *.
      eapply wp_conseq; [apply (announce_resolves_anyway g' uf cf w w4 H4 Hcf) | |].
      + intros g2 w5 [-> R]. rewrite Hd in R. split; [exact Hd|]. right.
        rewrite Eu, Ec. repeat split; [discriminate | discriminate | exact R].
      + intros w' H. exact H.
    - intros w' H. exact H. }
  specialize (P (new_Game ds) eq_refl). unfold wp in P.
  destruct (DiceJs.run (new_Game ds) w); exact P.
Qed.


(** ** Further properties: a sample coin flip and a sample generator *)

Lemma coin_flip_sample_run :
  decideFirstPlayer (setStdin coinFlipWorld ["0"; "x"]%string) = Ret (Some true) coinFlipEnd.
Proof.
  assert (G : new_FairRandomGenerator 1 coinFlipWorld
              = Ret {| max := 1; key := sampleKey; computerNumber := 0;
                       hmac := computeHMAC [] sampleKey 0 |}
                    (setEntropy coinFlipWorld [])).
  { unfold new_FairRandomGenerator, bind, generateKey.
    assert (E1 : randomBytes 32 coinFlipWorld = Ret sampleKey (setEntropy coinFlipWorld [x04]))
      by reflexivity.
    rewrite E1.
    assert (E2 : secureRandomIndex 1 (setEntropy coinFlipWorld [x04])
                 = Ret 0 (setEntropy coinFlipWorld []))
      by (vm_compute; reflexivity).
    rewrite E2. reflexivity. }
  change "0"%string with (toString 0).
  rewrite (decideFirstPlayer_on_choice coinFlipWorld 0 ["x"]%string) by lia.
  rewrite G. reflexivity.
Qed.

Lemma decideFirstPlayer_round_witness :
  let w := setStdin coinFlipWorld ["0"; "x"]%string in
  decideFirstPlayer w = Ret (Some true) coinFlipEnd
  /\ exists (g : FairRandomGenerator) (w1 : World) (chat : list message) (u : Z),
       new_FairRandomGenerator 1
         (setStdout w (stdout w ++ [Text "Let's decide who picks first with a provably fair coin flip."]))
       = Ret g w1
       /\ forallb isChatter chat = true
       /\ 0 <= u <= 1
       /\ true = (Z.rem (getComputerNumber g + u) 2 =? 0)
       /\ grows w coinFlipEnd
            ([Text "Let's decide who picks first with a provably fair coin flip.";
              CoinCommitment (getHMAC g)]
               ++ chat
               ++ [Reveal (getComputerNumber g) (getKey g);
                   Computed 2 (getComputerNumber g) u (Z.rem (getComputerNumber g + u) 2);
                   PicksFirst true])
       /\ computeHMAC (hashes coinFlipEnd) (hexDecode (getKey g)) (getComputerNumber g)
          = getHMAC g.
Proof.
  intros w. split; [exact coin_flip_sample_run|].
  exact (decideFirstPlayer_round w true coinFlipEnd coin_flip_sample_run).
Defined.

Lemma coin_flip_choices_oppose_witness :
  decideFirstPlayer (setStdin coinFlipWorld ["0"; "x"]%string) = Ret (Some true) coinFlipEnd
  /\ exists (g : FairRandomGenerator) (shown : list message),
       let n := getComputerNumber g in
       In (CoinCommitment (getHMAC g)) shown
       /\ true = (n =? 0)
       /\ stdout coinFlipEnd
          = (shown ++ [Reveal n (getKey g); Computed 2 n 0 (Z.rem (n + 0) 2);
                       PicksFirst true])%list
       /\ decideFirstPlayer (setStdin coinFlipWorld ["1"; "x"]%string)
          = Ret (Some (negb true))
                (setStdout coinFlipEnd
                   (shown ++ [Reveal n (getKey g); Computed 2 n 1 (Z.rem (n + 1) 2);
                              PicksFirst (negb true)])).
Proof.
  split; [exact coin_flip_sample_run|].
  exact (coin_flip_choices_oppose coinFlipWorld ["x"]%string true coinFlipEnd
                                  coin_flip_sample_run).
Defined.

Lemma new_FairRandomGenerator_entropy_witness :
  let w := {| hashes := []; entropy := (sampleKey ++ [xff; x07; x03; x55])%list;
              stdin := []; stdout := [] |} in
  let g := {| max := 5; key := sampleKey; computerNumber := 3;
              hmac := computeHMAC [] sampleKey 3 |} in
  new_FairRandomGenerator 5 w = Ret g (setEntropy w [x55])
  /\ exists used,
       entropy w = (key g ++ used ++ [x55])%list
       /\ length (key g) = 32%nat
       /\ (5 = 0 -> used = [])
       /\ (0 < 5 -> exists n, 1 <= n
                              /\ Z.of_nat (length used) = n * specBytes (specWidth (5 + 1)))
       /\ stdin (setEntropy w [x55]) = stdin w /\ stdout (setEntropy w [x55]) = stdout w.
Proof.
  intros w g.
  assert (E : new_FairRandomGenerator 5 w = Ret g (setEntropy w [x55])).
  { unfold new_FairRandomGenerator, bind, generateKey.
    assert (E1 : randomBytes 32 w = Ret sampleKey (setEntropy w [xff; x07; x03; x55]))
      by reflexivity.
    rewrite E1.
    assert (E2 : secureRandomIndex 5 (setEntropy w [xff; x07; x03; x55])
                 = Ret 3 (setEntropy w [x55])) by (vm_compute; reflexivity).
    rewrite E2. reflexivity. }
  split; [exact E|].
  exact (new_FairRandomGenerator_entropy 5 w g (setEntropy w [x55]) E).
Defined.


(** ** Further properties: the human's roll in [dice.js] *)

(** X26: in [dice.js] the human chooses the outcome of their own roll.
    When the next line of input is the index [i] of a face of the human's
    die, [userRoll] returns the face at that very index; it draws no random
    byte and prints the title, the options and the prompt only, so no
    digest and no number of the computer enter the result. *)
Theorem DiceJs_userRoll_returns_typed_face (fs : list Z) (g : Game) (w : World) (i : Z)
        (rest : list string) :
  userDie g = Some (new_Dice fs) ->
  0 <= i < Z.of_nat (length fs) -> i < 2 ^ 53 ->
  stdin w = toString i :: rest ->
  exists (f : Z) (chat : list message),
    nth_error fs (Z.to_nat i) = Some f
    /\ forallb isChatter chat = true
    /\ DiceJs.userRoll g w
       = Ret (Num f) (setStdout (setStdin w rest) (stdout w ++ chat)).
Proof.
  intros Hd Hi Hb Hs.
  destruct (getFace_new_Dice fs i Hi) as [f [Hf Hg]].
  unfold DiceJs.userRoll. rewrite Hd. cbv beta delta [bind log] iota.
  destruct (showOptions_run (numFaces (new_Dice fs) - 1)
              (setStdout w (stdout w ++ [Text (newline ++ "Your rolling:")])))
    as [chat [Hc ->]].
  unfold DiceJs.getUserInput, DiceJs.getUserInputStatic, getUserInputWith.
  cbn [stdin stdout setStdout numFaces new_Dice]. rewrite Hs.
  rewrite questionLoop_listed by (try assumption; lia).
  exists f, ((Text (newline ++ "Your rolling:") :: chat) ++ [Question "Your choice: "])%list.
  split; [exact Hf|]. split.
  - rewrite forallb_app. cbn [forallb isChatter]. rewrite Hc. reflexivity.
  - unfold ret. fold (new_Dice fs). rewrite Hg. f_equal.
    unfold setStdout, setStdin. cbn [hashes entropy stdin stdout]. f_equal.
    repeat rewrite <- app_assoc. reflexivity.
Qed.

Lemma DiceJs_userRoll_returns_typed_face_witness :
  let g := {| dice := classicDice; computerDie := None;
              userDie := Some (new_Dice [3; 3; 5; 5; 7; 7]) |} in
  let w := sampleWorld ["4"; "x"]%string in
  exists (f : Z) (chat : list message),
    nth_error [3; 3; 5; 5; 7; 7] (Z.to_nat 4) = Some f
    /\ forallb isChatter chat = true
    /\ DiceJs.userRoll g w
       = Ret (Num f) (setStdout (setStdin w ["x"]%string) (stdout w ++ chat)).
Proof.
  intros g w.
  apply (DiceJs_userRoll_returns_typed_face [3; 3; 5; 5; 7; 7] g w 4 ["x"]%string);
    [reflexivity | simpl; lia | lia | reflexivity].
Defined.
